(* ===== verification/_CoqProject ===== *)
-Q . S2P
Prelude.v
CRuntime.v
EuclidState.v
Buckets.v
Distributor.v
PostProcess.v
Handlers.v
Rhythm.v
Contract.v
Machine.v
MethodTable.v
Assist.v
Scenarios.v
