(* ===== verification/Prelude.v ===== *)
(** * A verification development of mattbot.euclid

    The program is a Max external, [src/mattbot.euclid/euclid.c], that
    sends a Euclidean rhythm: [beats] steps of 0s and 1s with [hits] ones
    spread as evenly as the counts allow, rotated by [thisOffset] and, when
    the [pingpong] attribute is 1, followed by its mirror image.  The
    object [t_euclid] keeps the parameters, a byte buffer
    [s_outputSequence[64]], an integer array [s_outputIntSequence[128]] and
    the 64 rows of [s_Sequence[64][64]] in which the distributor builds
    its buckets.  Every message ends in [euclid_bang], which runs
    [euclid_prepare_sequence] (the bucket initializer), the recursive
    [euclid] (the distributor), [euclid_sequence_string_to_int],
    [euclid_thisOffset] (the rotator) and [euclid_ping_pong] (the mirror),
    then sends the integers.  [euclid_int], [euclid_in1] and [euclid_in2]
    clamp hits, beats and offset into the object before banging.

    ** How the code is modelled

    State is passed explicitly: a C routine on [t_euclid *x] is a function
    from the record to [res t_euclid], where [res] (this file) is a value
    or the undefined behaviour the C code would hit: an index out of an
    array ([OutOfBounds]), a [strcat] of a row onto itself
    ([OverlappingStrcat]), a [% 0] ([DivisionByZero]).  Arrays are lists
    read and written through checked accessors at their C lengths; the
    byte buffer is a list of bytes, so that the bytes the code reads past
    the NUL are the ones it really finds there.  A [for] loop is
    [for_loop] (this file), with the invariant rule [for_loop_inv]; the
    recursion of [euclid] runs on fuel [euclid_fuel hits = |hits| + 1].
    Integers are [Z]; where the code narrows a [long] to an [int] (the
    [int] parameters of [euclid] and [euclid_thisOffset], the [int] field
    [s_lastElement]) the model applies [CRuntime.to_int], the 32-bit
    wrap-around.  Every stored value is clamped to a small range
    ([Machine.reachable_inv]), so on reachable states no narrowing changes
    a value ([Machine.reachable_int_args]) and no [long] overflows.

    ** Files

    - [Prelude] (this file): [c_error], [res] and its monad instances,
      [splice] (notation [l .[ i ↦ vs ]]), [for_loop], the tests
      [forall_range] and [for_all_params] over finite ranges, the hint
      databases [euclid] and [euclid_rw], and the tactics [for_inv],
      [not_fuel_auto], [res_simpl] and [concrete].
    - [CRuntime]: checked arrays; [strcpy], [strcat] and [strlen] on the
      byte buffer, and what a buffer that holds a C string looks like;
      the narrowing [to_int] of a [long] to a 32-bit [int].
    - [EuclidState]: the record [t_euclid] (lines 39-50, every field;
      the Max header and the outlet pointer as [unit]), its setters (the
      assignments [x->f = v]), [euclid_new] (lines 99-119), [shape_ok],
      and the interface [WriteClosed]: a property of the object kept by
      the four primitive writes of the routines.  Its instances are
      [shape_ok] (the arrays keep their C lengths) and [params] (hits,
      beats, offset and flag unchanged).  Distributor, PostProcess and
      Handlers prove their frame lemmas once against the interface.
    - [Buckets]: the distributor on the list of active buckets:
      [zero_sets] and [number_of_distributions] (lines 253-283),
      [initialize], [distribute], [pattern]; conservation of the hits
      ([pattern_conserves]), totality over the clamped domain
      ([pattern_defined]) and the capacity of the rows
      ([buckets_fit_rows], [bucket_overflows_row]).
    - [Distributor]: [euclid_prepare_sequence] (lines 218-230) and
      [euclid] (lines 234-303) on the record, loop by loop; the refinement
      [euclid_refines] of [Buckets.distribute], the functional
      specification [prepare_spec], and termination ([euclid_not_fuel]).
    - [PostProcess]: [euclid_sequence_string_to_int] (lines 307-316),
      [euclid_thisOffset] (lines 320-355), [euclid_ping_pong] (lines
      359-369); each against a list specification (bytes to bits, right
      rotation, reversal), with the round trip, identity and composition
      laws of the rotation ([thisOffset_compose]: two offsets are one
      offset by their sum modulo beats, through stdpp's [rotate]) and the
      mirror law of ping-pong.
    - [Handlers]: [euclid_bang] (lines 145-167), [euclid_int],
      [euclid_in1], [euclid_in2] (lines 171-214) and the attribute
      setter; what a bang does after a parameter message, from a stale
      [s_lastElement] ([bang_distributes_stale_rows]: a bang distributes
      whatever the last run left in the active rows) and before any
      beats; [in1_keeps_hits]: in1 does not re-clamp the stored hits.
    - [Rhythm]: evenness of the patterns (every cyclic gap is floor or
      ceil of beats / hits), the first hit at step 0, and the comparison
      with Bjorklund's E(4,10).
    - [Contract]: the spec's contract [generate] (section 6), the
      refinement theorems that each inlet sends exactly [generate]'s
      output, and the fixtures of the spec's section 8.
    - [Machine]: the messages and their [dispatch], [reachable] states
      and [run]s of messages; the invariant [inv] of every reachable
      state ([reachable_inv]); where the writes land: a parameter message
      leaves a string of exactly beats characters with its NUL at index
      beats ([param_msg_nul_at_beats]), which at 64 beats is one past the
      buffer; the envelope in which every index stays inside the
      declared arrays (1 to 63 beats, in1 arguments up to 63:
      [dispatch_in_bounds]); and the division by zero of an in2 sent
      before any beats ([in2_divides_by_zero]).
    - [MethodTable]: [main] (lines 74-95) as the class it builds with
      [class_new], [class_addmethod] and [CLASS_ATTR_LONG], the proxy
      inlets of [euclid_new] (lines 104-105), and Max's delivery of a
      message by selector ([typedmess]).  The table implements
      [Machine.dispatch] ([typedmess_wire]) and accepts nothing else
      ([typedmess_complete]); each inlet reaches its handler
      ([inlet_messages]).
    - [Assist]: [euclid_assist] (lines 124-141) with a model of [sprintf]'s
      [%ld]; each inlet's help
      text names the parameter that inlet's message stores and truly
      says that it causes output ([assist_describes_inlets]).
    - [Scenarios]: concrete runs that exhibit the departures from the
      spec.

    ** Bounds and fuel

    [euclid] recurses on [(beats % hits, hits)], so [|hits|] decreases
    strictly and [|hits| + 1] calls always reach [hits = 0]
    ([euclid_not_fuel]).  The inlets keep beats in [1, 64], hits
    in [0, 64] and the offset in [0, 128], so the distributor only ever
    sees the [64 * 65] pairs of that domain.  Facts about the distributor
    that have no closed-form proof (it never folds a bucket onto itself,
    its buckets fit the rows, its gaps are even, a bang from a stale
    [s_lastElement] still distributes) are boolean tests over the whole
    domain decided by [vm_compute], turned into universal statements by
    [for_all_params_sound]; they transfer to the C code through
    [euclid_refines].

    ** What is not modelled

    Of [euclid.c], every function, the struct and [main] are modelled;
    what is left is the licence, the [#include]s, the prototypes (whose
    [int] parameters are the narrowing [CRuntime.to_int]) and the global
    class pointer, which hold no behaviour of their own.
    The Max runtime beyond what the program relies on: [typedmess],
    the selectors of [intin] proxies and the argument types are modelled
    from the Max documentation (MethodTable.v); [outlet_anything] is the
    list a handler returns; [object_alloc] is taken to zero the fields
    [euclid_new] does not set; [class_register], the scheduler and the
    patcher are not modelled.  [sprintf] is modelled only for the
    conversions [euclid_assist] uses ([%ld], [%%]).  Writing past
    an array is not followed into the neighbouring fields: the model's
    byte buffer grows instead and its rows are unbounded strings, and the
    theorems [Machine.param_msg_nul_at_beats] and
    [Buckets.bucket_overflows_row] show where the C code writes past
    [s_outputSequence] and past a row, and [Machine.dispatch_in_bounds]
    the envelope of messages inside which it never does.  The safety
    theorems about reachable states therefore hold of the model with its
    growing buffer; they are stated for the C arrays only inside that
    envelope.  The variable-length atom array
    of [euclid_bang] is taken to be empty when [s_beats] is 0, as the
    compilers Max uses allow, although ISO C leaves a zero-size VLA
    undefined: a bang before any beats sends an empty list
    ([Handlers.bang_zero_beats]). *)

From Stdlib Require Import ZArith Lia.
From stdpp Require Import base list strings decidable.

Declare Scope euclid_scope.
Delimit Scope euclid_scope with euclid.
Open Scope Z_scope.

(** ** Undefined behaviour of the C code, as values *)

(** An access that C leaves undefined, or a run that was cut off. *)
Inductive c_error : Type :=
| OutOfBounds (array : string) (index : Z)
| OverlappingStrcat (row : Z)
| DivisionByZero
| OutOfFuel.

#[export] Instance c_error_eq_dec : EqDecision c_error.
Proof. solve_decision. Defined.

(** The result of a C routine: a value, or the undefined behaviour it hits. *)
Inductive res (A : Type) : Type :=
| Ok (a : A)
| Err (e : c_error).
Arguments Ok {A} a.
Arguments Err {A} e.

#[export] Instance res_ret : MRet res := fun _ a => Ok a.
#[export] Instance res_bind : MBind res :=
  fun _ _ f m => match m with Ok a => f a | Err e => Err e end.

(** ** Shared lemmas *)

Lemma res_bind_Ok {A B} (m : res A) (f : A -> res B) b :
  (m ≫= f) = Ok b <-> exists a, m = Ok a /\ f a = Ok b.
Proof.
  destruct m as [a|e]; simpl; split.
  - intros H. eauto.
  - intros (a' & [= <-] & H). exact H.
  - discriminate.
  - intros (a' & ? & _). discriminate.
Qed.

Lemma res_bind_ok_l {A B} (a : A) (f : A -> res B) : (Ok a ≫= f) = f a.
Proof. reflexivity. Qed.

(** A boolean test over an integer range, and its soundness: the bridge
    between statements over the clamped parameter domain and [vm_compute]. *)
Fixpoint forall_upto (f : Z -> bool) (lo : Z) (n : nat) : bool :=
  match n with
  | O => true
  | S n' => f lo && forall_upto f (lo + 1) n'
  end.

Definition forall_range (f : Z -> bool) (lo hi : Z) : bool :=
  forall_upto f lo (Z.to_nat (hi - lo + 1)).

Lemma forall_upto_sound f lo n z :
  forall_upto f lo n = true -> lo <= z < lo + Z.of_nat n -> f z = true.
Proof.
  revert lo. induction n as [|n IH]; simpl; intros lo H Hz; [lia|].
  apply andb_true_iff in H as [H1 H2].
  destruct (decide (z = lo)) as [->|Hne]; [exact H1|].
  apply (IH (lo + 1)); [exact H2|lia].
Qed.

Lemma forall_range_sound f lo hi z :
  forall_range f lo hi = true -> lo <= z <= hi -> f z = true.
Proof.
  unfold forall_range. intros H Hz.
  apply (forall_upto_sound f lo _ z H). lia.
Qed.

(** A run that did not stop for lack of fuel. *)
Definition not_fuel {A} (r : res A) : Prop := r <> Err OutOfFuel.

Lemma not_fuel_ok {A} (a : A) : not_fuel (Ok a).
Proof. discriminate. Qed.

Lemma not_fuel_bind {A B} (m : res A) (f : A -> res B) :
  not_fuel m -> (forall a, not_fuel (f a)) -> not_fuel (m ≫= f).
Proof. destruct m as [a|e]; simpl; [auto|]. intros H _ He. apply H. congruence. Qed.

Lemma lookup_nth {A} (l : list A) (k : nat) (d : A) :
  (k < length l)%nat -> l !! k = Some (nth k l d).
Proof. intros Hk. destruct (nth_lookup_or_length l k d); [done | lia]. Qed.

Lemma res_bind_ext {A B} (m : res A) (f g : A -> res B) :
  (forall a, f a = g a) -> (m ≫= f) = (m ≫= g).
Proof. intros H. destruct m; simpl; auto. Qed.

Lemma map_replicate {A B} (f : A -> B) n x : map f (replicate n x) = replicate n (f x).
Proof. induction n as [|n IH]; simpl; congruence. Qed.

(** ** Writing a block into an array

    [splice l i vs] is [l] with the cells [i .. i + |vs| - 1] overwritten
    by [vs]: what a C loop [a[i + k] = v_k] leaves behind. *)
Definition splice {A} (l : list A) (i : nat) (vs : list A) : list A :=
  take i l ++ vs ++ drop (i + length vs) l.

(** [l .[ i ↦ vs ]]: the array [l] with the block [vs] written from
    index [i] on, as a C loop [for (k ...) l[i + k] = vs[k]] leaves it. *)
Notation "l .[ i ↦ vs ]" := (splice l i vs)
  (at level 1, left associativity, format "l .[ i  ↦  vs ]") : euclid_scope.
Open Scope euclid_scope.

Section Splice.
Context {A : Type}.
Implicit Types (l vs : list A) (v : A).

Lemma splice_nil l i : (i <= length l)%nat -> splice l i [] = l.
Proof. intros. unfold splice. simpl. rewrite Nat.add_0_r. apply take_drop. Qed.

Lemma length_splice l i vs :
  (i + length vs <= length l)%nat -> length (splice l i vs) = length l.
Proof. intros. unfold splice. rewrite !length_app, length_take, length_drop. lia. Qed.

(** One more iteration of the loop: the block grows by one cell. *)
Lemma splice_snoc l i vs v :
  (i + length vs < length l)%nat ->
  <[(i + length vs)%nat := v]> (splice l i vs) = splice l i (vs ++ [v]).
Proof.
  intros H. unfold splice.
  rewrite insert_app_r_alt by (rewrite length_take; lia).
  rewrite length_take, Nat.min_l by lia.
  replace (i + length vs - i)%nat with (length vs + 0)%nat by lia.
  rewrite insert_app_r.
  rewrite (drop_S _ (nth (i + length vs) l v)) by (apply lookup_nth; lia).
  simpl. rewrite <- app_assoc, length_app. simpl.
  by replace (i + (length vs + 1))%nat with (S (i + length vs)) by lia.
Qed.

Lemma take_splice l i vs : (i <= length l)%nat -> take i (splice l i vs) = take i l.
Proof.
  intros. unfold splice. rewrite take_app_le by (rewrite length_take; lia).
  rewrite take_take. f_equal. lia.
Qed.

Lemma drop_splice l i vs :
  (i <= length l)%nat -> drop i (splice l i vs) = vs ++ drop (i + length vs) l.
Proof.
  intros. unfold splice. rewrite drop_app_length'; [done|]. rewrite length_take. lia.
Qed.

Lemma nth_splice_lt l i vs k d :
  (k < i)%nat -> (i <= length l)%nat -> nth k (splice l i vs) d = nth k l d.
Proof.
  intros. rewrite <- (take_drop i (splice l i vs)), take_splice by lia.
  rewrite app_nth1 by (rewrite length_take; lia).
  rewrite nth_firstn. replace (k <? i)%nat with true; [done|]. symmetry. apply Nat.ltb_lt. lia.
Qed.
Lemma take_splice_block l i vs :
  (i + length vs <= length l)%nat -> take (i + length vs) (splice l i vs) = take i l ++ vs.
Proof.
  intros H. unfold splice. rewrite app_assoc, take_app_length'; [done|].
  rewrite length_app, length_take. lia.
Qed.

Lemma take_splice_front l vs :
  (length vs <= length l)%nat -> take (length vs) (splice l 0 vs) = vs.
Proof. intros H. pose proof (take_splice_block l 0 vs) as Ht. simpl in Ht. by rewrite Ht by lia. Qed.

Lemma take_splice_front_n l vs n :
  length vs = n -> (n <= length l)%nat -> take n (splice l 0 vs) = vs.
Proof. intros <- H. by apply take_splice_front. Qed.

Lemma take_splice_prefix l vs n :
  (n <= length vs)%nat -> (length vs <= length l)%nat -> take n (splice l 0 vs) = take n vs.
Proof.
  intros H1 H2. unfold splice. rewrite take_0, app_nil_l, take_app_le by done. done.
Qed.

(** A second block of the same length at the same place overwrites the first. *)
Lemma splice_splice l i vs ws :
  length vs = length ws -> (i + length vs <= length l)%nat -> (l.[i ↦ vs]).[i ↦ ws] = l.[i ↦ ws].
Proof.
  intros Hl H. unfold splice. rewrite take_app_le by (rewrite length_take; lia).
  rewrite take_take, Nat.min_id, <- Hl, (app_assoc (take i l) vs), drop_app_length'.
  - done.
  - rewrite length_app, length_take. lia.
Qed.

Lemma length_splice_ge l i vs : (i <= length l)%nat -> (length l <= length (splice l i vs))%nat.
Proof. intros. unfold splice. rewrite !length_app, length_take, length_drop. lia. Qed.

Lemma Forall_splice (P : A -> Prop) l i vs :
  Forall P l -> Forall P vs -> Forall P (splice l i vs).
Proof. intros. unfold splice. apply Forall_app; split; [by apply Forall_take|].
  apply Forall_app; split; [done|by apply Forall_drop]. Qed.
End Splice.

(** ** [for (i = lo; i < lo + n; i++) body]

    The C loops whose bound does not change inside the body. *)
Fixpoint for_loop {St} (n : nat) (i : Z) (body : Z -> St -> res St) (s : St) : res St :=
  match n with
  | O => Ok s
  | S n' => body i s ≫= for_loop n' (i + 1) body
  end.

(** The loop rule: an invariant [I k s] that holds before iteration [k]
    and that each iteration re-establishes for [k + 1]. *)
Lemma for_loop_inv {St} (I : Z -> St -> Prop) n lo body s :
  I lo s ->
  (forall k s, lo <= k < lo + Z.of_nat n -> I k s ->
     exists s', body k s = Ok s' /\ I (k + 1) s') ->
  exists s', for_loop n lo body s = Ok s' /\ I (lo + Z.of_nat n) s'.
Proof.
  revert lo s. induction n as [|n IH]; intros lo s H0 Hstep; simpl.
  - exists s. split; [done|]. by rewrite Z.add_0_r.
  - destruct (Hstep lo s) as (s1 & -> & H1); [lia|done|]. simpl.
    destruct (IH (lo + 1) s1 H1) as (s2 & -> & H2).
    { intros k s' Hk. apply Hstep. lia. }
    exists s2. split; [done|]. replace (lo + Z.of_nat (S n)) with (lo + 1 + Z.of_nat n) by lia.
    exact H2.
Qed.

(** Apply the loop rule to the first loop of the goal; leaves the
    initial case, the iteration and the goal after the loop, in order. *)
Ltac for_inv I :=
  match goal with
  | |- context [for_loop ?n ?lo ?body ?s] =>
      let y := fresh "y" in let Hy := fresh "Hloop" in let HI := fresh "HI" in
      destruct (for_loop_inv I n lo body s) as (y & Hy & HI);
      [| |rewrite Hy; try rewrite res_bind_ok_l; cbv beta]
  end.

(** The partial rule: a property every iteration that returns keeps holds
    after a loop that returns. *)
Lemma for_loop_preserves {St} (P : St -> Prop) n lo (body : Z -> St -> res St) s s' :
  (forall k t t', P t -> body k t = Ok t' -> P t') ->
  P s -> for_loop n lo body s = Ok s' -> P s'.
Proof.
  intros Hb. revert lo s. induction n as [|n IH]; intros lo s Hs H; simpl in H.
  - by injection H as <-.
  - apply res_bind_Ok in H as (t & Ht & H). exact (IH _ _ (Hb _ _ _ Hs Ht) H).
Qed.

Lemma for_loop_not_fuel {St} n lo (body : Z -> St -> res St) s :
  (forall k s, not_fuel (body k s)) -> not_fuel (for_loop n lo body s).
Proof.
  intros Hb. revert lo s. induction n as [|n IH]; intros lo s; simpl.
  - apply not_fuel_ok.
  - apply not_fuel_bind; auto.
Qed.

Create HintDb euclid discriminated.
#[export] Hint Resolve not_fuel_ok not_fuel_bind for_loop_not_fuel : euclid.

(** Show that a C routine built from binds, tests and checked accesses
    never stops for lack of fuel. *)
Ltac not_fuel_auto :=
  repeat match goal with
  | |- not_fuel (_ ≫= _) => apply not_fuel_bind; [|intros ?]
  | |- not_fuel (if ?b then _ else _) => destruct b
  | |- not_fuel (match ?p with pair _ _ => _ end) => destruct p
  | |- not_fuel (Ok _) => apply not_fuel_ok
  | |- not_fuel (Err _) => unfold not_fuel; discriminate
  end; eauto with euclid.
Create Rewrite HintDb euclid_rw.
#[export] Hint Resolve forall_range_sound : euclid.
#[export] Hint Rewrite @res_bind_ok_l : euclid_rw.

(** Unfold a [res] bind whose head is known, and split on the others. *)
Ltac res_simpl :=
  repeat match goal with
  | H : (?m ≫= _) = Ok _ |- _ => apply res_bind_Ok in H as (? & ? & H)
  | H : Ok _ = Ok _ |- _ => injection H as H
  end.

(** Discharge a hypothesis about concrete data: arithmetic, or a closed
    computation that evaluates to a conjunction of trivial facts. *)
Ltac concrete :=
  solve [ lia | reflexivity | (cbn; lia)
        | (vm_compute; split_and?; first [reflexivity | lia | congruence])
        | (apply (bool_decide_unpack _); vm_compute; exact I) ].

(** ** Tests over the parameter domain *)

(** A test over every [1 <= beats <= 64] and [0 <= hits <= hmax beats]. *)
Definition for_all_params (hmax : Z -> Z) (f : Z -> Z -> bool) : bool :=
  forall_range (fun b => forall_range (fun h => f h b) 0 (hmax b)) 1 64.

Lemma for_all_params_sound hmax f h b :
  for_all_params hmax f = true -> 1 <= b <= 64 -> 0 <= h <= hmax b -> f h b = true.
Proof.
  intros Hall Hb Hh. unfold for_all_params in Hall.
  apply (forall_range_sound (fun h => f h b) 0 (hmax b)); [|done].
  exact (forall_range_sound _ 1 64 b Hall Hb).
Qed.

Definition is_some {A} (o : option A) : bool := match o with Some _ => true | None => false end.

Lemma is_some_true {A} (o : option A) : is_some o = true -> exists a, o = Some a.
Proof. destruct o as [a|]; [by exists a | discriminate]. Qed.
