(* ===== verification/CRuntime.v ===== *)
(** * C arrays and C strings, as [euclid.c] uses them

    A fixed-size C array [T a[cap]] is a [list T] of length [cap], read and
    written through [arr_get] and [arr_set], which check the index against
    the declared length and return [OutOfBounds] where C has undefined
    behaviour.  The rows of [s_Sequence] hold NUL-free C strings and are
    modelled as [string]s; [strcmp (a, b) == 0] is [String.eqb a b] and
    [strcat] is [String.append].  The byte buffer [s_outputSequence] is
    modelled byte by byte ([list ascii]), because the code reads its bytes
    past the terminating NUL: [buf_strcpy] and [buf_strcat] write the
    string and its terminator into the buffer and leave the later bytes as
    they were.  [to_int] is the conversion of a [long] to a 32-bit [int]
    at a call whose parameter is an [int]. *)
From Stdlib Require Import ZArith Lia Ascii String.
From stdpp Require Import base list strings decidable.
From S2P Require Import Prelude.
Open Scope Z_scope.

(** ** Narrowing a [long] to an [int]

    [int] is 32 bits wide on the platforms Max runs on, and a [long]
    that does not fit wraps around modulo [2^32] (the implementation-
    defined conversion of those compilers). *)
Definition INT_MIN : Z := -2147483648.
Definition INT_MAX : Z := 2147483647.

Definition to_int (z : Z) : Z := (z - INT_MIN) mod 2 ^ 32 + INT_MIN.

Definition fits_int (z : Z) : Prop := INT_MIN <= z <= INT_MAX.

Lemma to_int_id z : fits_int z -> to_int z = z.
Proof.
  unfold fits_int, to_int, INT_MIN, INT_MAX. intros H.
  rewrite Z.mod_small by lia. lia.
Qed.

Ltac fits_int_auto := unfold fits_int, INT_MIN, INT_MAX in *; lia.

Lemma to_int_range z : fits_int (to_int z).
Proof.
  unfold fits_int, to_int, INT_MIN, INT_MAX.
  pose proof (Z.mod_pos_bound (z - -2147483648) (2 ^ 32) ltac:(lia)). lia.
Qed.

(** ** Checked arrays *)

Definition arr_get {A} (name : string) (cap : Z) (d : A) (l : list A) (i : Z) : res A :=
  if decide (0 <= i < cap) then Ok (nth (Z.to_nat i) l d) else Err (OutOfBounds name i).

Definition arr_set {A} (name : string) (cap : Z) (l : list A) (i : Z) (v : A)
    : res (list A) :=
  if decide (0 <= i < cap) then Ok (<[Z.to_nat i := v]> l) else Err (OutOfBounds name i).

Lemma arr_get_in {A} name cap (d : A) l i :
  0 <= i < cap -> arr_get name cap d l i = Ok (nth (Z.to_nat i) l d).
Proof. intros H. unfold arr_get. by rewrite decide_True. Qed.

Lemma arr_set_in {A} name cap (l : list A) i v :
  0 <= i < cap -> arr_set name cap l i v = Ok (<[Z.to_nat i := v]> l).
Proof. intros H. unfold arr_set. by rewrite decide_True. Qed.

Lemma arr_get_not_fuel {A} name cap (d : A) l i : not_fuel (arr_get name cap d l i).
Proof. unfold arr_get. case_decide; [apply not_fuel_ok | discriminate]. Qed.

Lemma arr_set_not_fuel {A} name cap (l : list A) i v : not_fuel (arr_set name cap l i v).
Proof. unfold arr_set. case_decide; [apply not_fuel_ok | discriminate]. Qed.

#[export] Hint Resolve arr_get_not_fuel arr_set_not_fuel : euclid.

(** ** NUL-terminated byte buffers *)

Definition NUL : ascii := "000"%char.
Definition ch0 : ascii := "0"%char.
Definition ch1 : ascii := "1"%char.

(** [strlen]: the bytes before the first NUL. *)
Fixpoint c_strlen (b : list ascii) : nat :=
  match b with
  | [] => 0
  | c :: b' => if Ascii.eqb c NUL then 0 else S (c_strlen b')
  end.

(** Write [bs] at offset [i], keeping the bytes after it. *)
Definition buf_write (b : list ascii) (i : nat) (bs : list ascii) : list ascii :=
  splice b i bs.

Definition buf_strcpy (b : list ascii) (s : string) : list ascii :=
  buf_write b 0 (list_ascii_of_string s ++ [NUL]).

Definition buf_strcat (b : list ascii) (s : string) : list ascii :=
  buf_write b (c_strlen b) (list_ascii_of_string s ++ [NUL]).

(** A string of the characters '0' and '1' only, as the rows hold. *)
Definition bit_char (c : ascii) : bool := bool_decide (c = ch0 \/ c = ch1).
Definition bit_string (s : string) : bool := forallb bit_char (list_ascii_of_string s).

Lemma list_ascii_of_string_append a b :
  list_ascii_of_string (String.append a b) = list_ascii_of_string a ++ list_ascii_of_string b.
Proof. induction a as [|c a IH]; simpl; [done|]. by rewrite IH. Qed.

Lemma length_list_ascii_of_string s : length (list_ascii_of_string s) = String.length s.
Proof. induction s as [|c s IH]; simpl; [done|]. by rewrite IH. Qed.

(** ** The buffer holds a C string: [p], a NUL, then stale bytes *)

Definition nul_free (p : list ascii) : Prop := NUL ∉ p.

Definition holds (b p : list ascii) : Prop :=
  nul_free p /\ exists r, b = p ++ NUL :: r.

Lemma c_strlen_app_nul p r : nul_free p -> c_strlen (p ++ NUL :: r) = length p.
Proof.
  unfold nul_free. induction p as [|c p IH]; intros Hp; simpl.
  - done.
  - rewrite (proj2 (Ascii.eqb_neq c NUL)) by (intros ->; apply Hp; left). f_equal. apply IH.
    intros Hin. apply Hp. by right.
Qed.

Lemma holds_strcpy_empty b : (0 < length b)%nat -> holds (buf_strcpy b EmptyString) [].
Proof.
  intros Hb. split; [intros Hin; inversion Hin|].
  exists (drop 1 b). reflexivity.
Qed.

Lemma holds_strcat b p s :
  holds b p -> nul_free (list_ascii_of_string s) ->
  holds (buf_strcat b s) (p ++ list_ascii_of_string s).
Proof.
  intros [Hp [r ->]] Hs. unfold buf_strcat, buf_write, splice.
  rewrite c_strlen_app_nul by done. split.
  - unfold nul_free. rewrite elem_of_app. intros [H|H]; [apply Hp|apply Hs]; done.
  - exists (drop (length p + length (list_ascii_of_string s ++ [NUL])) (p ++ NUL :: r)).
    rewrite take_app_length, <- (app_assoc p), <- (app_assoc (list_ascii_of_string s)). reflexivity.
Qed.

Lemma holds_foldl_strcat b p bs :
  holds b p -> Forall (fun s => nul_free (list_ascii_of_string s)) bs ->
  holds (foldl buf_strcat b bs) (p ++ list_ascii_of_string (foldr String.append EmptyString bs)).
Proof.
  revert b p. induction bs as [|s bs IH]; intros b p Hb Hbs; simpl.
  - by rewrite app_nil_r.
  - inversion Hbs as [|? ? Hs Hbs']; subst.
    rewrite list_ascii_of_string_append, app_assoc. apply IH; [|done].
    by apply holds_strcat.
Qed.

Lemma take_holds b p : holds b p -> take (length p) b = p.
Proof. intros [_ [r ->]]. apply take_app_length. Qed.

(** A buffer that holds [p]: [strlen] is the length of [p], and the NUL
    that ends it is at index [length p]. *)
Lemma holds_strlen b p : holds b p -> c_strlen b = length p /\ b !! length p = Some NUL.
Proof.
  intros [Hp [r ->]]. split; [by apply c_strlen_app_nul|].
  rewrite lookup_app_r, Nat.sub_diag by lia. done.
Qed.

(** The characters of a string of '0' and '1' are not NUL. *)
Lemma bit_string_nul_free s : bit_string s = true -> nul_free (list_ascii_of_string s).
Proof.
  unfold bit_string, nul_free. intros H Hin.
  apply forallb_forall with (x := NUL) in H; [|by apply list_elem_of_In].
  unfold bit_char in H. apply bool_decide_eq_true in H. destruct H as [H|H]; discriminate.
Qed.

Lemma c_strlen_le b : (c_strlen b <= length b)%nat.
Proof. induction b as [|c b IH]; simpl; [lia|]. destruct (Ascii.eqb c NUL); lia. Qed.

Lemma length_buf_strcat b s : (length b <= length (buf_strcat b s))%nat.
Proof. apply length_splice_ge, c_strlen_le. Qed.

Lemma length_foldl_strcat b bs : (length b <= length (foldl buf_strcat b bs))%nat.
Proof.
  revert b. induction bs as [|s bs IH]; intros b; simpl; [lia|].
  etrans; [apply length_buf_strcat|apply IH].
Qed.

Lemma length_buf_strcpy b s : (length b <= length (buf_strcpy b s))%nat.
Proof. apply length_splice_ge. lia. Qed.
