(* ===== verification/EuclidState.v ===== *)
(** * The object record [t_euclid] and its constructor

    [t_euclid] (euclid.c, lines 39-50) with every field; the Max header
    [s_ob] and the outlet pointer, which only the host uses, are [unit].
    Arrays keep their C lengths: [s_outputSequence] 64 bytes,
    [s_outputIntSequence] 128 longs, [s_Sequence] 64 rows.  The setters
    are the field assignments [x->f = v] of the code.  [WriteClosed] is
    the interface the routines' frame lemmas are proved against: a
    property of the object that each primitive write keeps. *)
From Stdlib Require Import ZArith Lia Ascii String.
From stdpp Require Import base list strings decidable.
From S2P Require Import Prelude CRuntime.
Open Scope Z_scope.

Definition OUTSEQ_CAP : Z := 64.
Definition OUTINT_CAP : Z := 128.
Definition SEQ_ROWS : Z := 64.

(** The fields in the order of the C struct.  [t_object s_ob] is the Max
    object header and [void *s_outlet1] the outlet [outlet_new] returns;
    the object's code never reads them, and they are kept as opaque
    [unit] values.  [long] and [int] fields are [Z]; the arrays are lists
    of their C length ([char s_Sequence[64][64]] as 64 strings). *)
Record t_euclid := mk_euclid {
  s_ob : unit;
  s_beats : Z;
  s_hits : Z;
  s_thisOffset : Z;
  s_outlet1 : unit;
  s_outputSequence : list ascii;
  s_outputIntSequence : list Z;
  s_Sequence : list string;
  s_lastElement : Z;
  s_pingPongFlag : Z
}.

(** The assignments [x->f = v] of the code, one per field it writes. *)
Definition set_beats (x : t_euclid) (v : Z) : t_euclid :=
  {| s_ob := s_ob x;
     s_beats := v;
     s_hits := s_hits x;
     s_thisOffset := s_thisOffset x;
     s_outlet1 := s_outlet1 x;
     s_outputSequence := s_outputSequence x;
     s_outputIntSequence := s_outputIntSequence x;
     s_Sequence := s_Sequence x;
     s_lastElement := s_lastElement x;
     s_pingPongFlag := s_pingPongFlag x |}.
Definition set_hits (x : t_euclid) (v : Z) : t_euclid :=
  {| s_ob := s_ob x;
     s_beats := s_beats x;
     s_hits := v;
     s_thisOffset := s_thisOffset x;
     s_outlet1 := s_outlet1 x;
     s_outputSequence := s_outputSequence x;
     s_outputIntSequence := s_outputIntSequence x;
     s_Sequence := s_Sequence x;
     s_lastElement := s_lastElement x;
     s_pingPongFlag := s_pingPongFlag x |}.
Definition set_thisOffset (x : t_euclid) (v : Z) : t_euclid :=
  {| s_ob := s_ob x;
     s_beats := s_beats x;
     s_hits := s_hits x;
     s_thisOffset := v;
     s_outlet1 := s_outlet1 x;
     s_outputSequence := s_outputSequence x;
     s_outputIntSequence := s_outputIntSequence x;
     s_Sequence := s_Sequence x;
     s_lastElement := s_lastElement x;
     s_pingPongFlag := s_pingPongFlag x |}.
Definition set_outputSequence (x : t_euclid) (v : list ascii) : t_euclid :=
  {| s_ob := s_ob x;
     s_beats := s_beats x;
     s_hits := s_hits x;
     s_thisOffset := s_thisOffset x;
     s_outlet1 := s_outlet1 x;
     s_outputSequence := v;
     s_outputIntSequence := s_outputIntSequence x;
     s_Sequence := s_Sequence x;
     s_lastElement := s_lastElement x;
     s_pingPongFlag := s_pingPongFlag x |}.
Definition set_outputIntSequence (x : t_euclid) (v : list Z) : t_euclid :=
  {| s_ob := s_ob x;
     s_beats := s_beats x;
     s_hits := s_hits x;
     s_thisOffset := s_thisOffset x;
     s_outlet1 := s_outlet1 x;
     s_outputSequence := s_outputSequence x;
     s_outputIntSequence := v;
     s_Sequence := s_Sequence x;
     s_lastElement := s_lastElement x;
     s_pingPongFlag := s_pingPongFlag x |}.
Definition set_Sequence (x : t_euclid) (v : list string) : t_euclid :=
  {| s_ob := s_ob x;
     s_beats := s_beats x;
     s_hits := s_hits x;
     s_thisOffset := s_thisOffset x;
     s_outlet1 := s_outlet1 x;
     s_outputSequence := s_outputSequence x;
     s_outputIntSequence := s_outputIntSequence x;
     s_Sequence := v;
     s_lastElement := s_lastElement x;
     s_pingPongFlag := s_pingPongFlag x |}.
Definition set_lastElement (x : t_euclid) (v : Z) : t_euclid :=
  {| s_ob := s_ob x;
     s_beats := s_beats x;
     s_hits := s_hits x;
     s_thisOffset := s_thisOffset x;
     s_outlet1 := s_outlet1 x;
     s_outputSequence := s_outputSequence x;
     s_outputIntSequence := s_outputIntSequence x;
     s_Sequence := s_Sequence x;
     s_lastElement := v;
     s_pingPongFlag := s_pingPongFlag x |}.
Definition set_pingPongFlag (x : t_euclid) (v : Z) : t_euclid :=
  {| s_ob := s_ob x;
     s_beats := s_beats x;
     s_hits := s_hits x;
     s_thisOffset := s_thisOffset x;
     s_outlet1 := s_outlet1 x;
     s_outputSequence := s_outputSequence x;
     s_outputIntSequence := s_outputIntSequence x;
     s_Sequence := s_Sequence x;
     s_lastElement := s_lastElement x;
     s_pingPongFlag := v |}.


(** Reading a field after a setter. *)
Lemma s_beats_set_outputIntSequence x v : s_beats (set_outputIntSequence x v) = s_beats x.
Proof. reflexivity. Qed.
Lemma s_hits_set_outputIntSequence x v : s_hits (set_outputIntSequence x v) = s_hits x.
Proof. reflexivity. Qed.
Lemma s_thisOffset_set_outputIntSequence x v : s_thisOffset (set_outputIntSequence x v) = s_thisOffset x.
Proof. reflexivity. Qed.
Lemma s_outputSequence_set_outputIntSequence x v : s_outputSequence (set_outputIntSequence x v) = s_outputSequence x.
Proof. reflexivity. Qed.
Lemma s_outputIntSequence_set_outputIntSequence x v : s_outputIntSequence (set_outputIntSequence x v) = v.
Proof. reflexivity. Qed.
Lemma s_Sequence_set_outputIntSequence x v : s_Sequence (set_outputIntSequence x v) = s_Sequence x.
Proof. reflexivity. Qed.
Lemma s_lastElement_set_outputIntSequence x v : s_lastElement (set_outputIntSequence x v) = s_lastElement x.
Proof. reflexivity. Qed.
Lemma s_pingPongFlag_set_outputIntSequence x v : s_pingPongFlag (set_outputIntSequence x v) = s_pingPongFlag x.
Proof. reflexivity. Qed.
Lemma s_beats_set_outputSequence x v : s_beats (set_outputSequence x v) = s_beats x.
Proof. reflexivity. Qed.
Lemma s_hits_set_outputSequence x v : s_hits (set_outputSequence x v) = s_hits x.
Proof. reflexivity. Qed.
Lemma s_thisOffset_set_outputSequence x v : s_thisOffset (set_outputSequence x v) = s_thisOffset x.
Proof. reflexivity. Qed.
Lemma s_outputSequence_set_outputSequence x v : s_outputSequence (set_outputSequence x v) = v.
Proof. reflexivity. Qed.
Lemma s_outputIntSequence_set_outputSequence x v : s_outputIntSequence (set_outputSequence x v) = s_outputIntSequence x.
Proof. reflexivity. Qed.
Lemma s_Sequence_set_outputSequence x v : s_Sequence (set_outputSequence x v) = s_Sequence x.
Proof. reflexivity. Qed.
Lemma s_lastElement_set_outputSequence x v : s_lastElement (set_outputSequence x v) = s_lastElement x.
Proof. reflexivity. Qed.
Lemma s_pingPongFlag_set_outputSequence x v : s_pingPongFlag (set_outputSequence x v) = s_pingPongFlag x.
Proof. reflexivity. Qed.
Lemma s_beats_set_lastElement x v : s_beats (set_lastElement x v) = s_beats x.
Proof. reflexivity. Qed.
Lemma s_hits_set_lastElement x v : s_hits (set_lastElement x v) = s_hits x.
Proof. reflexivity. Qed.
Lemma s_thisOffset_set_lastElement x v : s_thisOffset (set_lastElement x v) = s_thisOffset x.
Proof. reflexivity. Qed.
Lemma s_outputSequence_set_lastElement x v : s_outputSequence (set_lastElement x v) = s_outputSequence x.
Proof. reflexivity. Qed.
Lemma s_outputIntSequence_set_lastElement x v : s_outputIntSequence (set_lastElement x v) = s_outputIntSequence x.
Proof. reflexivity. Qed.
Lemma s_Sequence_set_lastElement x v : s_Sequence (set_lastElement x v) = s_Sequence x.
Proof. reflexivity. Qed.
Lemma s_lastElement_set_lastElement x v : s_lastElement (set_lastElement x v) = v.
Proof. reflexivity. Qed.
Lemma s_pingPongFlag_set_lastElement x v : s_pingPongFlag (set_lastElement x v) = s_pingPongFlag x.
Proof. reflexivity. Qed.
Lemma s_beats_set_Sequence x v : s_beats (set_Sequence x v) = s_beats x.
Proof. reflexivity. Qed.
Lemma s_hits_set_Sequence x v : s_hits (set_Sequence x v) = s_hits x.
Proof. reflexivity. Qed.
Lemma s_thisOffset_set_Sequence x v : s_thisOffset (set_Sequence x v) = s_thisOffset x.
Proof. reflexivity. Qed.
Lemma s_outputSequence_set_Sequence x v : s_outputSequence (set_Sequence x v) = s_outputSequence x.
Proof. reflexivity. Qed.
Lemma s_outputIntSequence_set_Sequence x v : s_outputIntSequence (set_Sequence x v) = s_outputIntSequence x.
Proof. reflexivity. Qed.
Lemma s_Sequence_set_Sequence x v : s_Sequence (set_Sequence x v) = v.
Proof. reflexivity. Qed.
Lemma s_lastElement_set_Sequence x v : s_lastElement (set_Sequence x v) = s_lastElement x.
Proof. reflexivity. Qed.
Lemma s_pingPongFlag_set_Sequence x v : s_pingPongFlag (set_Sequence x v) = s_pingPongFlag x.
Proof. reflexivity. Qed.
#[export] Hint Rewrite s_beats_set_outputIntSequence s_hits_set_outputIntSequence s_thisOffset_set_outputIntSequence s_outputSequence_set_outputIntSequence s_outputIntSequence_set_outputIntSequence s_Sequence_set_outputIntSequence s_lastElement_set_outputIntSequence s_pingPongFlag_set_outputIntSequence s_beats_set_outputSequence s_hits_set_outputSequence s_thisOffset_set_outputSequence s_outputSequence_set_outputSequence s_outputIntSequence_set_outputSequence s_Sequence_set_outputSequence s_lastElement_set_outputSequence s_pingPongFlag_set_outputSequence s_beats_set_lastElement s_hits_set_lastElement s_thisOffset_set_lastElement s_outputSequence_set_lastElement s_outputIntSequence_set_lastElement s_Sequence_set_lastElement s_lastElement_set_lastElement s_pingPongFlag_set_lastElement s_beats_set_Sequence s_hits_set_Sequence s_thisOffset_set_Sequence s_outputSequence_set_Sequence s_outputIntSequence_set_Sequence s_Sequence_set_Sequence s_lastElement_set_Sequence s_pingPongFlag_set_Sequence : euclid_rw.

(** Reduce field reads of setters to the stored values. *)
Ltac simpl_fields :=
  cbn [s_beats s_hits s_thisOffset s_outputSequence s_outputIntSequence s_Sequence
       s_lastElement s_pingPongFlag set_beats set_hits set_thisOffset set_outputSequence
       set_outputIntSequence set_Sequence set_lastElement set_pingPongFlag] in *.

(** Array accesses through the object, as [x->s_Sequence[i]] etc. *)
Definition row_get (x : t_euclid) (i : Z) : res string :=
  arr_get "s_Sequence" SEQ_ROWS EmptyString (s_Sequence x) i.
Definition row_set (x : t_euclid) (i : Z) (s : string) : res t_euclid :=
  rows ← arr_set "s_Sequence" SEQ_ROWS (s_Sequence x) i s;
  Ok (set_Sequence x rows).
Definition out_get (x : t_euclid) (i : Z) : res Z :=
  arr_get "s_outputIntSequence" OUTINT_CAP 0 (s_outputIntSequence x) i.
Definition out_set (x : t_euclid) (i : Z) (v : Z) : res t_euclid :=
  outs ← arr_set "s_outputIntSequence" OUTINT_CAP (s_outputIntSequence x) i v;
  Ok (set_outputIntSequence x outs).

(** [euclid_new] (lines 99-119).  [object_alloc] hands out zero-filled
    memory, so the fields the constructor does not set (the rows, the
    integer output and [s_pingPongFlag]) start at zero; this is also what
    makes ping-pong "off by default" (line 88). *)
Definition euclid_new : t_euclid :=
  {| s_ob := tt;
     s_hits := 0;
     s_beats := 0;
     s_thisOffset := 0;
     s_lastElement := 0;
     s_outputSequence := buf_strcpy (replicate 64 NUL) "0";
     s_outputIntSequence := replicate 128 0;
     s_Sequence := replicate 64 EmptyString;
     s_pingPongFlag := 0;
     s_outlet1 := tt |}.

(** A concrete object: 8 beats, 3 hits, the pattern "10010100" in its
    buffer and its integers, all rows empty. *)
Definition sample_state : t_euclid :=
  {| s_ob := tt;
     s_hits := 3;
     s_beats := 8;
     s_thisOffset := 0;
     s_lastElement := 7;
     s_outputSequence := buf_strcpy (replicate 64 NUL) "10010100";
     s_outputIntSequence := [1; 0; 0; 1; 0; 1; 0; 0] ++ replicate 120 0;
     s_Sequence := replicate 64 EmptyString;
     s_pingPongFlag := 0;
     s_outlet1 := tt |}.

(** The shape of the object: every array at its C length. *)
Definition shape_ok (x : t_euclid) : Prop :=
  length (s_Sequence x) = 64%nat /\
  length (s_outputIntSequence x) = 128%nat /\
  (64 <= length (s_outputSequence x))%nat.

Lemma out_set_in x i v :
  0 <= i < OUTINT_CAP ->
  out_set x i v = Ok (set_outputIntSequence x (<[Z.to_nat i := v]> (s_outputIntSequence x))).
Proof. intros H. unfold out_set. by rewrite arr_set_in. Qed.

Lemma out_get_in x i :
  0 <= i < OUTINT_CAP -> out_get x i = Ok (nth (Z.to_nat i) (s_outputIntSequence x) 0).
Proof. intros H. unfold out_get. by rewrite arr_get_in. Qed.

Lemma set_outputIntSequence_twice x a b :
  set_outputIntSequence (set_outputIntSequence x a) b = set_outputIntSequence x b.
Proof. reflexivity. Qed.

#[export] Hint Rewrite out_set_in out_get_in using (unfold OUTINT_CAP; lia) : euclid_rw.
#[export] Hint Rewrite set_outputIntSequence_twice : euclid_rw.

Lemma row_get_not_fuel x i : not_fuel (row_get x i).
Proof. apply arr_get_not_fuel. Qed.
Lemma row_set_not_fuel x i s : not_fuel (row_set x i s).
Proof. unfold row_set. not_fuel_auto. Qed.
Lemma out_get_not_fuel x i : not_fuel (out_get x i).
Proof. apply arr_get_not_fuel. Qed.
Lemma out_set_not_fuel x i v : not_fuel (out_set x i v).
Proof. unfold out_set. not_fuel_auto. Qed.
#[export] Hint Resolve row_get_not_fuel row_set_not_fuel out_get_not_fuel out_set_not_fuel : euclid.

Lemma shape_ok_set_outputIntSequence_len x v :
  shape_ok x -> length v = 128%nat -> shape_ok (set_outputIntSequence x v).
Proof. intros (? & ? & ?) ?. by repeat split. Qed.

(** ** Properties the primitive writes keep

    The routines after the inlets change the object only through
    [out_set], [row_set], [set_outputSequence] with a buffer at least as
    long, and [set_lastElement].  A property closed under these four
    writes holds after every routine (Distributor.v, PostProcess.v,
    Handlers.v prove it once for all such properties). *)
Class WriteClosed (P : t_euclid -> Prop) := {
  wc_out_set x i v y : P x -> out_set x i v = Ok y -> P y;
  wc_row_set x i r y : P x -> row_set x i r = Ok y -> P y;
  wc_set_outputSequence x b :
    P x -> (length (s_outputSequence x) <= length b)%nat -> P (set_outputSequence x b);
  wc_set_lastElement x L : P x -> P (set_lastElement x L)
}.


#[export] Instance shape_ok_closed : WriteClosed shape_ok.
Proof.
  split.
  - unfold out_set, arr_set. intros x i v y. case_decide; [|discriminate].
    intros (? & ? & ?) [= <-]. split_and!; simpl; rewrite ?length_insert; done.
  - unfold row_set, arr_set. intros x i r y. case_decide; [|discriminate].
    intros (? & ? & ?) [= <-]. split_and!; simpl; rewrite ?length_insert; done.
  - intros x b (? & ? & ?) ?. split_and!; simpl; lia.
  - done.
Qed.

(** The parameters the inlets and the attribute set. *)
Definition params (x : t_euclid) : Z * Z * Z * Z :=
  (s_hits x, s_beats x, s_thisOffset x, s_pingPongFlag x).

#[export] Instance params_closed (p : Z * Z * Z * Z) : WriteClosed (fun y => params y = p).
Proof.
  split.
  - unfold out_set. intros x i v y Hx (o & _ & [= <-])%res_bind_Ok. done.
  - unfold row_set. intros x i r y Hx (o & _ & [= <-])%res_bind_Ok. done.
  - done.
  - done.
Qed.
