(* ===== verification/Buckets.v ===== *)
(** * The distributor on a list of buckets

    The arithmetic of one round of [euclid] (euclid.c, lines 253-283) as
    pure functions, shared with the array model of [Distributor.v], and
    the whole recursive distributor re-expressed on the list of active
    buckets (rows [0 .. s_lastElement]), as the spec's design note 9
    suggests.  [distribute] returns [None] when the array code would fold
    a row that is not strictly after the row it extends (the only case the
    list representation cannot express) or when the fuel runs out;
    [Distributor.euclid_simulates] shows that whenever [distribute] returns
    [Some], the array code returns the same buckets.  The last sections
    decide, over every hits in [0, 64] and beats in [1, 64], that
    [distribute] does return, and how long its buckets get. *)
From Stdlib Require Import ZArith Lia Ascii String.
From stdpp Require Import base list strings decidable.
From S2P Require Import Prelude CRuntime.
Open Scope Z_scope.

(** ** One round's arithmetic *)

(** [zeroSets] (lines 255-276); [lastElement] is the current
    [x->s_lastElement]. *)
Definition zero_sets (hits beats remainder denominator lastElement : Z) : Z :=
  if beats >? hits * 2 then
    if negb (hits =? 0) then
      let zs := if denominator =? 0 then 1 else Z.quot remainder denominator in
      let zs := if zs >? lastElement then 0 else zs in
      if (zs =? 0) && (remainder >? 1) then 1 else zs
    else 0
  else 1.

(** [numberOfDistributions] (lines 279-283). *)
Definition number_of_distributions (remainder denominator : Z) : Z :=
  if remainder >? denominator then denominator else remainder.

(** ** Buckets as a list *)

(** The rows [euclid_prepare_sequence] writes (lines 221-229). *)
Definition initialize (hits beats : Z) : list string :=
  map (fun c => if c <? hits then "1"%string else "0"%string) (seqZ 0 beats).

(** The counting loop (lines 245-251): rows equal to the last one are
    the remainder, the others the denominator. *)
Fixpoint count_kinds_from (lst : string) (bs : list string) (rem den : Z) : Z * Z :=
  match bs with
  | [] => (rem, den)
  | b :: bs' =>
      if String.eqb b lst then count_kinds_from lst bs' (rem + 1) den
      else count_kinds_from lst bs' rem (den + 1)
  end.

Definition count_kinds (bs : list string) : Z * Z :=
  match bs !! pred (length bs) with
  | None => (0, 0)
  | Some lst => count_kinds_from lst bs 0 0
  end.

(** One iteration of the inner loop (lines 296-297): append the last
    bucket to bucket [c] and drop it. *)
Definition fold_tail (c : nat) (bs : list string) : option (list string) :=
  match bs !! pred (length bs) with
  | None => None
  | Some t =>
      if decide (c < length bs - 1)%nat
      then Some (<[c := String.append (nth c bs EmptyString) t]> (removelast bs))
      else None
  end.

Fixpoint fold_sub (zs c : nat) (bs : list string) : option (list string) :=
  match zs with
  | O => Some bs
  | S zs' => fold_tail c bs ≫= fold_sub zs' c
  end.

(** The two nested loops (lines 293-299). *)
Fixpoint fold_rounds (nd zs c : nat) (bs : list string) : option (list string) :=
  match nd with
  | O => Some bs
  | S nd' => fold_sub zs c bs ≫= fold_rounds nd' zs (S c)
  end.

(** The recursion (lines 234-303) on the active buckets: [Some bs] are the
    buckets whose concatenation the last call writes out. *)
Fixpoint distribute (fuel : nat) (hits beats : Z) (bs : list string)
    : option (list string) :=
  match fuel with
  | O => None
  | S fuel' =>
      let '(rem, den) := count_kinds bs in
      let zs := zero_sets hits beats rem den (Z.of_nat (length bs) - 1) in
      let nd := number_of_distributions rem den in
      if hits =? 0 then Some bs
      else fold_rounds (Z.to_nat nd) (Z.to_nat zs) 0 bs ≫= distribute fuel' (Z.rem beats hits) hits
  end.

(** The recursion passes [(beats % hits, hits)]: [|hits|] decreases at each
    call, so [|hits| + 1] calls suffice. *)
Definition euclid_fuel (hits : Z) : nat := S (Z.abs_nat hits).

Definition concat_buckets (bs : list string) : string := foldr String.append EmptyString bs.

(** The pattern of a run started by a fresh [int], [in1] or [in2] message:
    rows [0 .. beats - 1] active. *)
Definition pattern (hits beats : Z) : option string :=
  concat_buckets <$> distribute (euclid_fuel hits) hits beats (initialize hits beats).

(** ** Invariants of the list model *)

(** The characters of the buckets, in order. *)
Definition chars (bs : list string) : list ascii := list_ascii_of_string (concat_buckets bs).

Lemma chars_cons s bs : chars (s :: bs) = list_ascii_of_string s ++ chars bs.
Proof. unfold chars, concat_buckets. simpl. apply list_ascii_of_string_append. Qed.

Lemma chars_app bs1 bs2 : chars (bs1 ++ bs2) = chars bs1 ++ chars bs2.
Proof. induction bs1 as [|s bs1 IH]; simpl; [done|]. by rewrite !chars_cons, IH, app_assoc. Qed.

Lemma last_split (bs : list string) t :
  bs !! pred (length bs) = Some t -> bs = removelast bs ++ [t].
Proof.
  intros Ht. rewrite removelast_firstn_len.
  rewrite <- (take_drop (pred (length bs)) bs) at 1. f_equal.
  rewrite (drop_S _ t) by done. rewrite drop_ge by lia. done.
Qed.

(** Every bucket is a string of '0' and '1'. *)
Definition bits_ok (bs : list string) : Prop := Forall (fun s => bit_string s = true) bs.

Lemma bit_string_append a b :
  bit_string (String.append a b) = bit_string a && bit_string b.
Proof. unfold bit_string. by rewrite list_ascii_of_string_append, forallb_app. Qed.

Lemma fold_tail_some c bs bs' :
  fold_tail c bs = Some bs' ->
  exists t, bs = removelast bs ++ [t] /\ (c < length (removelast bs))%nat /\
    bs' = <[c := String.append (nth c (removelast bs) EmptyString) t]> (removelast bs).
Proof.
  unfold fold_tail. destruct (bs !! pred (length bs)) as [t|] eqn:Ht; [|discriminate].
  case_decide as Hc; [|discriminate]. intros [= <-]. exists t.
  pose proof (last_split bs t Ht) as Hs.
  assert (Hl : length (removelast bs) = (length bs - 1)%nat).
  { rewrite Hs at 2. rewrite length_app. simpl. lia. }
  split; [done|]. split; [lia|]. f_equal. f_equal.
  rewrite Hs at 1. rewrite app_nth1 by lia. done.
Qed.

Lemma fold_tail_bits c bs bs' : bits_ok bs -> fold_tail c bs = Some bs' -> bits_ok bs'.
Proof.
  intros Hb Hf. apply fold_tail_some in Hf as (t & Hs & Hc & ->).
  unfold bits_ok in *. rewrite Hs in Hb. apply Forall_app in Hb as [Hl Ht].
  apply Forall_insert; [done|]. rewrite bit_string_append. apply andb_true_iff. split.
  - apply (Forall_nth (fun s => bit_string s = true)); [done|lia].
  - by inversion Ht.
Qed.

(** Folding the last bucket into an earlier one only reorders characters. *)
Lemma fold_tail_perm c bs bs' : fold_tail c bs = Some bs' -> chars bs' ≡ₚ chars bs.
Proof.
  intros Hf. apply fold_tail_some in Hf as (t & Hs & Hc & ->).
  set (l := removelast bs) in *. rewrite Hs.
  rewrite insert_take_drop by done.
  assert (Hl : chars l = chars (take c l) ++ list_ascii_of_string (nth c l EmptyString)
                        ++ chars (drop (S c) l)).
  { rewrite <- (chars_cons (nth c l EmptyString)), <- chars_app.
    rewrite <- (drop_S l (nth c l EmptyString) c) by (apply lookup_nth; lia).
    by rewrite take_drop. }
  rewrite !chars_app, chars_cons, list_ascii_of_string_append, Hl.
  rewrite (chars_cons t []). change (chars []) with (@nil ascii). rewrite app_nil_r.
  rewrite <- !app_assoc. do 2 apply Permutation_app_head. apply Permutation_app_comm.
Qed.

(** The invariant of the distributor: the buckets are bit strings whose
    characters are a permutation of the initial ones. *)
Definition bucket_inv (ref : list ascii) (bs : list string) : Prop :=
  bits_ok bs /\ chars bs ≡ₚ ref.

Lemma fold_tail_inv ref c bs bs' :
  bucket_inv ref bs -> fold_tail c bs = Some bs' -> bucket_inv ref bs'.
Proof.
  intros [Hb Hp] Hf. split; [by eapply fold_tail_bits|].
  etrans; [by eapply fold_tail_perm|done].
Qed.

Lemma fold_sub_inv ref zs c bs bs' :
  bucket_inv ref bs -> fold_sub zs c bs = Some bs' -> bucket_inv ref bs'.
Proof.
  revert bs. induction zs as [|zs IH]; intros bs Hi Hf; simpl in Hf.
  - by injection Hf as <-.
  - apply bind_Some in Hf as (bs1 & H1 & H2). eauto using fold_tail_inv.
Qed.

Lemma fold_rounds_inv ref nd zs c bs bs' :
  bucket_inv ref bs -> fold_rounds nd zs c bs = Some bs' -> bucket_inv ref bs'.
Proof.
  revert c bs. induction nd as [|nd IH]; intros c bs Hi Hf; simpl in Hf.
  - by injection Hf as <-.
  - apply bind_Some in Hf as (bs1 & H1 & H2). eauto using fold_sub_inv.
Qed.

(** Every round of the recursion keeps the invariant: the buckets stay
    strings of '0' and '1' and no character is created or lost. *)
Theorem distribute_inv ref fuel hits beats bs bs' :
  bucket_inv ref bs -> distribute fuel hits beats bs = Some bs' -> bucket_inv ref bs'.
Proof.
  revert hits beats bs. induction fuel as [|fuel IH]; intros hits beats bs Hi Hd; simpl in Hd;
    [discriminate|].
  destruct (count_kinds bs) as [rem den]. destruct (hits =? 0).
  - by injection Hd as <-.
  - apply bind_Some in Hd as (bs1 & H1 & H2). eauto using fold_rounds_inv.
Qed.

(** ** The initial buckets *)

Lemma map_const_on {A B} (f : A -> B) (v : B) (l : list A) :
  Forall (fun a => f a = v) l -> map f l = replicate (length l) v.
Proof. induction 1 as [|a l Ha _ IH]; simpl; [done|]. by rewrite Ha, IH. Qed.

Lemma initialize_split h b :
  0 <= h <= b ->
  initialize h b = replicate (Z.to_nat h) "1"%string ++ replicate (Z.to_nat (b - h)) "0"%string.
Proof.
  intros Hh. unfold initialize. replace b with (h + (b - h)) at 1 by lia.
  rewrite seqZ_app, map_app by lia. f_equal.
  - rewrite (map_const_on _ "1"%string), length_seqZ; [done|].
    apply Forall_seqZ. intros c Hc. by rewrite (proj2 (Z.ltb_lt c h)) by lia.
  - rewrite (map_const_on _ "0"%string), length_seqZ; [done|].
    apply Forall_seqZ. intros c Hc. by rewrite (proj2 (Z.ltb_ge c h)) by lia.
Qed.

Lemma chars_replicate n (s : string) :
  chars (replicate n s) = concat (replicate n (list_ascii_of_string s)).
Proof. induction n as [|n IH]; simpl; [done|]. by rewrite chars_cons, IH. Qed.

Lemma concat_replicate_char n (c : ascii) : concat (replicate n [c]) = replicate n c.
Proof. induction n as [|n IH]; simpl; [done|]. by rewrite IH. Qed.

Lemma chars_initialize h b :
  0 <= h <= b ->
  chars (initialize h b) = replicate (Z.to_nat h) ch1 ++ replicate (Z.to_nat (b - h)) ch0.
Proof.
  intros Hh. rewrite initialize_split, chars_app, !chars_replicate by done.
  simpl. by rewrite !concat_replicate_char.
Qed.

Lemma initialize_bits h b : bits_ok (initialize h b).
Proof.
  unfold bits_ok, initialize. apply Forall_forall. intros s Hs.
  apply in_map_iff in Hs as (c & <- & _). by destruct (c <? h).
Qed.

Lemma length_initialize h b : length (initialize h b) = Z.to_nat b.
Proof. unfold initialize. by rewrite length_map, length_seqZ. Qed.

(** Rows [c < hits] are "1": with [hits > beats] all of them are. *)
Lemma initialize_min h b : initialize h b = initialize (Z.min h b) b.
Proof.
  unfold initialize. apply map_ext_in. intros c Hc.
  apply list_elem_of_In, elem_of_seqZ in Hc.
  destruct (Z.ltb_spec c h), (Z.ltb_spec c (Z.min h b)); done || lia.
Qed.

(** Conservation: whenever the distributor returns, its pattern is a
    string of '0' and '1' that rearranges [min hits beats] '1's and the
    rest '0's. *)
Lemma pattern_chars h b s :
  0 <= h -> 0 <= b -> pattern h b = Some s ->
  bit_string s = true /\ list_ascii_of_string s ≡ₚ
    replicate (Z.to_nat (Z.min h b)) ch1 ++ replicate (Z.to_nat (b - Z.min h b)) ch0.
Proof.
  intros Hh Hb0 Hp. unfold pattern in Hp. apply fmap_Some in Hp as (bs & Hd & ->).
  rewrite <- chars_initialize by lia. rewrite <- initialize_min.
  destruct (distribute_inv (chars (initialize h b)) _ _ _ _ _
              (conj (initialize_bits h b) (reflexivity _)) Hd) as [Hbits Hp].
  split; [|done]. clear Hp Hd. induction Hbits as [|s bs Hs _ IH]; [done|].
  unfold concat_buckets. simpl. by rewrite bit_string_append, Hs.
Qed.

(** C2: For non-negative hits and beats, the pattern the bucket initializer
    and the distributor compute is made of '0' and '1' only and is a
    permutation of min(hits, beats) ones and the remaining beats zeros. *)
Theorem pattern_conserves h b s :
  0 <= h -> 0 <= b -> pattern h b = Some s ->
  bit_string s = true /\ list_ascii_of_string s ≡ₚ
    replicate (Z.to_nat (Z.min h b)) ch1 ++ replicate (Z.to_nat (b - Z.min h b)) ch0.
Proof. apply pattern_chars. Qed.

Corollary length_pattern h b s :
  0 <= h -> 0 <= b -> pattern h b = Some s -> String.length s = Z.to_nat b.
Proof.
  intros Hh Hb Hp. destruct (pattern_chars h b s Hh Hb Hp) as [_ Hperm].
  apply Permutation_length in Hperm.
  rewrite length_list_ascii_of_string, length_app, !length_replicate in Hperm. lia.
Qed.

(** The tresillo run: 3 hits in 8 beats. *)
Lemma pattern_conserves_witness :
  bit_string "10010100" = true /\
  list_ascii_of_string "10010100" ≡ₚ
    replicate (Z.to_nat (Z.min 3 8)) ch1 ++ replicate (Z.to_nat (8 - Z.min 3 8)) ch0.
Proof. apply (pattern_conserves 3 8 "10010100"); [lia | lia | vm_compute; reflexivity]. Defined.

(** ** Lengths of the buckets

    Each initial row is one character, and the distributor neither creates
    nor loses characters, so every bucket is at most as long as the number
    of rows it started from. *)
Lemma bucket_length_le s bs : In s bs -> (String.length s <= length (chars bs))%nat.
Proof.
  induction bs as [|s' bs IH]; [done|]. rewrite chars_cons, length_app, length_list_ascii_of_string.
  intros [->|Hs]; [lia|]. specialize (IH Hs). lia.
Qed.

Lemma length_chars_unit bs :
  Forall (fun s => String.length s = 1%nat) bs -> length (chars bs) = length bs.
Proof.
  induction 1 as [|s bs Hs _ IH]; [done|].
  rewrite chars_cons, length_app, length_list_ascii_of_string, Hs, IH. done.
Qed.

Lemma length_chars_take_initialize h b k :
  length (chars (take k (initialize h b))) = Nat.min k (Z.to_nat b).
Proof.
  rewrite length_chars_unit, length_take, length_initialize; [done|].
  apply Forall_take. unfold initialize. apply Forall_forall. intros s Hs.
  apply in_map_iff in Hs as (c & <- & _). by destruct (c <? h).
Qed.

(** The buckets a run leaves from the first [k] initial rows hold [min k
    beats] characters in all, none of them NUL. *)
Lemma distribute_chars fuel h b k bs :
  distribute fuel h b (take k (initialize h b)) = Some bs ->
  bits_ok bs /\ length (chars bs) = Nat.min k (Z.to_nat b).
Proof.
  intros Hd. destruct (distribute_inv (chars (take k (initialize h b))) _ _ _ _ _
    (conj (Forall_take _ _ _ (initialize_bits h b)) (reflexivity _)) Hd) as [Hbits Hp].
  split; [done|]. rewrite (Permutation_length Hp). apply length_chars_take_initialize.
Qed.

(** ** The distributor returns on every input *)

(** The tests are stated in full (not through an auxiliary constant) so
    that the kernel matches them syntactically instead of evaluating. *)
Lemma pattern_defined_test :
  for_all_params (fun _ => 64) (fun h b => is_some (pattern h b)) = true.
Proof. vm_compute. reflexivity. Qed.

(** For every clamped [hits] and [beats], the list model never leaves the
    regime of [Distributor.euclid_simulates]: the array code computes its
    buckets, with no fold onto a row at or past the last active one. *)
Lemma pattern_some h b :
  0 <= h <= 64 -> 1 <= b <= 64 -> exists s, pattern h b = Some s.
Proof.
  intros Hh Hb. apply is_some_true.
  exact (for_all_params_sound _ _ h b pattern_defined_test Hb Hh).
Qed.

(** C6: For every hits in [0, 64] and beats in [1, 64] the distributor returns
    a pattern: it never folds a bucket onto itself or onto a bucket past
    the active ones, and its recursion ends. *)
Theorem pattern_defined h b :
  0 <= h <= 64 -> 1 <= b <= 64 -> exists s, pattern h b = Some s.
Proof. apply pattern_some. Qed.

Lemma pattern_defined_witness : exists s, pattern 3 8 = Some s.
Proof. apply (pattern_defined 3 8); concrete. Defined.


Lemma pattern_test_some (hmax : Z -> Z) (P : Z -> Z -> string -> bool) h b s :
  for_all_params hmax (fun h b => match pattern h b with Some s => P h b s | None => false end) = true ->
  1 <= b <= 64 -> 0 <= h <= hmax b -> pattern h b = Some s -> P h b s = true.
Proof.
  intros Hall Hb Hh Hp. pose proof (for_all_params_sound _ _ h b Hall Hb Hh) as H.
  cbv beta in H. by rewrite Hp in H.
Qed.

(** ** Row capacity *)

(** A row of [char s_Sequence[64][64]] holds a bucket and its NUL only
    while the bucket has fewer than 64 characters. *)
Definition fits_row (s : string) : bool := (String.length s <? 64)%nat.

Lemma buckets_fit_test :
  for_all_params (fun _ => 64)
    (fun h b => match distribute (euclid_fuel h) h b (initialize h b) with
                | Some bs => forallb fits_row bs
                             || bool_decide ((h, b) = (1, 64)) || bool_decide ((h, b) = (63, 64))
                | None => false end) = true.
Proof. vm_compute. reflexivity. Qed.

(** C12: For every other hits in [0, 64] and beats in [1, 64], every bucket
    the distributor builds has fewer than 64 characters and fits a row of
    s_Sequence with its NUL. *)
Theorem buckets_fit_rows h b bs s :
  0 <= h <= 64 -> 1 <= b <= 64 -> (h, b) <> (1, 64) -> (h, b) <> (63, 64) ->
  distribute (euclid_fuel h) h b (initialize h b) = Some bs -> s ∈ bs ->
  (String.length s < 64)%nat.
Proof.
  intros Hh Hb H1 H63 Hd Hs.
  pose proof (for_all_params_sound _ _ h b buckets_fit_test Hb Hh) as H.
  cbv beta in H. rewrite Hd, (bool_decide_eq_false_2 _ H1), (bool_decide_eq_false_2 _ H63) in H.
  rewrite !orb_false_r, forallb_forall in H.
  apply list_elem_of_In, H in Hs. by apply Nat.ltb_lt.
Qed.

Lemma buckets_fit_rows_witness : (String.length "10010" < 64)%nat.
Proof. apply (buckets_fit_rows 3 8 ["10010"; "100"]); concrete. Defined.


(** For 1 hit or 63 hits in 64 beats the distributor builds a bucket of
    64 characters, whose NUL does not fit a 64-byte row of s_Sequence. *)
Theorem bucket_overflows_row :
  distribute (euclid_fuel 1) 1 64 (initialize 1 64) = Some [String.append "1" (string_of_list_ascii (replicate 63 ch0))] /\
  distribute (euclid_fuel 63) 63 64 (initialize 63 64) = Some [String.append "10" (string_of_list_ascii (replicate 62 ch1))] /\
  String.length (String.append "1" (string_of_list_ascii (replicate 63 ch0))) = 64%nat.
Proof. vm_compute. repeat split. Qed.
