(* ===== verification/Distributor.v ===== *)
(** * The C distributor: [euclid_prepare_sequence] and [euclid]

    The two routines on the object record, with the rows of [s_Sequence]
    indexed by [Z] and every index checked ([row_get], [row_set]), the
    active length kept in [s_lastElement] and decremented as the code does,
    and the output string appended to the byte buffer [s_outputSequence].
    The recursion of [euclid] runs on fuel; [euclid_not_fuel] shows that
    [euclid_fuel hits] is always enough.  [euclid_simulates] relates it to
    the list model [Buckets.distribute]. *)
From Stdlib Require Import ZArith Lia Ascii String.
From stdpp Require Import base list strings decidable.
From S2P Require Import Prelude CRuntime EuclidState Buckets.
Open Scope Z_scope.

(** ** [euclid_prepare_sequence] (lines 218-230) *)

Definition euclid_prepare_sequence (x : t_euclid) : res t_euclid :=
  let x := set_outputSequence x (buf_strcpy (s_outputSequence x) EmptyString) in
  for_loop (Z.to_nat (s_beats x)) 0
    (fun counter x =>
       x ← out_set x counter 0;
       row_set x counter (if counter <? s_hits x then "1"%string else "0"%string))
    x.

Lemma row_set_in x i s :
  0 <= i < SEQ_ROWS -> row_set x i s = Ok (set_Sequence x (<[Z.to_nat i := s]> (s_Sequence x))).
Proof. intros. unfold row_set. by rewrite arr_set_in. Qed.

Lemma lookup_initialize h b k :
  (Z.of_nat k < b) -> initialize h b !! k = Some (if Z.of_nat k <? h then "1"%string else "0"%string).
Proof.
  intros Hk. unfold initialize. rewrite list_lookup_fmap, lookup_seqZ_lt by done. done.
Qed.

(** The rows [0 .. beats - 1] hold the initial buckets and the first
    [beats] integers are zero; the rest of the arrays is untouched. *)
Lemma prepare_splice x :
  shape_ok x -> 0 <= s_beats x <= 64 ->
  euclid_prepare_sequence x =
  Ok (set_Sequence
        (set_outputIntSequence (set_outputSequence x (buf_strcpy (s_outputSequence x) EmptyString))
           ((s_outputIntSequence x).[0 ↦ replicate (Z.to_nat (s_beats x)) 0]))
        ((s_Sequence x).[0 ↦ initialize (s_hits x) (s_beats x)])).
Proof.
  intros (Hr & Ho & Hs) Hb. unfold euclid_prepare_sequence.
  set (x0 := set_outputSequence x (buf_strcpy (s_outputSequence x) EmptyString)).
  set (init := initialize (s_hits x) (s_beats x)).
  assert (Hinit : length init = Z.to_nat (s_beats x)) by apply length_initialize.
  for_inv (fun k y => 0 <= k /\ y = set_Sequence
        (set_outputIntSequence x0 (splice (s_outputIntSequence x) 0 (replicate (Z.to_nat k) 0)))
        (splice (s_Sequence x) 0 (take (Z.to_nat k) init))).
  { split; [lia|]. change (Z.to_nat 0) with 0%nat. change (replicate 0 0) with (@nil Z).
    rewrite take_0, !splice_nil by lia. by destruct x. }
  { intros k y Hk [_ ->]. rewrite out_set_in by (unfold OUTINT_CAP; simpl in *; lia).
    rewrite res_bind_ok_l. rewrite row_set_in by (unfold SEQ_ROWS; simpl in *; lia).
    eexists. split; [reflexivity|]. split; [lia|]. autorewrite with euclid_rw.
    simpl in Hk. replace (Z.to_nat (k + 1)) with (S (Z.to_nat k)) by lia.
    rewrite (take_S_r init _ (if k <? s_hits x then "1"%string else "0"%string)).
    2:{ rewrite <- (Z2Nat.id k) at 2 by lia. apply lookup_initialize. lia. }
    pose proof (splice_snoc (s_outputIntSequence x) 0 (replicate (Z.to_nat k) 0) 0) as H1.
    pose proof (splice_snoc (s_Sequence x) 0 (take (Z.to_nat k) init)
                  (if k <? s_hits x then "1"%string else "0"%string)) as H2.
    rewrite length_replicate, Nat.add_0_l in H1. rewrite length_take, Nat.min_l, Nat.add_0_l in H2 by lia.
    change (s_hits x0) with (s_hits x). rewrite H1, H2, replicate_S_end by lia. reflexivity. }
  destruct HI as [_ ->]. change (s_beats x0) with (s_beats x).
  rewrite Z.add_0_l, Nat2Z.id, take_ge by lia. reflexivity.
Qed.

(** C17: For 0 to 64 beats, euclid_prepare_sequence empties the buffer, zeroes
    the first beats integers, and writes "1" into the first hits rows and
    "0" into the other rows below beats. *)
Theorem prepare_spec x :
  shape_ok x -> 0 <= s_beats x <= 64 ->
  euclid_prepare_sequence x =
  Ok (set_Sequence
        (set_outputIntSequence (set_outputSequence x (buf_strcpy (s_outputSequence x) EmptyString))
           ((s_outputIntSequence x).[0 ↦ replicate (Z.to_nat (s_beats x)) 0]))
        ((s_Sequence x).[0 ↦ initialize (s_hits x) (s_beats x)])).
Proof. apply prepare_splice. Qed.

Lemma prepare_spec_witness :
  euclid_prepare_sequence sample_state =
  Ok (set_Sequence
        (set_outputIntSequence (set_outputSequence sample_state
           (buf_strcpy (s_outputSequence sample_state) EmptyString))
           ((s_outputIntSequence sample_state).[0 ↦ replicate 8 0]))
        ((s_Sequence sample_state).[0 ↦ initialize 3 8])).
Proof. apply (prepare_spec sample_state); concrete. Defined.

(** ** [euclid] (lines 234-303) *)

(** Lines 245-251. *)
Fixpoint count_loop (n : nat) (counter rem den : Z) (x : t_euclid) : res (Z * Z) :=
  match n with
  | O => Ok (rem, den)
  | S n' =>
      a ← row_get x counter;
      l ← row_get x (s_lastElement x);
      if String.eqb a l then count_loop n' (counter + 1) (rem + 1) den x
      else count_loop n' (counter + 1) rem (den + 1) x
  end.

(** [strcat (x->s_Sequence[dst], x->s_Sequence[src])]; source and
    destination must not overlap. *)
Definition strcat_rows (x : t_euclid) (dst src : Z) : res t_euclid :=
  if dst =? src then Err (OverlappingStrcat dst)
  else d ← row_get x dst; s ← row_get x src; row_set x dst (String.append d s).

(** Lines 294-298. *)
Fixpoint distribute_sub (m : nat) (counter : Z) (x : t_euclid) : res t_euclid :=
  match m with
  | O => Ok x
  | S m' =>
      x ← strcat_rows x counter (s_lastElement x);
      distribute_sub m' counter (set_lastElement x (s_lastElement x - 1))
  end.

(** Lines 293-299. *)
Fixpoint distribute_loop (n zs : nat) (counter : Z) (x : t_euclid) : res t_euclid :=
  match n with
  | O => Ok x
  | S n' => x ← distribute_sub zs counter x; distribute_loop n' zs (counter + 1) x
  end.

(** Lines 287-290. *)
Fixpoint concat_loop (n : nat) (counter : Z) (x : t_euclid) : res t_euclid :=
  match n with
  | O => Ok x
  | S n' =>
      r ← row_get x counter;
      concat_loop n' (counter + 1) (set_outputSequence x (buf_strcat (s_outputSequence x) r))
  end.

Fixpoint euclid (fuel : nat) (hits beats : Z) (x : t_euclid) : res t_euclid :=
  match fuel with
  | O => Err OutOfFuel
  | S fuel' =>
      '(rem, den) ← count_loop (Z.to_nat (s_lastElement x + 1)) 0 0 0 x;
      let zs := zero_sets hits beats rem den (s_lastElement x) in
      let nd := number_of_distributions rem den in
      if hits =? 0 then concat_loop (Z.to_nat (s_lastElement x + 1)) 0 x
      else
        x ← distribute_loop (Z.to_nat nd) (Z.to_nat zs) 0 x;
        euclid fuel' (Z.rem beats hits) hits x
  end.

(** ** The array and the list of active buckets *)

(** Rows [0 .. s_lastElement] are the buckets still in play. *)
Definition active (x : t_euclid) : list string :=
  take (Z.to_nat (s_lastElement x + 1)) (s_Sequence x).

Definition rows_ok (x : t_euclid) : Prop :=
  length (s_Sequence x) = 64%nat /\ -1 <= s_lastElement x < 64.

(** The fields the distributor never writes. *)
Definition frame (x : t_euclid) : Z * Z * Z * list Z * Z :=
  (s_beats x, s_hits x, s_thisOffset x, s_outputIntSequence x, s_pingPongFlag x).

Lemma length_active x : rows_ok x -> length (active x) = Z.to_nat (s_lastElement x + 1).
Proof. intros [Hl HL]. unfold active. rewrite length_take. lia. Qed.

Lemma row_get_active x i :
  rows_ok x -> 0 <= i <= s_lastElement x ->
  row_get x i = Ok (nth (Z.to_nat i) (active x) EmptyString).
Proof.
  intros [Hl HL] Hi. unfold row_get. rewrite arr_get_in by (unfold SEQ_ROWS; lia).
  unfold active. rewrite nth_firstn.
  replace (Z.to_nat i <? Z.to_nat (s_lastElement x + 1))%nat with true; [done|].
  symmetry. apply Nat.ltb_lt. lia.
Qed.

Lemma count_loop_active x n counter rem den :
  rows_ok x -> 0 <= counter -> counter + Z.of_nat n = s_lastElement x + 1 ->
  count_loop n counter rem den x =
  Ok (count_kinds_from (nth (Z.to_nat (s_lastElement x)) (active x) EmptyString)
        (drop (Z.to_nat counter) (active x)) rem den).
Proof.
  intros Hok. pose proof (length_active x Hok) as Hlen.
  revert counter rem den. induction n as [|n IH]; intros counter rem den H0 Hn; simpl.
  - rewrite drop_ge; [done | lia].
  - rewrite !row_get_active by (done || lia). simpl.
    rewrite (drop_S _ (nth (Z.to_nat counter) (active x) EmptyString))
      by (apply lookup_nth; lia).
    simpl. replace (S (Z.to_nat counter)) with (Z.to_nat (counter + 1)) by lia.
    destruct (String.eqb _ _); apply IH; lia.
Qed.

Lemma count_loop_kinds x :
  rows_ok x ->
  count_loop (Z.to_nat (s_lastElement x + 1)) 0 0 0 x = Ok (count_kinds (active x)).
Proof.
  intros Hok. pose proof (length_active x Hok) as Hlen. pose proof Hok as [Hl HL].
  destruct (decide (s_lastElement x = -1)) as [HL1|HL1].
  - rewrite HL1. unfold active. rewrite HL1. reflexivity.
  - rewrite count_loop_active by (done || lia). unfold count_kinds.
    rewrite (lookup_nth _ _ EmptyString) by lia. rewrite drop_0.
    do 3 f_equal. lia.
Qed.

(** One iteration of the inner loop, [strcat] then [s_lastElement--], is
    [fold_tail] on the active buckets. *)
Lemma fold_tail_sim x c bs' :
  rows_ok x -> fold_tail c (active x) = Some bs' ->
  exists y, strcat_rows x (Z.of_nat c) (s_lastElement x) = Ok y /\
    rows_ok (set_lastElement y (s_lastElement y - 1)) /\
    active (set_lastElement y (s_lastElement y - 1)) = bs' /\
    frame y = frame x /\ s_outputSequence y = s_outputSequence x.
Proof.
  intros Hok Hf. pose proof (length_active x Hok) as Hlen. pose proof Hok as [Hl HL].
  unfold fold_tail in Hf.
  destruct (active x !! pred (length (active x))) as [t|] eqn:Ht; [|discriminate].
  case_decide as Hc; [|discriminate]. injection Hf as <-.
  assert (Hc' : (Z.of_nat c < s_lastElement x)) by lia.
  assert (Htl : t = nth (Z.to_nat (s_lastElement x)) (active x) EmptyString).
  { apply (nth_lookup_Some _ _ EmptyString) in Ht. rewrite <- Ht. f_equal. lia. }
  unfold strcat_rows. rewrite (proj2 (Z.eqb_neq _ _)) by lia.
  rewrite !row_get_active by (done || lia). simpl.
  unfold row_set. rewrite arr_set_in by (unfold SEQ_ROWS; lia). simpl.
  eexists. split; [reflexivity|]. unfold rows_ok, active; simpl.
  rewrite length_insert. split; [lia|]. split; [|done].
  replace (Z.to_nat (s_lastElement x - 1 + 1)) with (Z.to_nat (s_lastElement x)) by lia.
  rewrite take_insert_lt by lia. rewrite Nat2Z.id, Htl.
  unfold active. replace (Z.to_nat (s_lastElement x + 1)) with (S (Z.to_nat (s_lastElement x))) by lia.
  rewrite removelast_firstn by lia. reflexivity.
Qed.

Lemma distribute_sub_sim zs c x bs' :
  rows_ok x -> fold_sub zs c (active x) = Some bs' ->
  exists y, distribute_sub zs (Z.of_nat c) x = Ok y /\ rows_ok y /\ active y = bs' /\
    frame y = frame x /\ s_outputSequence y = s_outputSequence x.
Proof.
  revert x. induction zs as [|zs IH]; intros x Hok Hf; simpl in *.
  - injection Hf as <-. exists x. done.
  - apply bind_Some in Hf as (bs1 & Ht & Hf).
    destruct (fold_tail_sim x c bs1 Hok Ht) as (y & -> & Hok' & Hact & Hfr & Hout).
    simpl. rewrite <- Hact in Hf.
    destruct (IH _ Hok' Hf) as (z & -> & ? & ? & Hfr' & Hout'). exists z.
    rewrite Hfr', Hout'. done.
Qed.

Lemma distribute_loop_sim nd zs c x bs' :
  rows_ok x -> fold_rounds nd zs c (active x) = Some bs' ->
  exists y, distribute_loop nd zs (Z.of_nat c) x = Ok y /\ rows_ok y /\ active y = bs' /\
    frame y = frame x /\ s_outputSequence y = s_outputSequence x.
Proof.
  revert c x. induction nd as [|nd IH]; intros c x Hok Hf; simpl in *.
  - injection Hf as <-. exists x. done.
  - apply bind_Some in Hf as (bs1 & Hs & Hf).
    destruct (distribute_sub_sim zs c x bs1 Hok Hs) as (y & -> & Hok' & Hact & Hfr & Hout).
    simpl. rewrite <- Hact in Hf.
    destruct (IH _ _ Hok' Hf) as (z & Hz & ? & ? & Hfr' & Hout').
    exists z. replace (Z.of_nat c + 1) with (Z.of_nat (S c)) by lia.
    rewrite Hz, Hfr', Hout'. done.
Qed.

Lemma concat_loop_active x n counter :
  rows_ok x -> 0 <= counter -> counter + Z.of_nat n = s_lastElement x + 1 ->
  concat_loop n counter x =
  Ok (set_outputSequence x
        (foldl buf_strcat (s_outputSequence x) (drop (Z.to_nat counter) (active x)))).
Proof.
  intros Hok. pose proof (length_active x Hok) as Hlen.
  revert counter x Hok Hlen. induction n as [|n IH]; intros counter x Hok Hlen H0 Hn; simpl.
  - rewrite drop_ge by lia. destruct x; reflexivity.
  - rewrite row_get_active by (done || lia). simpl.
    rewrite IH by (done || simpl; lia).
    rewrite (drop_S (active x) (nth (Z.to_nat counter) (active x) EmptyString) (Z.to_nat counter))
      by (apply lookup_nth; lia).
    simpl. replace (S (Z.to_nat counter)) with (Z.to_nat (counter + 1)) by lia.
    reflexivity.
Qed.

Lemma length_active_pred x :
  rows_ok x -> Z.of_nat (length (active x)) - 1 = s_lastElement x.
Proof. intros Hok. rewrite length_active by done. destruct Hok. lia. Qed.

(** ** Refinement: the array code computes what the list model computes *)

(** Whenever the list model
    [distribute] succeeds on the active rows, [euclid] succeeds with the
    same buckets, appends their concatenation to [s_outputSequence], and
    writes no other field. *)
Lemma euclid_simulates fuel hits beats x bs :
  rows_ok x -> distribute fuel hits beats (active x) = Some bs ->
  exists y, euclid fuel hits beats x = Ok y /\ rows_ok y /\ active y = bs /\
    frame y = frame x /\
    s_outputSequence y = foldl buf_strcat (s_outputSequence x) bs.
Proof.
  revert hits beats x. induction fuel as [|fuel IH]; intros hits beats x Hok Hd;
    [discriminate|].
  simpl in Hd |- *. rewrite count_loop_kinds by done. simpl.
  rewrite length_active_pred in Hd by done.
  destruct (count_kinds (active x)) as [rem den].
  destruct (hits =? 0).
  - injection Hd as <-. pose proof Hok as [_ HL].
    rewrite concat_loop_active by (done || lia).
    eexists. split; [reflexivity|]. repeat split; try apply Hok. 
  - apply bind_Some in Hd as (bs1 & Hr & Hd).
    replace 0%nat with (Z.to_nat (Z.of_nat 0)) in Hr by reflexivity.
    destruct (distribute_loop_sim _ _ 0 x bs1 Hok Hr) as (y & Hy & Hok' & Hact & Hfr & Hout).
    change (Z.of_nat 0) with 0 in Hy. rewrite Hy. simpl. rewrite <- Hact in Hd.
    destruct (IH _ _ _ Hok' Hd) as (z & Hz & ? & ? & Hfr' & Hout').
    exists z. rewrite Hfr', Hout', Hout. done.
Qed.

(** C1: On an object with 64 rows and s_lastElement in [-1, 63], whenever the
    list model distribute returns the buckets bs for the active rows, the
    C routine euclid returns normally, leaves exactly bs as its active
    rows, changes no field but the rows, s_lastElement and the buffer, and
    appends the buckets to s_outputSequence in order. *)
Theorem euclid_refines fuel hits beats x bs :
  rows_ok x -> distribute fuel hits beats (active x) = Some bs ->
  exists y, euclid fuel hits beats x = Ok y /\ rows_ok y /\ active y = bs /\
    frame y = frame x /\
    s_outputSequence y = foldl buf_strcat (s_outputSequence x) bs.
Proof. apply euclid_simulates. Qed.

Lemma euclid_refines_witness :
  exists y, euclid (euclid_fuel 3) 3 8 (set_Sequence sample_state (initialize 3 8 ++ replicate 56 EmptyString)) = Ok y /\
    rows_ok y /\ active y = ["10010"; "100"] /\
    frame y = frame sample_state /\
    s_outputSequence y = foldl buf_strcat (s_outputSequence sample_state) ["10010"; "100"].
Proof.
  apply (euclid_refines (euclid_fuel 3) 3 8
           (set_Sequence sample_state (initialize 3 8 ++ replicate 56 EmptyString))); concrete.
Defined.

(** ** Termination of the recursion *)

Lemma count_loop_not_fuel n counter rem den x : not_fuel (count_loop n counter rem den x).
Proof. revert counter rem den. induction n; intros; simpl; not_fuel_auto. Qed.

Lemma strcat_rows_not_fuel x dst src : not_fuel (strcat_rows x dst src).
Proof. unfold strcat_rows. not_fuel_auto. Qed.
#[export] Hint Resolve strcat_rows_not_fuel : euclid.

Lemma distribute_sub_not_fuel m counter x : not_fuel (distribute_sub m counter x).
Proof. revert x. induction m; intros; simpl; not_fuel_auto. Qed.
#[export] Hint Resolve distribute_sub_not_fuel : euclid.

Lemma distribute_loop_not_fuel n zs counter x : not_fuel (distribute_loop n zs counter x).
Proof. revert counter x. induction n; intros; simpl; not_fuel_auto. Qed.

Lemma concat_loop_not_fuel n counter x : not_fuel (concat_loop n counter x).
Proof. revert counter x. induction n; intros; simpl; not_fuel_auto. Qed.
#[export] Hint Resolve count_loop_not_fuel distribute_loop_not_fuel concat_loop_not_fuel : euclid.

Lemma rem_abs_nat_lt beats hits :
  hits <> 0 -> (Z.abs_nat (Z.rem beats hits) < Z.abs_nat hits)%nat.
Proof. intros H. pose proof (Z.rem_bound_abs beats hits H). lia. Qed.

(** C7: The recursion of euclid ends within |hits| + 1 calls: given more than
    |hits| levels it never runs out, whatever the state. *)
Lemma euclid_not_fuel fuel hits beats x :
  (Z.abs_nat hits < fuel)%nat -> not_fuel (euclid fuel hits beats x).
Proof.
  revert hits beats x. induction fuel as [|fuel IH]; intros hits beats x Hf; [lia|].
  simpl. apply not_fuel_bind; [eauto with euclid|]. intros [rem den].
  destruct (hits =? 0) eqn:E; [eauto with euclid|].
  apply Z.eqb_neq in E. apply not_fuel_bind; [eauto with euclid|]. intros y. apply IH.
  pose proof (rem_abs_nat_lt beats hits E). lia.
Qed.

Lemma euclid_not_fuel_witness : not_fuel (euclid 4 3 8 sample_state).
Proof. apply (euclid_not_fuel 4 3 8 sample_state). concrete. Defined.

(** ** The distributor's frame

    Every property closed under the primitive writes holds after the
    bucket initializer and the distributor; in particular the arrays keep
    their C lengths and the parameters are unchanged. *)
Section Frame.
Context (P : t_euclid -> Prop) `{!WriteClosed P}.

Lemma prepare_preserves x y : P x -> euclid_prepare_sequence x = Ok y -> P y.
Proof.
  intros Hx. apply for_loop_preserves.
  - intros k t t' Ht (t1 & H1 & H2)%res_bind_Ok. exact (wc_row_set _ _ _ _ (wc_out_set _ _ _ _ Ht H1) H2).
  - apply wc_set_outputSequence; [done|apply length_buf_strcpy].
Qed.

Lemma strcat_rows_preserves x dst src y : P x -> strcat_rows x dst src = Ok y -> P y.
Proof.
  unfold strcat_rows. destruct (dst =? src); [discriminate|].
  intros Hx (a & _ & (b & _ & H)%res_bind_Ok)%res_bind_Ok. exact (wc_row_set _ _ _ _ Hx H).
Qed.

Lemma distribute_sub_preserves m counter x y :
  P x -> distribute_sub m counter x = Ok y -> P y.
Proof.
  revert x. induction m as [|m IH]; intros x Hx H; simpl in H; [by injection H as <-|].
  apply res_bind_Ok in H as (t & Ht & H).
  exact (IH _ (wc_set_lastElement _ _ (strcat_rows_preserves _ _ _ _ Hx Ht)) H).
Qed.

Lemma distribute_loop_preserves n zs counter x y :
  P x -> distribute_loop n zs counter x = Ok y -> P y.
Proof.
  revert counter x. induction n as [|n IH]; intros counter x Hx H; simpl in H; [by injection H as <-|].
  apply res_bind_Ok in H as (t & Ht & H). exact (IH _ _ (distribute_sub_preserves _ _ _ _ Hx Ht) H).
Qed.

Lemma concat_loop_preserves n counter x y :
  P x -> concat_loop n counter x = Ok y -> P y.
Proof.
  revert counter x. induction n as [|n IH]; intros counter x Hx H; simpl in H; [by injection H as <-|].
  apply res_bind_Ok in H as (r & _ & H).
  exact (IH _ _ (wc_set_outputSequence _ _ Hx (length_buf_strcat _ _)) H).
Qed.

Lemma euclid_preserves fuel hits beats x y :
  P x -> euclid fuel hits beats x = Ok y -> P y.
Proof.
  revert hits beats x. induction fuel as [|fuel IH]; intros hits beats x Hx H; simpl in H;
    [discriminate|].
  apply res_bind_Ok in H as ([rem den] & _ & H). destruct (hits =? 0).
  - exact (concat_loop_preserves _ _ _ _ Hx H).
  - apply res_bind_Ok in H as (t & Ht & H).
    exact (IH _ _ _ (distribute_loop_preserves _ _ _ _ _ Hx Ht) H).
Qed.
End Frame.
