(* ===== verification/PostProcess.v ===== *)
(** * After the distributor: string to integers, offset, ping-pong

    [euclid_sequence_string_to_int] (euclid.c, lines 307-316),
    [euclid_thisOffset] (lines 320-355) and [euclid_ping_pong]
    (lines 359-369), each on the object record, with every array access
    checked.  The local array [thisOffsetIntSequence[64]] of
    [euclid_thisOffset] starts indeterminate; it is modelled as zeros,
    which no read observes because the routine's first loop zeroes
    [0 .. beats - 1] and only those cells are read.  Each routine comes with
    its functional specification on lists: [bit_of] on the bytes,
    [rotate_right] for the offset, [l ++ rev l] for ping-pong. *)
From Stdlib Require Import ZArith Lia Ascii String.
From stdpp Require Import base list strings decidable.
From S2P Require Import Prelude CRuntime EuclidState.
Open Scope Z_scope.

(** ** [euclid_sequence_string_to_int] *)

Definition bit_of (c : ascii) : Z := if Ascii.eqb c ch1 then 1 else 0.

Definition euclid_sequence_string_to_int (x : t_euclid) : res t_euclid :=
  for_loop (Z.to_nat (s_beats x)) 0
    (fun counter x =>
       c ← arr_get "s_outputSequence" OUTSEQ_CAP NUL (s_outputSequence x) counter;
       out_set x counter (bit_of c))
    x.

(** ** [euclid_thisOffset] *)

(** The effective offset (lines 326-330): [%] only when the offset
    exceeds [beats]. *)
Definition working_offset (thisOffset beats : Z) : res Z :=
  if thisOffset >? beats then
    if beats =? 0 then Err DivisionByZero else Ok (Z.rem thisOffset beats)
  else Ok thisOffset.

Definition tmp_get (tmp : list Z) (i : Z) : res Z :=
  arr_get "thisOffsetIntSequence" 64 0 tmp i.
Definition tmp_set (tmp : list Z) (i v : Z) : res (list Z) :=
  arr_set "thisOffsetIntSequence" 64 tmp i v.

Definition euclid_thisOffset (x : t_euclid) (thisOffset : Z) : res t_euclid :=
  working ← working_offset thisOffset (s_beats x);
  let remainder := s_beats x - working in
  tmp ← for_loop (Z.to_nat (s_beats x)) 0 (fun c tmp => tmp_set tmp c 0) (replicate 64 0);
  tmp ← for_loop (Z.to_nat remainder) 0
          (fun c tmp => v ← out_get x c; tmp_set tmp (c + working) v) tmp;
  tmp ← for_loop (Z.to_nat working) 0
          (fun c tmp => v ← out_get x (c + remainder); tmp_set tmp c v) tmp;
  for_loop (Z.to_nat (s_beats x)) 0 (fun c x => v ← tmp_get tmp c; out_set x c v) x.

(** ** [euclid_ping_pong] *)

(** The loop carries [fwdCounter] as the loop index and [revCounter]
    beside the object. *)
Definition euclid_ping_pong (x : t_euclid) : res t_euclid :=
  '(x, _) ← for_loop (Z.to_nat (s_beats x)) (s_beats x)
              (fun fwd '(x, rev) => v ← out_get x (rev - 1); x ← out_set x fwd v; Ok (x, rev - 1))
              (x, s_beats x);
  Ok x.

(** ** Functional specifications *)

(** Right rotation by [w] of a list of length [b]: the last [w] elements
    first. *)
Definition rotate_right (w : nat) (l : list Z) : list Z :=
  drop (length l - w) l ++ take (length l - w) l.

Definition mirror (l : list Z) : list Z := l ++ reverse l.

Lemma length_rotate_right w l : length (rotate_right w l) = length l.
Proof. unfold rotate_right. rewrite length_app, length_drop, length_take. lia. Qed.

Lemma length_mirror l : length (mirror l) = (2 * length l)%nat.
Proof. unfold mirror. rewrite length_app, length_reverse. lia. Qed.

(** ** The routines meet their specifications *)

Lemma take_S_nth {A} (l : list A) (k : nat) (d : A) :
  (k < length l)%nat -> take (S k) l = take k l ++ [nth k l d].
Proof. intros H. apply take_S_r. by apply lookup_nth. Qed.



Lemma string_to_int_splice x :
  shape_ok x -> 0 <= s_beats x <= 64 ->
  euclid_sequence_string_to_int x =
  Ok (set_outputIntSequence x
        ((s_outputIntSequence x).[0 ↦ map bit_of (take (Z.to_nat (s_beats x)) (s_outputSequence x))])).
Proof.
  intros (Hr & Ho & Hs) Hb. unfold euclid_sequence_string_to_int.
  for_inv (fun k y => 0 <= k /\ y = set_outputIntSequence x
        (splice (s_outputIntSequence x) 0 (map bit_of (take (Z.to_nat k) (s_outputSequence x))))).
  - split; [lia|]. simpl. rewrite splice_nil by lia. by destruct x.
  - intros k y Hk [_ ->]. unfold arr_get, OUTSEQ_CAP. rewrite decide_True by lia. simpl.
    autorewrite with euclid_rw. eexists. split; [reflexivity|]. split; [lia|].
    do 2 f_equal. pose proof (splice_snoc (s_outputIntSequence x) 0
      (map bit_of (take (Z.to_nat k) (s_outputSequence x))) (bit_of (nth (Z.to_nat k) (s_outputSequence x) NUL))) as Hsn.
    rewrite length_map, length_take, Nat.min_l in Hsn by lia.
    rewrite Nat.add_0_l in Hsn. autorewrite with euclid_rw. rewrite Hsn by lia. f_equal.
    replace (Z.to_nat (k + 1)) with (S (Z.to_nat k)) by lia.
    rewrite (take_S_nth _ _ NUL) by lia. by rewrite map_app.
  - destruct HI as [_ ->]. by rewrite Z.add_0_l, Z2Nat.id by lia.
Qed.

(** C16: For 0 to 64 beats, euclid_sequence_string_to_int sets the first beats
    integers to 1 for each '1' byte of the buffer and 0 for any other
    byte, the NUL and the stale bytes after it included. *)
Theorem string_to_int_spec x :
  shape_ok x -> 0 <= s_beats x <= 64 ->
  euclid_sequence_string_to_int x =
  Ok (set_outputIntSequence x
        ((s_outputIntSequence x).[0 ↦ map bit_of (take (Z.to_nat (s_beats x)) (s_outputSequence x))])).
Proof. apply string_to_int_splice. Qed.

Lemma string_to_int_spec_witness :
  euclid_sequence_string_to_int sample_state =
  Ok (set_outputIntSequence sample_state
        ((s_outputIntSequence sample_state).[0 ↦ map bit_of (take 8 (s_outputSequence sample_state))])).
Proof. apply (string_to_int_spec sample_state); concrete. Defined.


(** The offset [euclid_thisOffset] really applies. *)
Definition effective_offset (thisOffset beats : Z) : Z :=
  if thisOffset >? beats then Z.rem thisOffset beats else thisOffset.

Lemma working_offset_ok o b : 1 <= b -> working_offset o b = Ok (effective_offset o b).
Proof.
  intros Hb. unfold working_offset, effective_offset.
  destruct (o >? b); [|done]. by rewrite (proj2 (Z.eqb_neq b 0)) by lia.
Qed.

Lemma effective_offset_range o b : 1 <= b -> 0 <= o -> 0 <= effective_offset o b <= b.
Proof.
  intros Hb Ho. unfold effective_offset. destruct (Z.gtb_spec o b).
  - pose proof (Z.rem_bound_pos o b). lia.
  - lia.
Qed.

Lemma tmp_set_in tmp i v : 0 <= i < 64 -> tmp_set tmp i v = Ok (<[Z.to_nat i := v]> tmp).
Proof. intros. by apply arr_set_in. Qed.
Lemma tmp_get_in tmp i : 0 <= i < 64 -> tmp_get tmp i = Ok (nth (Z.to_nat i) tmp 0).
Proof. intros. by apply arr_get_in. Qed.

(** Two blocks written side by side, the second at the front. *)
Lemma take_splice_splice {A} (t p1 p2 : list A) :
  (length p2 + length p1 <= length t)%nat ->
  take (length p2 + length p1) ((t.[length p2 ↦ p1]).[0 ↦ p2]) = p2 ++ p1.
Proof.
  intros H. unfold splice at 1. rewrite take_0, app_nil_l, Nat.add_0_l.
  rewrite drop_splice by lia. rewrite app_assoc, take_app_length'; [done|].
  rewrite length_app. lia.
Qed.

Lemma rotate_right_take (outs : list Z) (w r : nat) :
  (w + r <= length outs)%nat ->
  rotate_right w (take (w + r) outs) = take w (drop r outs) ++ take r outs.
Proof.
  intros H. unfold rotate_right. rewrite length_take, Nat.min_l by lia.
  replace (w + r - w)%nat with r by lia.
  rewrite skipn_firstn_comm, take_take. f_equal; f_equal; lia.
Qed.

Lemma thisOffset_splice x o :
  shape_ok x -> 1 <= s_beats x <= 64 -> 0 <= o ->
  euclid_thisOffset x o =
  Ok (set_outputIntSequence x
        ((s_outputIntSequence x).[0 ↦ rotate_right (Z.to_nat (effective_offset o (s_beats x)))
              (take (Z.to_nat (s_beats x)) (s_outputIntSequence x))])).
Proof.
  intros (Hr & Ho & Hs) Hb Ho0. unfold euclid_thisOffset.
  rewrite working_offset_ok by lia. rewrite res_bind_ok_l.
  pose proof (effective_offset_range o (s_beats x) ltac:(lia) Ho0) as Hw.
  set (w := effective_offset o (s_beats x)) in *.
  set (b := s_beats x) in *. set (outs := s_outputIntSequence x) in *.
  (* thisOffsetIntSequence[0 .. b-1] = 0 *)
  for_inv (fun k (t : list Z) => 0 <= k /\ t = splice (replicate 64 0) 0 (replicate (Z.to_nat k) 0)).
  { split; [lia|]. change (replicate (Z.to_nat 0) 0) with (@nil Z).
    by rewrite splice_nil by (rewrite length_replicate; lia). }
  { intros k t Hk [_ ->]. rewrite tmp_set_in by lia. eexists. split; [reflexivity|]. split; [lia|].
    pose proof (splice_snoc (replicate 64 0) 0 (replicate (Z.to_nat k) 0) 0) as Hsn.
    rewrite !length_replicate, Nat.add_0_l in Hsn. rewrite Hsn by lia.
    replace (Z.to_nat (k + 1)) with (S (Z.to_nat k)) by lia. by rewrite (replicate_S_end (Z.to_nat k)). }
  destruct HI as [_ ->].
  (* tmp[c + working] = out[c] *)
  set (t1 := splice (replicate 64 0) 0 (replicate (Z.to_nat (0 + Z.of_nat (Z.to_nat b))) 0)).
  assert (Ht1 : length t1 = 64%nat).
  { unfold t1. rewrite length_splice; rewrite !length_replicate; lia. }
  for_inv (fun k (t : list Z) => 0 <= k /\ t = splice t1 (Z.to_nat w) (take (Z.to_nat k) outs)).
  { split; [lia|]. change (Z.to_nat 0) with 0%nat. rewrite take_0. by rewrite splice_nil by lia. }
  { intros k t Hk [_ ->]. rewrite out_get_in by (unfold OUTINT_CAP; lia). rewrite res_bind_ok_l.
    rewrite tmp_set_in by lia. eexists. split; [reflexivity|]. split; [lia|].
    pose proof (splice_snoc t1 (Z.to_nat w) (take (Z.to_nat k) outs) (nth (Z.to_nat k) outs 0)) as Hsn.
    rewrite length_take, Nat.min_l in Hsn by lia.
    replace (Z.to_nat (k + w)) with (Z.to_nat w + Z.to_nat k)%nat by lia.
    fold outs. rewrite Hsn by lia. replace (Z.to_nat (k + 1)) with (S (Z.to_nat k)) by lia.
    by rewrite (take_S_nth _ _ 0) by lia. }
  destruct HI as [_ ->].
  (* tmp[c] = out[c + remainder] *)
  set (r := b - w) in *.
  set (t2 := splice t1 (Z.to_nat w) (take (Z.to_nat (0 + Z.of_nat (Z.to_nat r))) outs)).
  assert (Ht2 : length t2 = 64%nat).
  { unfold t2. rewrite length_splice; rewrite ?length_take; lia. }
  for_inv (fun k (t : list Z) => 0 <= k /\ t = splice t2 0 (take (Z.to_nat k) (drop (Z.to_nat r) outs))).
  { split; [lia|]. change (Z.to_nat 0) with 0%nat. rewrite take_0. by rewrite splice_nil by lia. }
  { intros k t Hk [_ ->]. rewrite out_get_in by (unfold OUTINT_CAP; lia). rewrite res_bind_ok_l.
    rewrite tmp_set_in by lia. eexists. split; [reflexivity|]. split; [lia|]. fold outs.
    pose proof (splice_snoc t2 0 (take (Z.to_nat k) (drop (Z.to_nat r) outs))
      (nth (Z.to_nat k) (drop (Z.to_nat r) outs) 0)) as Hsn.
    rewrite length_take, length_drop, Nat.min_l, Nat.add_0_l in Hsn by lia.
    rewrite nth_skipn in Hsn. replace (Z.to_nat r + Z.to_nat k)%nat with (Z.to_nat (k + r)) in Hsn by lia.
    rewrite Hsn by lia. replace (Z.to_nat (k + 1)) with (S (Z.to_nat k)) by lia.
    rewrite (take_S_nth _ _ 0) by (rewrite length_drop; lia). rewrite nth_skipn. do 4 f_equal. lia. }
  destruct HI as [_ ->].
  (* out[c] = tmp[c] *)
  set (t3 := splice t2 0 (take (Z.to_nat (0 + Z.of_nat (Z.to_nat w))) (drop (Z.to_nat r) outs))).
  assert (Ht3 : take (Z.to_nat b) t3 = take (Z.to_nat w) (drop (Z.to_nat r) outs) ++ take (Z.to_nat r) outs).
  { unfold t3, t2. rewrite !Z.add_0_l, !Nat2Z.id.
    pose proof (take_splice_splice t1 (take (Z.to_nat r) outs) (take (Z.to_nat w) (drop (Z.to_nat r) outs))) as Hts.
    rewrite !length_take, length_drop, !Nat.min_l in Hts by lia.
    replace (Z.to_nat b) with (Z.to_nat w + Z.to_nat r)%nat by lia. apply Hts. lia. }
  for_inv (fun k y => 0 <= k /\ y = set_outputIntSequence x (splice outs 0 (take (Z.to_nat k) t3))).
  { split; [lia|]. change (Z.to_nat 0) with 0%nat. rewrite take_0, splice_nil by lia. by destruct x. }
  { intros k y Hk [_ ->]. rewrite tmp_get_in by lia. rewrite res_bind_ok_l.
    rewrite out_set_in by (unfold OUTINT_CAP; lia). eexists. split; [reflexivity|]. split; [lia|].
    autorewrite with euclid_rw. f_equal.
    pose proof (splice_snoc outs 0 (take (Z.to_nat k) t3) (nth (Z.to_nat k) t3 0)) as Hsn.
    assert (length t3 = 64%nat) by (unfold t3; rewrite length_splice; rewrite ?length_take; lia).
    rewrite length_take, Nat.min_l, Nat.add_0_l in Hsn by lia.
    rewrite Hsn by lia. replace (Z.to_nat (k + 1)) with (S (Z.to_nat k)) by lia.
    by rewrite (take_S_nth _ _ 0) by lia. }
  destruct HI as [_ ->]. rewrite Z.add_0_l, Nat2Z.id, Ht3. do 3 f_equal.
  replace (Z.to_nat b) with (Z.to_nat w + Z.to_nat r)%nat by lia.
  rewrite rotate_right_take by lia. reflexivity.
Qed.

(** C14: For 1 to 64 beats and a non-negative offset, euclid_thisOffset
    rotates the first beats integers right by the offset (reduced modulo
    beats when it exceeds beats) and leaves the others unchanged. *)
Theorem thisOffset_spec x o :
  shape_ok x -> 1 <= s_beats x <= 64 -> 0 <= o ->
  euclid_thisOffset x o =
  Ok (set_outputIntSequence x
        ((s_outputIntSequence x).[0 ↦ rotate_right (Z.to_nat (effective_offset o (s_beats x)))
              (take (Z.to_nat (s_beats x)) (s_outputIntSequence x))])).
Proof. apply thisOffset_splice. Qed.

Lemma thisOffset_spec_witness :
  euclid_thisOffset sample_state 11 =
  Ok (set_outputIntSequence sample_state
        ((s_outputIntSequence sample_state).[0 ↦ rotate_right (Z.to_nat (effective_offset 11 8))
              (take 8 (s_outputIntSequence sample_state))])).
Proof. apply (thisOffset_spec sample_state 11); concrete. Defined.


Lemma ping_pong_splice x :
  shape_ok x -> 0 <= s_beats x <= 64 ->
  euclid_ping_pong x =
  Ok (set_outputIntSequence x
        ((s_outputIntSequence x).[Z.to_nat (s_beats x) ↦ reverse (take (Z.to_nat (s_beats x)) (s_outputIntSequence x))])).
Proof.
  intros (Hr & Ho & Hs) Hb. unfold euclid_ping_pong.
  set (b := s_beats x) in *. set (outs := s_outputIntSequence x) in *.
  for_inv (fun k (st : t_euclid * Z) => b <= k /\ st.2 = 2 * b - k /\
     st.1 = set_outputIntSequence x
       (splice outs (Z.to_nat b) (take (Z.to_nat (k - b)) (reverse (take (Z.to_nat b) outs))))).
  { simpl. split; [lia|]. split; [lia|]. rewrite Z.sub_diag. change (Z.to_nat 0) with 0%nat.
    rewrite take_0, splice_nil by lia. by destruct x. }
  { intros k [y rev] Hk (_ & Hrev & Hy). simpl in Hrev, Hy. subst y rev.
    rewrite out_get_in by (unfold OUTINT_CAP; lia). rewrite res_bind_ok_l.
    rewrite out_set_in by (unfold OUTINT_CAP; lia). rewrite res_bind_ok_l.
    eexists. split; [reflexivity|]. simpl. split; [lia|]. split; [lia|].
    autorewrite with euclid_rw. f_equal. fold outs.
    set (p := take (Z.to_nat (k - b)) (reverse (take (Z.to_nat b) outs))).
    assert (Hp : length p = Z.to_nat (k - b)).
    { unfold p. rewrite length_take, length_reverse, length_take. lia. }
    rewrite nth_splice_lt by lia.
    pose proof (splice_snoc outs (Z.to_nat b) p (nth (Z.to_nat (2 * b - k - 1)) outs 0)) as Hsn.
    rewrite Hp in Hsn. replace (Z.to_nat b + Z.to_nat (k - b))%nat with (Z.to_nat k) in Hsn by lia.
    rewrite Hsn by lia. f_equal. unfold p.
    replace (Z.to_nat (k + 1 - b)) with (S (Z.to_nat (k - b))) by lia.
    rewrite (take_S_r _ _ (nth (Z.to_nat (2 * b - k - 1)) outs 0)); [done|].
    rewrite reverse_lookup by (rewrite length_take; lia).
    rewrite length_take, lookup_take_lt by lia.
    replace (Z.to_nat b `min` length outs - S (Z.to_nat (k - b)))%nat
      with (Z.to_nat (2 * b - k - 1)) by lia.
    apply lookup_nth. lia. }
  destruct y as [y r]. simpl in HI. destruct HI as (_ & _ & ->). f_equal. f_equal.
  replace (b + Z.of_nat (Z.to_nat b) - b) with b by lia.
  rewrite take_ge; [done|]. rewrite length_reverse, length_take. lia.
Qed.

(** C15: For 0 to 64 beats, euclid_ping_pong writes the first beats integers
    in reverse order at indices beats to 2 * beats - 1 and changes nothing
    else. *)
Theorem ping_pong_spec x :
  shape_ok x -> 0 <= s_beats x <= 64 ->
  euclid_ping_pong x =
  Ok (set_outputIntSequence x
        ((s_outputIntSequence x).[Z.to_nat (s_beats x) ↦ reverse (take (Z.to_nat (s_beats x)) (s_outputIntSequence x))])).
Proof. apply ping_pong_splice. Qed.

Lemma ping_pong_spec_witness :
  euclid_ping_pong sample_state =
  Ok (set_outputIntSequence sample_state
        ((s_outputIntSequence sample_state).[8 ↦ reverse (take 8 (s_outputIntSequence sample_state))])).
Proof. apply (ping_pong_spec sample_state); concrete. Defined.


(** ** Laws of the offset and the mirror *)

Lemma Forall_rotate_right (P : Z -> Prop) w l : Forall P l -> Forall P (rotate_right w l).
Proof. intros. unfold rotate_right. apply Forall_app; split; [by apply Forall_drop|by apply Forall_take]. Qed.

Lemma rotate_right_0 (l : list Z) : rotate_right 0 l = l.
Proof. unfold rotate_right. rewrite Nat.sub_0_r, drop_all, take_ge by lia. done. Qed.

Lemma rotate_right_length (l : list Z) : rotate_right (length l) l = l.
Proof. unfold rotate_right. by rewrite Nat.sub_diag, drop_0, take_0, app_nil_r. Qed.

Lemma rotate_right_roundtrip (k : nat) (l : list Z) :
  (k <= length l)%nat -> rotate_right (length l - k) (rotate_right k l) = l.
Proof.
  intros Hk. unfold rotate_right at 2. set (n := length l).
  set (A := take (n - k) l). set (B := drop (n - k) l).
  assert (HB : length B = k) by (unfold B, n; rewrite length_drop; lia).
  assert (HA : length A = (n - k)%nat) by (unfold A, n; rewrite length_take; lia).
  unfold rotate_right. rewrite length_app, HA, HB.
  replace (k + (n - k) - (n - k))%nat with (length B) by lia.
  rewrite drop_app_length, take_app_length. unfold A, B. apply take_drop.
Qed.

Lemma splice_take_self (l : list Z) (n : nat) : (n <= length l)%nat -> l.[0 ↦ take n l] = l.
Proof.
  intros H. unfold splice. rewrite take_0, length_take, Nat.min_l by lia. simpl. apply take_drop.
Qed.

(** C20: The offsets 0 and beats leave the object unchanged. *)
Theorem thisOffset_identity x :
  shape_ok x -> 1 <= s_beats x <= 64 ->
  euclid_thisOffset x 0 = Ok x /\ euclid_thisOffset x (s_beats x) = Ok x.
Proof.
  intros Hsh Hb. pose proof Hsh as (_ & Ho & _).
  assert (Hn : length (take (Z.to_nat (s_beats x)) (s_outputIntSequence x)) = Z.to_nat (s_beats x))
    by (rewrite length_take; lia).
  split; rewrite thisOffset_splice by (done || lia); unfold effective_offset.
  - rewrite Z.gtb_ltb, (proj2 (Z.ltb_ge _ _)) by lia. simpl.
    rewrite rotate_right_0, splice_take_self by lia. by destruct x.
  - rewrite Z.gtb_ltb, Z.ltb_irrefl. rewrite <- Hn at 1.
    rewrite rotate_right_length, splice_take_self by lia. by destruct x.
Qed.

Lemma thisOffset_identity_witness :
  euclid_thisOffset sample_state 0 = Ok sample_state /\
  euclid_thisOffset sample_state 8 = Ok sample_state.
Proof. apply (thisOffset_identity sample_state); concrete. Defined.


(** Rotations of stdpp compose by adding their amounts. *)
Lemma rotate_rotate {A} (a c : nat) (l : list A) : rotate a (rotate c l) = rotate (a + c) l.
Proof.
  apply list_eq. intros i. destruct (decide (i < length l)%nat) as [Hi|Hi].
  - rewrite lookup_rotate_r by (rewrite ?length_rotate; lia). rewrite length_rotate.
    rewrite (lookup_rotate_r l (a + c)%nat) by lia. rewrite lookup_rotate_r.
    2:{ unfold rotate_nat_add. pose proof (Z.mod_pos_bound (Z.of_nat a + Z.of_nat i) (Z.of_nat (length l))). lia. }
    f_equal. unfold rotate_nat_add. f_equal.
    rewrite Z2Nat.id by (apply Z.mod_pos_bound; lia).
    rewrite Zplus_mod_idemp_r. f_equal. lia.
  - rewrite !lookup_ge_None_2 by (rewrite ?length_rotate; lia). done.
Qed.

Lemma rotate_mod {A} (d : nat) (l : list A) : rotate d l = rotate (d `mod` length l) l.
Proof. unfold rotate. by rewrite Nat.Div0.mod_mod. Qed.

(** A right rotation by [w] is a left rotation by [length l - w]. *)
Lemma rotate_right_rotate (w : nat) (l : list Z) :
  (w <= length l)%nat -> rotate_right w l = rotate (length l - w) l.
Proof.
  intros Hw. unfold rotate_right, rotate. destruct (decide (w = 0%nat)) as [->|Hw0].
  - rewrite Nat.sub_0_r, Nat.Div0.mod_same, drop_all, drop_0, take_0, app_nil_r.
    by rewrite take_ge by lia.
  - by rewrite Nat.mod_small by lia.
Qed.

(** Two right rotations are one, by the sum of the amounts modulo the length. *)
Lemma rotate_right_compose (a c : nat) (l : list Z) :
  (a <= length l)%nat -> (c <= length l)%nat ->
  rotate_right a (rotate_right c l) = rotate_right ((a + c) `mod` length l) l.
Proof.
  intros Ha Hc. set (n := length l).
  destruct (decide (n = 0%nat)) as [Hn|Hn].
  { apply length_zero_iff_nil in Hn. subst l. done. }
  rewrite (rotate_right_rotate c), (rotate_right_rotate a) by (rewrite ?length_rotate; lia).
  rewrite (rotate_right_rotate ((a + c) `mod` n)) by (pose proof (Nat.mod_upper_bound (a + c) n); lia).
  rewrite length_rotate, rotate_rotate. fold n.
  rewrite (rotate_mod (n - a + (n - c))), (rotate_mod (n - (a + c) `mod` n)). fold n. f_equal.
  destruct (decide (a + c < n)%nat) as [Hs|Hs].
  - rewrite (Nat.mod_small (a + c)) by done.
    replace (n - a + (n - c))%nat with (n - (a + c) + 1 * n)%nat by lia. by rewrite Nat.Div0.mod_add.
  - destruct (decide (a + c = 2 * n)%nat) as [Hs2|Hs2].
    + rewrite Hs2. replace (2 * n)%nat with (0 + 2 * n)%nat by lia. rewrite Nat.Div0.mod_add.
      replace (n - a + (n - c))%nat with 0%nat by lia.
      by rewrite Nat.Div0.mod_0_l, Nat.sub_0_r, Nat.Div0.mod_same.
    + replace (a + c)%nat with (a + c - n + 1 * n)%nat at 1 by lia.
      rewrite Nat.Div0.mod_add, (Nat.mod_small (a + c - n)) by lia. f_equal. lia.
Qed.

(** Two offsets in a row, as two rotations of the first beats integers. *)
Lemma thisOffset_twice x k j :
  shape_ok x -> 1 <= s_beats x <= 64 -> 0 <= k -> 0 <= j ->
  (y ← euclid_thisOffset x k; euclid_thisOffset y j) =
  Ok (set_outputIntSequence x ((s_outputIntSequence x).[0 ↦
        rotate_right (Z.to_nat (effective_offset j (s_beats x)))
          (rotate_right (Z.to_nat (effective_offset k (s_beats x)))
             (take (Z.to_nat (s_beats x)) (s_outputIntSequence x)))])).
Proof.
  intros Hsh Hb Hk Hj. pose proof Hsh as (_ & Ho & _).
  set (l := take (Z.to_nat (s_beats x)) (s_outputIntSequence x)).
  assert (Hl : length l = Z.to_nat (s_beats x)) by (unfold l; rewrite length_take; lia).
  rewrite thisOffset_splice by done. rewrite res_bind_ok_l. fold l.
  rewrite thisOffset_splice; simpl_fields; try lia.
  2:{ apply shape_ok_set_outputIntSequence_len; [done|].
      rewrite length_splice; rewrite ?length_rotate_right; lia. }
  rewrite take_splice_front_n by (rewrite ?length_rotate_right; lia).
  rewrite set_outputIntSequence_twice, splice_splice by (rewrite ?length_rotate_right; lia).
  done.
Qed.

(** C18: Rotating by k with euclid_thisOffset and then by beats - k restores
    the first beats integers, for 0 <= k <= beats. *)
Theorem thisOffset_roundtrip x k y z :
  shape_ok x -> 1 <= s_beats x <= 64 -> 0 <= k <= s_beats x ->
  euclid_thisOffset x k = Ok y -> euclid_thisOffset y (s_beats x - k) = Ok z ->
  take (Z.to_nat (s_beats x)) (s_outputIntSequence z) =
  take (Z.to_nat (s_beats x)) (s_outputIntSequence x).
Proof.
  intros Hsh Hb Hk Hy Hz. pose proof Hsh as (_ & Ho & _).
  pose proof (thisOffset_twice x k (s_beats x - k) Hsh Hb ltac:(lia) ltac:(lia)) as H2.
  rewrite Hy, res_bind_ok_l, Hz in H2. injection H2 as ->. simpl_fields.
  set (l := take (Z.to_nat (s_beats x)) (s_outputIntSequence x)).
  assert (Hl : length l = Z.to_nat (s_beats x)) by (unfold l; rewrite length_take; lia).
  assert (Hk' : effective_offset k (s_beats x) = k).
  { unfold effective_offset. by rewrite Z.gtb_ltb, (proj2 (Z.ltb_ge _ _)) by lia. }
  assert (Hk'' : effective_offset (s_beats x - k) (s_beats x) = s_beats x - k).
  { unfold effective_offset. by rewrite Z.gtb_ltb, (proj2 (Z.ltb_ge _ _)) by lia. }
  rewrite Hk', Hk'', take_splice_front_n by (rewrite ?length_rotate_right; lia).
  replace (Z.to_nat (s_beats x - k)) with (length l - Z.to_nat k)%nat by lia.
  apply rotate_right_roundtrip. lia.
Qed.

Lemma thisOffset_roundtrip_witness :
  take 8 (s_outputIntSequence (set_outputIntSequence sample_state
    ([1; 0; 0; 1; 0; 1; 0; 0] ++ replicate 120 0))) =
  take 8 (s_outputIntSequence sample_state).
Proof.
  apply (thisOffset_roundtrip sample_state 3
    (set_outputIntSequence sample_state ([1; 0; 0; 1; 0; 0; 1; 0] ++ replicate 120 0))); concrete.
Defined.


(** C25: For 1 to 64 beats, applying euclid_thisOffset with k and then with j
    is the same as applying it once with the sum of the two effective
    offsets modulo beats. *)
Theorem thisOffset_compose x k j :
  shape_ok x -> 1 <= s_beats x <= 64 -> 0 <= k -> 0 <= j ->
  (y ← euclid_thisOffset x k; euclid_thisOffset y j) =
  euclid_thisOffset x ((effective_offset k (s_beats x) + effective_offset j (s_beats x)) mod s_beats x).
Proof.
  intros Hsh Hb Hk Hj. pose proof Hsh as (_ & Ho & _).
  pose proof (effective_offset_range k (s_beats x) ltac:(lia) Hk).
  pose proof (effective_offset_range j (s_beats x) ltac:(lia) Hj).
  pose proof (Z.mod_pos_bound (effective_offset k (s_beats x) + effective_offset j (s_beats x))
    (s_beats x) ltac:(lia)).
  rewrite thisOffset_twice, thisOffset_splice by (done || lia). do 3 f_equal.
  rewrite rotate_right_compose by (rewrite length_take; lia).
  rewrite length_take, Nat.min_l by lia. f_equal.
  unfold effective_offset at 3. rewrite Z.gtb_ltb, (proj2 (Z.ltb_ge _ _)) by lia.
  rewrite Z2Nat.inj_mod by lia. f_equal. lia.
Qed.

Lemma thisOffset_compose_witness :
  (y ← euclid_thisOffset sample_state 3; euclid_thisOffset y 11) =
  euclid_thisOffset sample_state ((effective_offset 3 8 + effective_offset 11 8) mod 8).
Proof. apply (thisOffset_compose sample_state 3 11); concrete. Defined.


(** C19: After euclid_ping_pong, the integer at index beats + i is the old one
    at beats - 1 - i and the one at index i is unchanged, for every i
    below beats. *)
Theorem ping_pong_mirror x y i :
  shape_ok x -> 0 <= s_beats x <= 64 -> euclid_ping_pong x = Ok y -> 0 <= i < s_beats x ->
  s_outputIntSequence y !! Z.to_nat (s_beats x + i) = s_outputIntSequence x !! Z.to_nat (s_beats x - 1 - i) /\
  s_outputIntSequence y !! Z.to_nat i = s_outputIntSequence x !! Z.to_nat i.
Proof.
  intros Hsh Hb Hy Hi. pose proof Hsh as (_ & Ho & _).
  rewrite ping_pong_splice in Hy by done. injection Hy as <-. simpl_fields.
  assert (Hr : length (reverse (take (Z.to_nat (s_beats x)) (s_outputIntSequence x)))
               = Z.to_nat (s_beats x)) by (rewrite length_reverse, length_take; lia).
  unfold splice. split.
  - rewrite lookup_app_r by (rewrite length_take; lia). rewrite length_take, Nat.min_l by lia.
    rewrite lookup_app_l by lia. rewrite reverse_lookup by (rewrite length_take; lia).
    rewrite length_take, Nat.min_l, lookup_take_lt by lia. f_equal. lia.
  - rewrite lookup_app_l by (rewrite length_take; lia). rewrite lookup_take_lt by lia. done.
Qed.

Lemma ping_pong_mirror_witness :
  s_outputIntSequence (set_outputIntSequence sample_state
    ([1; 0; 0; 1; 0; 1; 0; 0; 0; 0; 1; 0; 1; 0; 0; 1] ++ replicate 112 0)) !! Z.to_nat (8 + 2) =
    s_outputIntSequence sample_state !! Z.to_nat (8 - 1 - 2) /\
  s_outputIntSequence (set_outputIntSequence sample_state
    ([1; 0; 0; 1; 0; 1; 0; 0; 0; 0; 1; 0; 1; 0; 0; 1] ++ replicate 112 0)) !! Z.to_nat 2 =
    s_outputIntSequence sample_state !! Z.to_nat 2.
Proof. apply (ping_pong_mirror sample_state); concrete. Defined.

(** ** The routines' frame

    The three routines write only [s_outputIntSequence] through [out_set],
    so every property closed under the primitive writes survives them. *)
Section Frame.
Context (P : t_euclid -> Prop) `{!WriteClosed P}.

Lemma string_to_int_preserves x y :
  P x -> euclid_sequence_string_to_int x = Ok y -> P y.
Proof.
  intros Hx. apply for_loop_preserves; [|done].
  intros k t t' Ht (c & _ & H)%res_bind_Ok. exact (wc_out_set _ _ _ _ Ht H).
Qed.

Lemma thisOffset_preserves x o y : P x -> euclid_thisOffset x o = Ok y -> P y.
Proof.
  intros Hx. unfold euclid_thisOffset.
  intros (w & _ & (t1 & _ & (t2 & _ & (t3 & _ & H)%res_bind_Ok)%res_bind_Ok)%res_bind_Ok)%res_bind_Ok.
  revert H. apply for_loop_preserves; [|done].
  intros k t t' Ht (v & _ & H)%res_bind_Ok. exact (wc_out_set _ _ _ _ Ht H).
Qed.

Lemma ping_pong_preserves x y : P x -> euclid_ping_pong x = Ok y -> P y.
Proof.
  intros Hx. unfold euclid_ping_pong. intros ([t r] & H & [= <-])%res_bind_Ok.
  change (P (fst (t, r))).
  refine (for_loop_preserves (fun p => P (fst p)) _ _ _ _ _ _ _ H); [|done].
  intros k [t1 r1] [t2 r2] Ht1 (v & _ & (t3 & H3 & [= <- _])%res_bind_Ok)%res_bind_Ok.
  exact (wc_out_set _ _ _ _ Ht1 H3).
Qed.
End Frame.
