(* ===== verification/Handlers.v ===== *)
(** * The object's methods

    [euclid_bang] (euclid.c, lines 145-167) runs the pipeline prepare,
    distribute, string to int, offset, optional ping-pong, and sends the
    integers out; [euclid_int], [euclid_in1] and [euclid_in2] (lines
    171-214) clamp their argument into the object and bang; the
    [pingpong] attribute (line 89) is a plain store.

    The lemmas describe a bang in three regimes: the first bang after a
    parameter message ([bang_fresh], all [beats] rows active), a bang from
    a stale [s_lastElement] ([bang_stale]), and a bang on an object with
    no beats ([bang_zero_beats], [bang_zero_beats_offset]).  Each keeps
    the arrays at their C lengths and only bits in the integers. *)
From Stdlib Require Import ZArith Lia Ascii String.
From stdpp Require Import base list strings decidable.
From S2P Require Import Prelude CRuntime EuclidState Buckets Distributor PostProcess.
Open Scope Z_scope.

(** ** Methods *)

(** Lines 153-157 and 160-164: copy [n] integers into the atom array. *)
Definition output_atoms (x : t_euclid) (n : Z) : res (list Z) :=
  for_loop (Z.to_nat n) 0 (fun counter acc => v ← out_get x counter; Ok (acc ++ [v])) [].

(** Lines 146-149: the pattern, in [s_outputIntSequence].  [euclid] and
    [euclid_thisOffset] take [int] parameters (lines 63 and 66), so the
    [long] fields are narrowed at the calls. *)
Definition euclid_bang_sequence (x : t_euclid) : res t_euclid :=
  x ← euclid_prepare_sequence x;
  x ← euclid (euclid_fuel (to_int (s_hits x))) (to_int (s_hits x)) (to_int (s_beats x)) x;
  x ← euclid_sequence_string_to_int x;
  euclid_thisOffset x (to_int (s_thisOffset x)).

(** Lines 151-166: mirror if asked, and send. *)
Definition euclid_bang_output (x : t_euclid) : res (t_euclid * list Z) :=
  if s_pingPongFlag x =? 1 then
    x ← euclid_ping_pong x;
    atoms ← output_atoms x (s_beats x * 2);
    Ok (x, atoms)
  else
    atoms ← output_atoms x (s_beats x);
    Ok (x, atoms).

Definition euclid_bang (x : t_euclid) : res (t_euclid * list Z) :=
  euclid_bang_sequence x ≫= euclid_bang_output.

(** Lines 171-184.  [s_lastElement] is an [int]: the [long] it is
    assigned is narrowed, here and in [euclid_in1] and [euclid_in2]. *)
Definition euclid_int (x : t_euclid) (hits : Z) : res (t_euclid * list Z) :=
  let x := if hits <=? s_beats x
           then set_lastElement (set_hits x hits) (to_int (s_beats x - 1))
           else set_lastElement (set_hits x (s_beats x)) (to_int (s_beats x - 1)) in
  let x := if hits <? 0 then set_lastElement (set_hits x 0) (to_int (s_beats x - 1)) else x in
  euclid_bang x.

Definition euclid_in1 (x : t_euclid) (beats : Z) : res (t_euclid * list Z) :=
  let beats := if beats >? 64 then 64 else beats in
  let x := if beats >? 0 then set_lastElement (set_beats x beats) (to_int (beats - 1))
           else set_lastElement (set_beats x 1) 0 in
  euclid_bang x.

Definition euclid_in2 (x : t_euclid) (thisOffset : Z) : res (t_euclid * list Z) :=
  let thisOffset := if thisOffset <? 0 then 0 else thisOffset in
  let thisOffset := if thisOffset >? 128 then 128 else thisOffset in
  let x := set_lastElement x (to_int (s_beats x - 1)) in
  euclid_bang (set_thisOffset x thisOffset).

(** The [pingpong] attribute's setter, generated by [CLASS_ATTR_LONG]. *)
Definition euclid_set_pingpong (x : t_euclid) (v : Z) : t_euclid := set_pingPongFlag x v.

(** ** The clamping of the inlets *)

Definition clamp_beats (beats : Z) : Z := if beats >? 64 then 64 else if beats >? 0 then beats else 1.
Definition clamp_hits (hits beats : Z) : Z := if hits <? 0 then 0 else if hits <=? beats then hits else beats.
Definition clamp_offset (o : Z) : Z := if o <? 0 then 0 else if o >? 128 then 128 else o.

Definition bits_of (s : string) : list Z := map bit_of (list_ascii_of_string s).

(** ** What [euclid_bang] sends *)

Lemma output_atoms_spec x n :
  shape_ok x -> 0 <= n <= 128 -> output_atoms x n = Ok (take (Z.to_nat n) (s_outputIntSequence x)).
Proof.
  intros (Hr & Ho & Hs) Hn. unfold output_atoms.
  for_inv (fun k (acc : list Z) => 0 <= k /\ acc = take (Z.to_nat k) (s_outputIntSequence x)).
  { split; [lia|]. by rewrite take_0. }
  { intros k acc Hk [_ ->]. rewrite out_get_in by (unfold OUTINT_CAP; lia).
    eexists. split; [reflexivity|]. split; [lia|].
    replace (Z.to_nat (k + 1)) with (S (Z.to_nat k)) by lia.
    by rewrite (take_S_nth _ _ 0) by lia. }
  destruct HI as [_ ->]. by rewrite Z.add_0_l, Nat2Z.id.
Qed.


Lemma length_bits_of s : length (bits_of s) = String.length s.
Proof. unfold bits_of. by rewrite length_map, length_list_ascii_of_string. Qed.

(** The output of a bang whose active rows are all [beats] rows, i.e. the
    first bang after a parameter message: [pattern], rotated by the
    effective offset, mirrored when [s_pingPongFlag] is 1. *)
Definition bang_output (s : string) (beats thisOffset pingPongFlag : Z) : list Z :=
  let r := rotate_right (Z.to_nat (effective_offset thisOffset beats)) (bits_of s) in
  if pingPongFlag =? 1 then mirror r else r.

Lemma bang_output_spec x s :
  shape_ok x -> 1 <= s_beats x <= 64 ->
  take (Z.to_nat (s_beats x)) (s_outputIntSequence x) =
    rotate_right (Z.to_nat (effective_offset (s_thisOffset x) (s_beats x))) (bits_of s) ->
  String.length s = Z.to_nat (s_beats x) ->
  exists y, euclid_bang_output x =
    Ok (y, bang_output s (s_beats x) (s_thisOffset x) (s_pingPongFlag x)).
Proof.
  intros Hsh Hb Hr Hl. pose proof Hsh as (_ & Ho & _).
  set (r := rotate_right _ (bits_of s)) in *.
  assert (Hlr : length r = Z.to_nat (s_beats x)).
  { unfold r. rewrite length_rotate_right, length_bits_of. lia. }
  unfold euclid_bang_output, bang_output. fold r. destruct (s_pingPongFlag x =? 1).
  - rewrite ping_pong_splice by (done || lia). rewrite res_bind_ok_l.
    set (outs' := splice _ _ (reverse _)).
    assert (Hl5 : length outs' = 128%nat).
    { unfold outs'. rewrite length_splice; rewrite ?length_reverse, ?length_take; lia. }
    rewrite output_atoms_spec;
      [| by apply shape_ok_set_outputIntSequence_len | autorewrite with euclid_rw; lia].
    unfold outs'.
    eexists. do 2 f_equal. autorewrite with euclid_rw. rewrite Hr.
    replace (Z.to_nat (s_beats x * 2)) with (Z.to_nat (s_beats x) + length (reverse r))%nat
      by (rewrite length_reverse; lia).
    rewrite take_splice_block by (rewrite length_reverse; lia). by rewrite Hr.
  - rewrite output_atoms_spec by (done || lia). eexists. by rewrite Hr.
Qed.

Lemma chars_nul_free bs : bits_ok bs -> Forall (fun s => nul_free (list_ascii_of_string s)) bs.
Proof. apply List.Forall_impl. intros s. apply bit_string_nul_free. Qed.

(** The buffer after [strcpy(.., "")] and the [strcat]s of the buckets
    holds their concatenation. *)
Lemma holds_concat b bs :
  (0 < length b)%nat -> bits_ok bs -> holds (foldl buf_strcat (buf_strcpy b EmptyString) bs) (chars bs).
Proof.
  intros Hb Hbs. rewrite <- (app_nil_l (chars bs)).
  apply holds_foldl_strcat; [by apply holds_strcpy_empty|by apply chars_nul_free].
Qed.

(** Where hits, beats and offset fit an [int], the narrowing at the calls
    changes nothing: the routines before each call keep the parameters. *)
Lemma bang_sequence_wide x :
  fits_int (s_hits x) -> fits_int (s_beats x) -> fits_int (s_thisOffset x) ->
  euclid_bang_sequence x =
    (x ← euclid_prepare_sequence x;
     x ← euclid (euclid_fuel (s_hits x)) (s_hits x) (s_beats x) x;
     x ← euclid_sequence_string_to_int x;
     euclid_thisOffset x (s_thisOffset x)).
Proof.
  intros Hh Hb Ho. unfold euclid_bang_sequence.
  destruct (euclid_prepare_sequence x) as [x1|e] eqn:E1; [|done]. rewrite !res_bind_ok_l.
  pose proof (prepare_preserves (fun y => params y = params x) x x1 eq_refl E1) as P1.
  injection P1 as Hh1 Hb1 Ho1 _. rewrite Hh1, Hb1, !to_int_id by done.
  destruct (euclid _ _ _ x1) as [x2|e] eqn:E2; [|done]. rewrite !res_bind_ok_l.
  destruct (euclid_sequence_string_to_int x2) as [x3|e] eqn:E3; [|done]. rewrite !res_bind_ok_l.
  pose proof (euclid_preserves (fun y => params y = params x1) _ _ _ x1 x2 eq_refl E2) as P2.
  pose proof (string_to_int_preserves (fun y => params y = params x2) x2 x3 eq_refl E3) as P3.
  injection P2 as _ _ Ho2 _. injection P3 as _ _ Ho3 _.
  rewrite Ho3, Ho2, Ho1, to_int_id by done. done.
Qed.

(** After prepare and distribute: the active rows (all [beats] of them
    after a parameter message, fewer after an earlier bang) are distributed,
    and the buffer starts with their concatenation. *)
Lemma bang_distribute x bs :
  shape_ok x -> 1 <= s_beats x <= 64 -> -1 <= s_lastElement x <= s_beats x - 1 ->
  distribute (euclid_fuel (s_hits x)) (s_hits x) (s_beats x)
    (take (Z.to_nat (s_lastElement x + 1)) (initialize (s_hits x) (s_beats x))) = Some bs ->
  exists y, (euclid_prepare_sequence x ≫= fun x => euclid (euclid_fuel (s_hits x)) (s_hits x) (s_beats x) x)
            = Ok y /\ shape_ok y /\ rows_ok y /\ active y = bs /\
    s_beats y = s_beats x /\ s_hits y = s_hits x /\ s_thisOffset y = s_thisOffset x /\
    s_pingPongFlag y = s_pingPongFlag x /\ s_lastElement y = Z.of_nat (length bs) - 1 /\
    s_outputSequence y = foldl buf_strcat (buf_strcpy (s_outputSequence x) EmptyString) bs /\
    s_outputIntSequence y = (s_outputIntSequence x).[0 ↦ replicate (Z.to_nat (s_beats x)) 0].
Proof.
  intros Hsh Hb HL Hd. pose proof Hsh as (Hr & Hout & Hs).
  pose proof (length_initialize (s_hits x) (s_beats x)) as Hli.
  rewrite prepare_splice by (done || lia). rewrite res_bind_ok_l. autorewrite with euclid_rw.
  match goal with |- context [euclid _ _ _ ?x1] => set (x1' := x1) end.
  assert (Hok1 : rows_ok x1').
  { unfold x1', rows_ok. autorewrite with euclid_rw. rewrite length_splice by lia. lia. }
  assert (Hact1 : active x1' = take (Z.to_nat (s_lastElement x + 1)) (initialize (s_hits x) (s_beats x))).
  { unfold active, x1'. autorewrite with euclid_rw. apply take_splice_prefix; lia. }
  rewrite <- Hact1 in Hd.
  destruct (euclid_simulates _ _ _ _ _ Hok1 Hd) as (y & -> & Hok2 & Hact2 & Hfr & Hbuf).
  unfold frame, x1' in Hfr. autorewrite with euclid_rw in Hfr.
  injection Hfr as Hb2 Hh2 Ho2 Hout2 Hpp2.
  exists y. split; [done|]. split.
  { split; [apply Hok2|]. split.
    - rewrite Hout2, length_splice; rewrite ?length_replicate; lia.
    - rewrite Hbuf. etrans; [|apply length_foldl_strcat]. etrans; [|apply length_buf_strcpy]. done. }
  do 6 (split; [done|]). split; [|split; done].
  rewrite <- Hact2, length_active by done. destruct Hok2. lia.
Qed.

Lemma bang_sequence_spec x s :
  shape_ok x -> 1 <= s_beats x <= 64 -> 0 <= s_hits x -> 0 <= s_thisOffset x ->
  fits_int (s_hits x) -> fits_int (s_thisOffset x) ->
  s_lastElement x = s_beats x - 1 ->
  pattern (s_hits x) (s_beats x) = Some s ->
  exists y, euclid_bang_sequence x = Ok y /\ shape_ok y /\
    s_beats y = s_beats x /\ s_thisOffset y = s_thisOffset x /\
    s_pingPongFlag y = s_pingPongFlag x /\
    take (Z.to_nat (s_beats x)) (s_outputIntSequence y) =
      rotate_right (Z.to_nat (effective_offset (s_thisOffset x) (s_beats x))) (bits_of s).
Proof.
  intros Hsh Hb Hh Ho Fh Fo HL Hp.
  pose proof (length_pattern (s_hits x) (s_beats x) s Hh ltac:(lia) Hp) as Hlen.
  unfold pattern in Hp. apply fmap_Some in Hp as (bs & Hd & ->).
  destruct (distribute_inv _ _ _ _ _ _
    (conj (initialize_bits (s_hits x) (s_beats x)) (reflexivity _)) Hd) as [Hbits _].
  destruct (bang_distribute x bs Hsh Hb ltac:(lia)) as (y & Hy & Hsh2 & _ & _ & Hb2 & _ & Ho2 & Hpp2 & _ & Hbuf & _).
  { rewrite HL, Z.sub_add, take_ge by (rewrite length_initialize; lia). done. }
  apply res_bind_Ok in Hy as (x1 & Hx1 & Hy).
  rewrite bang_sequence_wide by (done || fits_int_auto). rewrite Hx1, res_bind_ok_l, Hy, res_bind_ok_l.
  pose proof Hsh2 as (_ & Hout2 & Hs2).
  rewrite string_to_int_splice by (done || lia). rewrite res_bind_ok_l.
  assert (Htake : take (Z.to_nat (s_beats y)) (s_outputSequence y) = chars bs).
  { rewrite Hbuf, Hb2, <- Hlen, <- length_list_ascii_of_string. apply take_holds.
    rewrite <- (app_nil_l (chars bs)). apply holds_foldl_strcat; [|by apply chars_nul_free].
    apply holds_strcpy_empty. destruct Hsh as (_ & _ & ?). lia. }
  rewrite Htake. change (map bit_of (chars bs)) with (bits_of (concat_buckets bs)).
  rewrite thisOffset_splice; [| apply shape_ok_set_outputIntSequence_len; [done|];
                              rewrite length_splice; rewrite ?length_bits_of; lia
                            | autorewrite with euclid_rw; lia | autorewrite with euclid_rw; lia].
  eexists. split; [reflexivity|]. autorewrite with euclid_rw. rewrite Hb2, Ho2, Hpp2.
  split; [apply shape_ok_set_outputIntSequence_len; [done|];
          rewrite !length_splice; rewrite ?length_rotate_right, ?length_take, ?length_bits_of; lia|].
  do 3 (split; [done|]).
  assert (Hl2 : (Z.to_nat (s_beats x) <= length (s_outputIntSequence y))%nat) by lia.
  rewrite (take_splice_front_n (s_outputIntSequence y) (bits_of (concat_buckets bs)))
    by (rewrite ?length_bits_of; lia).
  apply take_splice_front_n.
  - rewrite length_rotate_right, length_bits_of. lia.
  - rewrite length_splice; rewrite ?length_bits_of; lia.
Qed.

(** The first bang after a parameter message (all [beats] rows active)
    sends the pattern, rotated, mirrored when [s_pingPongFlag] is 1. *)
Theorem bang_fresh x s :
  shape_ok x -> 1 <= s_beats x <= 64 -> 0 <= s_hits x -> 0 <= s_thisOffset x ->
  fits_int (s_hits x) -> fits_int (s_thisOffset x) ->
  s_lastElement x = s_beats x - 1 -> pattern (s_hits x) (s_beats x) = Some s ->
  exists y, euclid_bang x = Ok (y, bang_output s (s_beats x) (s_thisOffset x) (s_pingPongFlag x)).
Proof.
  intros Hsh Hb Hh Ho Fh Fo HL Hp.
  pose proof (length_pattern (s_hits x) (s_beats x) s Hh ltac:(lia) Hp) as Hlen.
  destruct (bang_sequence_spec x s) as (y & Hy & Hsh' & Hb' & Ho' & Hpp & Ht); try done.
  unfold euclid_bang. rewrite Hy, res_bind_ok_l, <- Hb', <- Ho', <- Hpp.
  apply bang_output_spec; [done | lia | by rewrite Hb', Ho' | lia].
Qed.

(** ** The parameter inlets *)

(** [int]: the hits clamped to [0, beats], the active rows reset. *)
Lemma euclid_int_clamps x h :
  euclid_int x h =
  euclid_bang (set_lastElement (set_hits x (clamp_hits h (s_beats x))) (to_int (s_beats x - 1))).
Proof.
  unfold euclid_int, clamp_hits.
  destruct (Z.leb_spec h (s_beats x)), (Z.ltb_spec h 0); reflexivity.
Qed.

(** [in1]: the beats clamped to [1, 64], the active rows reset; the hits
    are left as they were. *)
Lemma euclid_in1_clamps x b :
  euclid_in1 x b =
  euclid_bang (set_lastElement (set_beats x (clamp_beats b)) (clamp_beats b - 1)).
Proof.
  unfold euclid_in1, clamp_beats.
  destruct (Z.gtb_spec b 64); [by rewrite to_int_id by fits_int_auto|].
  destruct (Z.gtb_spec b 0); [by rewrite to_int_id by fits_int_auto|reflexivity].
Qed.

(** [in2]: the offset clamped to [0, 128], the active rows reset. *)
Lemma euclid_in2_clamps x o :
  euclid_in2 x o =
  euclid_bang (set_thisOffset (set_lastElement x (to_int (s_beats x - 1))) (clamp_offset o)).
Proof.
  unfold euclid_in2, clamp_offset.
  destruct (Z.ltb_spec o 0); [reflexivity|]. destruct (Z.gtb_spec o 128); reflexivity.
Qed.

Lemma clamp_beats_id b : 1 <= b <= 64 -> clamp_beats b = b.
Proof. intros. unfold clamp_beats. destruct (Z.gtb_spec b 64), (Z.gtb_spec b 0); lia. Qed.

Lemma clamp_offset_id o : 0 <= o <= 128 -> clamp_offset o = o.
Proof. intros. unfold clamp_offset. destruct (Z.ltb_spec o 0), (Z.gtb_spec o 128); lia. Qed.

Lemma clamp_hits_range h b : 0 <= b -> 0 <= clamp_hits h b <= b.
Proof. intros. unfold clamp_hits. destruct (Z.ltb_spec h 0), (Z.leb_spec h b); lia. Qed.

Lemma clamp_beats_range b : 1 <= clamp_beats b <= 64.
Proof. unfold clamp_beats. destruct (Z.gtb_spec b 64), (Z.gtb_spec b 0); lia. Qed.

Lemma clamp_offset_range o : 0 <= clamp_offset o <= 128.
Proof. unfold clamp_offset. destruct (Z.ltb_spec o 0), (Z.gtb_spec o 128); lia. Qed.

Lemma shape_ok_set_scalars x h L :
  shape_ok x -> shape_ok (set_lastElement (set_hits x h) L).
Proof. done. Qed.

(** ** Bangs from any state *)

(** The number of atoms [euclid_bang] sends (lines 153 and 160): [beats],
    twice that in ping-pong mode. *)
Definition out_len (x : t_euclid) : nat :=
  Z.to_nat (if s_pingPongFlag x =? 1 then s_beats x * 2 else s_beats x).

(** Every stored integer is 0 or 1, as every atom the outlet sends. *)
Definition bits01 (l : list Z) : Prop := Forall (fun v => v = 0 \/ v = 1) l.

Lemma bits01_bit_of cs : bits01 (map bit_of cs).
Proof.
  unfold bits01. induction cs as [|c cs IH]; constructor; [|done].
  unfold bit_of. destruct (Ascii.eqb c ch1); auto.
Qed.

(** The stages after the distributor only rewrite [s_outputIntSequence],
    and keep it a sequence of bits. *)
Definition only_ints (x y : t_euclid) : Prop :=
  exists v, y = set_outputIntSequence x v /\ length v = 128%nat /\
    (bits01 (s_outputIntSequence x) -> bits01 v).

Lemma only_ints_shape x y : shape_ok x -> only_ints x y -> shape_ok y.
Proof. intros Hsh (v & -> & Hv & _). by apply shape_ok_set_outputIntSequence_len. Qed.

Lemma only_ints_bits x y : only_ints x y -> bits01 (s_outputIntSequence x) ->
  bits01 (s_outputIntSequence y).
Proof. intros (v & -> & _ & Hb) H. exact (Hb H). Qed.

Lemma string_to_int_ok x :
  shape_ok x -> 0 <= s_beats x <= 64 ->
  exists y, euclid_sequence_string_to_int x = Ok y /\ only_ints x y.
Proof.
  intros Hsh Hb. pose proof Hsh as (_ & Ho & Hs). rewrite string_to_int_splice by done.
  eexists. split; [reflexivity|]. eexists. split; [reflexivity|]. split.
  - rewrite length_splice; rewrite ?length_map, ?length_take; lia.
  - intros H. apply Forall_splice; [done|apply bits01_bit_of].
Qed.

Lemma thisOffset_ok x o :
  shape_ok x -> 1 <= s_beats x <= 64 -> 0 <= o ->
  exists y, euclid_thisOffset x o = Ok y /\ only_ints x y.
Proof.
  intros Hsh Hb Ho. pose proof Hsh as (_ & Hl & _). rewrite thisOffset_splice by done.
  eexists. split; [reflexivity|]. eexists. split; [reflexivity|]. split.
  - rewrite length_splice; rewrite ?length_rotate_right, ?length_take; lia.
  - intros H. apply Forall_splice; [done|]. by apply Forall_rotate_right, Forall_take.
Qed.

Lemma bang_output_ok x :
  shape_ok x -> 0 <= s_beats x <= 64 ->
  exists y out, euclid_bang_output x = Ok (y, out) /\ only_ints x y /\
    (bits01 (s_outputIntSequence x) -> bits01 out) /\ length out = out_len x.
Proof.
  intros Hsh Hb. pose proof Hsh as (_ & Hl & _). unfold euclid_bang_output, out_len.
  destruct (s_pingPongFlag x =? 1).
  - rewrite ping_pong_splice by done. rewrite res_bind_ok_l.
    set (v := splice _ _ _).
    assert (Hv : length v = 128%nat).
    { unfold v. rewrite length_splice; rewrite ?length_reverse, ?length_take; lia. }
    assert (Hbv : bits01 (s_outputIntSequence x) -> bits01 v).
    { intros H. apply Forall_splice; [done|]. by apply Forall_reverse, Forall_take. }
    rewrite output_atoms_spec; [| by apply shape_ok_set_outputIntSequence_len | simpl_fields; lia].
    do 2 eexists. split; [reflexivity|]. split; [by exists v|].
    simpl_fields. split; [intros H; by apply Forall_take, Hbv|]. rewrite length_take. lia.
  - rewrite output_atoms_spec by (done || lia). do 2 eexists. split; [reflexivity|].
    split; [|split; [by apply Forall_take|rewrite length_take; lia]].
    exists (s_outputIntSequence x). split; [by destruct x|done].
Qed.

(** A bang on an object whose active rows distribute: it succeeds, keeps
    the parameters, and leaves [s_lastElement] at the last bucket left,
    which is what the next bang starts from. *)
Theorem bang_stale x bs :
  shape_ok x -> 1 <= s_beats x <= 64 -> 0 <= s_thisOffset x ->
  fits_int (s_hits x) -> fits_int (s_thisOffset x) ->
  -1 <= s_lastElement x <= s_beats x - 1 ->
  distribute (euclid_fuel (s_hits x)) (s_hits x) (s_beats x)
    (take (Z.to_nat (s_lastElement x + 1)) (initialize (s_hits x) (s_beats x))) = Some bs ->
  exists y out, euclid_bang x = Ok (y, out) /\ shape_ok y /\
    s_beats y = s_beats x /\ s_hits y = s_hits x /\ s_thisOffset y = s_thisOffset x /\
    s_pingPongFlag y = s_pingPongFlag x /\ s_lastElement y = Z.of_nat (length bs) - 1 /\
    (bits01 (s_outputIntSequence x) -> bits01 (s_outputIntSequence y) /\ bits01 out) /\
    length out = out_len x /\ active y = bs /\
    s_outputSequence y = foldl buf_strcat (buf_strcpy (s_outputSequence x) EmptyString) bs.
Proof.
  intros Hsh Hb Ho Fh Fo HL Hd.
  destruct (bang_distribute x bs Hsh Hb HL Hd)
    as (y1 & Hy1 & Hsh1 & _ & Hact1 & Hb1 & Hh1 & Ho1 & Hpp1 & HL1 & Hbuf1 & Hi1).
  apply res_bind_Ok in Hy1 as (x0 & Hx0 & Hy1).
  destruct (string_to_int_ok y1 Hsh1 ltac:(lia)) as (y2 & Hy2 & H12).
  pose proof (only_ints_shape _ _ Hsh1 H12) as Hsh2.
  destruct (thisOffset_ok y2 (s_thisOffset y1) Hsh2) as (y3 & Hy3 & H23);
    [destruct H12 as (? & -> & _); simpl_fields; lia | lia |].
  pose proof (only_ints_shape _ _ Hsh2 H23) as Hsh3.
  destruct (bang_output_ok y3 Hsh3) as (y4 & out & Hy4 & H34 & Hout & Hlen);
    [destruct H12 as (? & -> & _), H23 as (? & -> & _); simpl_fields; lia|].
  pose proof (only_ints_shape _ _ Hsh3 H34) as Hsh4.
  exists y4, out.
  unfold euclid_bang. rewrite bang_sequence_wide by (done || fits_int_auto).
  rewrite Hx0, res_bind_ok_l, Hy1, res_bind_ok_l, Hy2.
  rewrite res_bind_ok_l. replace (s_thisOffset y2) with (s_thisOffset y1)
    by (destruct H12 as (? & -> & _); done).
  rewrite Hy3, res_bind_ok_l, Hy4. split; [done|]. split; [done|].
  destruct H12 as (v2 & -> & _ & B2), H23 as (v3 & -> & _ & B3), H34 as (v4 & -> & _ & B4).
  simpl_fields. split_and!; try lia.
  - intros Hx.
    assert (Hv3 : bits01 v3) by (apply B3, B2; rewrite Hi1; apply Forall_splice; [done|]; apply Forall_replicate; lia).
    split; [by apply B4|by apply Hout].
  - rewrite Hlen. unfold out_len. simpl_fields. by rewrite Hb1, Hpp1.
  - exact Hact1.
  - exact Hbuf1.
Qed.

(** C9: A bang does not reset s_lastElement: from any object with 1 to 64
    beats whose s_lastElement is L, the bang runs the distributor on the
    first L + 1 rows only, whatever buckets the last run left there, so
    its active rows become exactly what distribute computes from those L +
    1 initial rows, s_lastElement becomes their count minus one, the
    buffer holds a string of L + 1 characters, and hits, beats, offset and
    flag are unchanged. *)
Theorem bang_distributes_stale_rows x bs :
  shape_ok x -> 1 <= s_beats x <= 64 -> 0 <= s_thisOffset x ->
  fits_int (s_hits x) -> fits_int (s_thisOffset x) ->
  -1 <= s_lastElement x <= s_beats x - 1 ->
  distribute (euclid_fuel (s_hits x)) (s_hits x) (s_beats x)
    (take (Z.to_nat (s_lastElement x + 1)) (initialize (s_hits x) (s_beats x))) = Some bs ->
  exists y out, euclid_bang x = Ok (y, out) /\ active y = bs /\
    s_lastElement y = Z.of_nat (length bs) - 1 /\
    c_strlen (s_outputSequence y) = Z.to_nat (s_lastElement x + 1) /\
    params y = params x.
Proof.
  intros Hsh Hb Ho Fh Fo HL Hd. pose proof Hsh as (_ & _ & Hs).
  destruct (bang_stale x bs Hsh Hb Ho Fh Fo HL Hd)
    as (y & out & Hy & _ & Hb' & Hh' & Ho' & Hpp' & HL' & _ & _ & Hact & Hbuf).
  destruct (distribute_chars _ _ _ _ _ Hd) as [Hbits Hlen].
  exists y, out. split_and!; try done.
  - rewrite Hbuf. destruct (holds_strlen _ _ (holds_concat (s_outputSequence x) bs ltac:(lia) Hbits)) as [-> _].
    rewrite Hlen. lia.
  - unfold params. by rewrite Hh', Hb', Ho', Hpp'.
Qed.

Lemma bang_distributes_stale_rows_witness :
  exists y out, euclid_bang (set_lastElement sample_state 4) = Ok (y, out) /\ active y = ["10110"] /\
    s_lastElement y = Z.of_nat (length ["10110"]) - 1 /\
    c_strlen (s_outputSequence y) = Z.to_nat (s_lastElement (set_lastElement sample_state 4) + 1) /\
    params y = params (set_lastElement sample_state 4).
Proof. apply (bang_distributes_stale_rows (set_lastElement sample_state 4) ["10110"]); concrete. Defined.

(** A fresh object has no beats yet ([s_beats = 0]); a bang then sends
    nothing and changes no parameter. *)
Lemma thisOffset_zero_beats x : s_beats x = 0 -> euclid_thisOffset x 0 = Ok x.
Proof. intros Hb. unfold euclid_thisOffset, working_offset. rewrite Hb. reflexivity. Qed.

Lemma bang_output_zero_beats x : s_beats x = 0 -> euclid_bang_output x = Ok (x, []).
Proof.
  intros Hb. unfold euclid_bang_output, euclid_ping_pong, output_atoms. rewrite Hb.
  destruct (s_pingPongFlag x =? 1); simpl; rewrite ?Hb; reflexivity.
Qed.

Lemma distribute_hits_0 fuel b bs : distribute (S fuel) 0 b bs = Some bs.
Proof. simpl. by destruct (count_kinds bs). Qed.

(** With no beats, the distributor and the conversion leave the parameters
    as they were; the bang's outcome is decided by the rotation. *)
Lemma bang_zero_sequence x :
  shape_ok x -> s_beats x = 0 -> s_hits x = 0 -> fits_int (s_thisOffset x) ->
  -1 <= s_lastElement x <= 0 ->
  exists y, euclid_bang_sequence x = euclid_thisOffset y (s_thisOffset x) /\ shape_ok y /\
    s_beats y = 0 /\ s_hits y = 0 /\ s_thisOffset y = s_thisOffset x /\
    s_pingPongFlag y = s_pingPongFlag x /\ s_lastElement y = s_lastElement x /\
    (bits01 (s_outputIntSequence x) -> bits01 (s_outputIntSequence y)).
Proof.
  intros Hsh Hb Hh Fo HL. pose proof Hsh as (Hr & Hl & Hs).
  rewrite bang_sequence_wide by (rewrite ?Hb, ?Hh; done || fits_int_auto).
  rewrite prepare_splice by (done || lia).
  rewrite res_bind_ok_l. simpl_fields. rewrite Hb, Hh.
  match goal with |- context [euclid _ _ _ ?x1] => set (x1' := x1) end.
  assert (Hok1 : rows_ok x1').
  { unfold x1', rows_ok. simpl_fields. rewrite length_splice; simpl; lia. }
  destruct (euclid_simulates (euclid_fuel 0) 0 0 x1' (active x1') Hok1 (distribute_hits_0 _ _ _))
    as (y & -> & Hok2 & Hact2 & Hfr & Hbuf).
  rewrite res_bind_ok_l.
  unfold frame, x1' in Hfr. simpl_fields. injection Hfr as Hb2 Hh2 Ho2 Hout2 Hpp2.
  assert (Hsh2 : shape_ok y).
  { split; [apply Hok2|]. split; [rewrite Hout2, length_splice; simpl; lia|].
    rewrite Hbuf. unfold x1'. simpl_fields. etrans; [|apply length_foldl_strcat].
    etrans; [|apply length_buf_strcpy]. done. }
  destruct (string_to_int_ok y Hsh2 ltac:(lia)) as (y3 & -> & H23).
  pose proof (only_ints_shape _ _ Hsh2 H23) as Hsh3. destruct H23 as (v & -> & _ & Bv).
  rewrite res_bind_ok_l. eexists. split; [simpl_fields; rewrite Ho2; reflexivity|].
  split; [done|]. simpl_fields. split_and!; try lia;
    [|intros Hx; apply Bv; rewrite Hout2; by apply Forall_splice].
  apply (f_equal length) in Hact2. rewrite !length_active in Hact2 by done.
  unfold x1' in Hact2. simpl_fields. destruct Hok2. lia.
Qed.

Theorem bang_zero_beats x :
  shape_ok x -> s_beats x = 0 -> s_hits x = 0 -> s_thisOffset x = 0 ->
  -1 <= s_lastElement x <= 0 ->
  exists y, euclid_bang x = Ok (y, []) /\ shape_ok y /\
    s_beats y = 0 /\ s_hits y = 0 /\ s_thisOffset y = 0 /\
    s_pingPongFlag y = s_pingPongFlag x /\ s_lastElement y = s_lastElement x /\
    (bits01 (s_outputIntSequence x) -> bits01 (s_outputIntSequence y)).
Proof.
  intros Hsh Hb Hh Ho HL.
  destruct (bang_zero_sequence x Hsh Hb Hh ltac:(rewrite Ho; fits_int_auto) HL)
    as (y & Hy & Hsh1 & Hb1 & Hh1 & Ho1 & Hpp1 & HL1 & B1).
  unfold euclid_bang. rewrite Hy, Ho, thisOffset_zero_beats by done.
  rewrite res_bind_ok_l, bang_output_zero_beats by done. eexists. split; [reflexivity|]. split; [done|].
  split_and!; done || lia.
Qed.

(** With no beats, a positive offset makes [euclid_thisOffset] divide by
    zero ([thisOffset % beats], line 178). *)
Theorem bang_zero_beats_offset x :
  shape_ok x -> s_beats x = 0 -> s_hits x = 0 -> 0 < s_thisOffset x -> fits_int (s_thisOffset x) ->
  -1 <= s_lastElement x <= 0 ->
  euclid_bang x = Err DivisionByZero.
Proof.
  intros Hsh Hb Hh Ho Fo HL.
  destruct (bang_zero_sequence x Hsh Hb Hh Fo HL) as (y & Hy & _ & Hb1 & _).
  unfold euclid_bang. rewrite Hy. unfold euclid_thisOffset, working_offset. rewrite Hb1.
  by rewrite (proj2 (Z.gtb_lt _ _) Ho).
Qed.

(** ** The frame of a bang

    A bang changes the object only through the primitive writes, so it
    keeps every property closed under them: the arrays stay at their C
    lengths ([shape_ok]) and the parameters stay as the inlets left them
    ([params]). *)
Section Frame.
Context (P : t_euclid -> Prop) `{!WriteClosed P}.

Lemma bang_output_preserves x y out : P x -> euclid_bang_output x = Ok (y, out) -> P y.
Proof.
  intros Hx. unfold euclid_bang_output. destruct (s_pingPongFlag x =? 1).
  - intros (t & Ht & (a & _ & [= <- _])%res_bind_Ok)%res_bind_Ok. exact (ping_pong_preserves P _ _ Hx Ht).
  - by intros (a & _ & [= <- _])%res_bind_Ok.
Qed.

Lemma bang_preserves x y out : P x -> euclid_bang x = Ok (y, out) -> P y.
Proof.
  intros Hx. unfold euclid_bang, euclid_bang_sequence.
  intros (t4 & H4 & Hout)%res_bind_Ok.
  apply res_bind_Ok in H4 as (t1 & H1 & H4). apply res_bind_Ok in H4 as (t2 & H2 & H4).
  apply res_bind_Ok in H4 as (t3 & H3 & H4).
  apply (bang_output_preserves t4 y out); [|done].
  eapply (thisOffset_preserves P t3); [|exact H4].
  eapply (string_to_int_preserves P t2); [|exact H3].
  eapply (euclid_preserves P _ _ _ t1); [|exact H2].
  exact (prepare_preserves P _ _ Hx H1).
Qed.
End Frame.

Lemma bang_shape x y out : shape_ok x -> euclid_bang x = Ok (y, out) -> shape_ok y.
Proof. apply bang_preserves, _. Qed.

(** A bang leaves hits, beats, offset and the ping-pong flag as they were. *)
Lemma bang_params x y out : euclid_bang x = Ok (y, out) -> params y = params x.
Proof. intros H. by eapply (bang_preserves (fun y => params y = params x)). Qed.

#[export] Hint Resolve bang_shape : euclid.

Lemma euclid_int_shape x h y out : shape_ok x -> euclid_int x h = Ok (y, out) -> shape_ok y.
Proof. rewrite euclid_int_clamps. intros Hx H. eapply bang_shape; [|exact H]. exact Hx. Qed.

Lemma euclid_in1_shape x b y out : shape_ok x -> euclid_in1 x b = Ok (y, out) -> shape_ok y.
Proof. rewrite euclid_in1_clamps. intros Hx H. eapply bang_shape; [|exact H]. exact Hx. Qed.

Lemma euclid_in2_shape x o y out : shape_ok x -> euclid_in2 x o = Ok (y, out) -> shape_ok y.
Proof. rewrite euclid_in2_clamps. intros Hx H. eapply bang_shape; [|exact H]. exact Hx. Qed.

(** C13: in1 stores its argument clamped to [1, 64] as beats and leaves hits,
    offset and flag as they were: hits are not clamped to the new beats,
    so after int 8 with 8 beats, in1 4 leaves 8 hits for 4 beats, outside
    the spec's hits <= beats. *)
Theorem in1_keeps_hits x b y out :
  euclid_in1 x b = Ok (y, out) ->
  s_beats y = clamp_beats b /\ s_hits y = s_hits x /\ s_thisOffset y = s_thisOffset x /\
  s_pingPongFlag y = s_pingPongFlag x.
Proof. rewrite euclid_in1_clamps. intros H%bang_params. by injection H as -> -> -> ->. Qed.

Lemma in1_keeps_hits_witness :
  match euclid_in1 (set_hits sample_state 8) 4 with
  | Ok (y, _) => s_beats y = 4 /\ s_hits y = 8 /\ s_thisOffset y = s_thisOffset sample_state /\
                 s_pingPongFlag y = s_pingPongFlag sample_state
  | Err _ => False
  end.
Proof.
  destruct (euclid_in1 (set_hits sample_state 8) 4) as [[y o]|e] eqn:E; [|vm_compute in E; discriminate].
  exact (in1_keeps_hits (set_hits sample_state 8) 4 y o E).
Defined.
