(* ===== verification/Rhythm.v ===== *)
(** * How even the patterns are

    The spec calls the patterns Euclidean rhythms and asks (section 9) to
    compare them with Bjorklund's construction.  This file defines the hit
    positions of a pattern and the cyclic gaps between consecutive hits,
    and shows over the whole domain that every gap is floor(b/h) or
    ceil(b/h) and that a pattern starts with a hit; it also shows that the
    code's pattern for 4 hits in 10 beats is no rotation of the canonical
    E(4,10). *)
From Stdlib Require Import ZArith Lia Ascii String.
From stdpp Require Import base list strings decidable.
From S2P Require Import Prelude CRuntime EuclidState Buckets Distributor PostProcess Handlers.
Open Scope Z_scope.

(** ** Evenness *)

(** Indices of the hits, and the distances from each hit to the next one,
    wrapping around the cycle of [n] steps. *)
Definition hit_positions (l : list Z) : list nat :=
  filter (fun i => l !! i = Some 1) (seq 0 (length l)).

Definition cyclic_gaps (n : nat) (ps : list nat) : list nat :=
  match ps with
  | [] => []
  | p0 :: ps' => zip_with (fun a b => b - a)%nat ps (ps' ++ [(p0 + n)%nat])
  end.

Definition evenly_spaced (h b : Z) (l : list Z) : bool :=
  forallb (fun g => (Z.of_nat g =? b / h) || (Z.of_nat g =? (b + h - 1) / h))
    (cyclic_gaps (length l) (hit_positions l)).

Lemma evenly_spaced_test :
  for_all_params (fun b => b)
    (fun h b => match pattern h b with
                | Some s => (h =? 0) || evenly_spaced h b (bits_of s)
                | None => false end) = true.
Proof. vm_compute. reflexivity. Qed.

(** C8: For 1 <= hits <= beats <= 64, the distance from each hit of the
    pattern to the next one, around the cycle, is floor(beats / hits) or
    ceil(beats / hits). *)
Theorem pattern_evenly_spaced h b s g :
  1 <= h <= b -> b <= 64 -> pattern h b = Some s ->
  g ∈ cyclic_gaps (length (bits_of s)) (hit_positions (bits_of s)) ->
  Z.of_nat g = b / h \/ Z.of_nat g = (b + h - 1) / h.
Proof.
  intros Hh Hb Hp Hg.
  pose proof (pattern_test_some _ _ h b s evenly_spaced_test ltac:(lia) ltac:(lia) Hp) as H.
  cbv beta in H. rewrite (proj2 (Z.eqb_neq h 0)) in H by lia. simpl in H.
  unfold evenly_spaced in H. rewrite forallb_forall in H.
  apply list_elem_of_In, H, orb_true_iff in Hg as [Hg|Hg]; apply Z.eqb_eq in Hg; auto.
Qed.

Lemma pattern_evenly_spaced_witness : Z.of_nat 3 = 8 / 3 \/ Z.of_nat 3 = (8 + 3 - 1) / 3.
Proof. apply (pattern_evenly_spaced 3 8 "10010100" 3); concrete. Defined.


(** The first step of the cycle is a hit whenever there is one. *)
Lemma first_hit_test :
  for_all_params (fun b => b)
    (fun h b => match pattern h b with
                | Some s => (h =? 0) || bool_decide (head (hit_positions (bits_of s)) = Some 0%nat)
                | None => false end) = true.
Proof. vm_compute. reflexivity. Qed.

(** C24: For 1 <= hits <= beats <= 64 the first hit of the pattern is at
    position 0. *)
Theorem pattern_starts_with_hit h b s :
  1 <= h <= b -> b <= 64 -> pattern h b = Some s -> head (hit_positions (bits_of s)) = Some 0%nat.
Proof.
  intros Hh Hb Hp.
  pose proof (pattern_test_some _ _ h b s first_hit_test ltac:(lia) ltac:(lia) Hp) as H.
  cbv beta in H. rewrite (proj2 (Z.eqb_neq h 0)) in H by lia. simpl in H.
  by apply bool_decide_eq_true in H.
Qed.

Lemma pattern_starts_with_hit_witness : head (hit_positions (bits_of "10010100")) = Some 0%nat.
Proof. apply (pattern_starts_with_hit 3 8); concrete. Defined.

(** ** The Bjorklund / Bresenham Euclidean rhythm *)

(** Step [i] of E(h, b) is a hit when [i * h mod b < h]; E(3,8) is
    [x . . x . . x .]. *)
Definition euclidean_rhythm (h b : Z) : list Z :=
  map (fun i => if (i * h) mod b <? h then 1 else 0) (seqZ 0 b).

Lemma rotate_right_ge (k : nat) (l : list Z) :
  (length l <= k)%nat -> rotate_right k l = rotate_right (length l) l.
Proof. intros H. unfold rotate_right. rewrite Nat.sub_diag. by replace (length l - k)%nat with 0%nat by lia. Qed.

(** For 4 hits in 10 beats the code's pattern is 1001001010, which is no
    rotation of the Bjorklund rhythm E(4,10). *)
Theorem pattern_4_10_not_euclidean :
  pattern 4 10 = Some "1001001010" /\
  forall k, rotate_right k (euclidean_rhythm 4 10) <> bits_of "1001001010".
Proof.
  split; [vm_compute; reflexivity|]. intros k.
  assert (Hall : Forall (fun k => rotate_right k (euclidean_rhythm 4 10) <> bits_of "1001001010")
                   (seq 0 11)).
  { apply Forall_forall. intros j Hj. apply in_seq in Hj.
    do 11 (destruct j as [|j]; [vm_compute; discriminate|]). lia. }
  destruct (decide (k <= 10)%nat) as [Hk|Hk].
  - apply (proj1 (Forall_forall _ _) Hall). apply in_seq. lia.
  - rewrite rotate_right_ge by (vm_compute; lia).
    apply (proj1 (Forall_forall _ _) Hall). apply in_seq. vm_compute. lia.
Qed.
