(* ===== verification/Contract.v ===== *)
(** * The contract of the spec and the inlets that implement it

    [generate] is the function-call contract of the spec's section 6:
    clamp the raw parameters, compute the pattern, rotate it by the
    effective offset, mirror it in ping-pong mode.  The theorems show that
    each parameter inlet ([euclid_int], [euclid_in1], [euclid_in2]) sends
    exactly [generate]'s output, that [generate] is total with outputs of
    the promised length, and evaluate the fixtures of the spec's section 8
    on it. *)
From Stdlib Require Import ZArith Lia Ascii String.
From stdpp Require Import base list strings decidable.
From S2P Require Import Prelude CRuntime EuclidState Buckets Distributor PostProcess Handlers.
Open Scope Z_scope.

(** ** The contract (spec, section 6) *)

Definition generate (hits beats offset : Z) (ping_pong : bool) : option (list Z) :=
  let b := clamp_beats beats in
  let h := clamp_hits hits b in
  s ← pattern h b;
  let r := rotate_right (Z.to_nat (effective_offset (clamp_offset offset) b)) (bits_of s) in
  Some (if ping_pong then mirror r else r).

(** ** Hits above beats *)

(** The stored hits can exceed the beats after a later [in1] lowers them;
    the pattern is then the all-hits pattern of [clamp_hits]. *)
Lemma pattern_clamp_test :
  for_all_params (fun _ => 64)
    (fun h b => bool_decide (pattern h b = pattern (clamp_hits h b) b)) = true.
Proof. vm_compute. reflexivity. Qed.

Theorem pattern_clamp h b :
  0 <= h <= 64 -> 1 <= b <= 64 -> pattern h b = pattern (clamp_hits h b) b.
Proof.
  intros Hh Hb. pose proof (for_all_params_sound _ _ h b pattern_clamp_test Hb Hh) as H.
  cbv beta in H. by apply bool_decide_eq_true in H.
Qed.

(** Refinement of the contract: on an object whose beats and offset are in
    range, an [int] message sends exactly what [generate] specifies. *)
Theorem int_refines_generate x h out :
  shape_ok x -> 1 <= s_beats x <= 64 -> 0 <= s_thisOffset x <= 128 ->
  generate h (s_beats x) (s_thisOffset x) (s_pingPongFlag x =? 1) = Some out ->
  exists y, euclid_int x h = Ok (y, out).
Proof.
  intros Hsh Hb Ho Hg. unfold generate in Hg.
  rewrite clamp_beats_id, clamp_offset_id in Hg by done.
  apply bind_Some in Hg as (s & Hp & [= <-]).
  rewrite euclid_int_clamps, (to_int_id (s_beats x - 1)) by fits_int_auto.
  pose proof (clamp_hits_range h (s_beats x) ltac:(lia)).
  destruct (bang_fresh (set_lastElement (set_hits x (clamp_hits h (s_beats x))) (s_beats x - 1)) s)
    as (y & Hy); simpl; try (done || lia || fits_int_auto).
  exists y. rewrite Hy. unfold bang_output. simpl. by destruct (s_pingPongFlag x =? 1).
Qed.

(** ** Every parameter message sends the contract's output *)

Lemma clamp_hits_idem h b : 0 <= b -> clamp_hits (clamp_hits h b) b = clamp_hits h b.
Proof. intros. unfold clamp_hits at 1. pose proof (clamp_hits_range h b H).
  destruct (Z.ltb_spec (clamp_hits h b) 0), (Z.leb_spec (clamp_hits h b) b); lia. Qed.

Lemma clamp_beats_idem b : clamp_beats (clamp_beats b) = clamp_beats b.
Proof. apply clamp_beats_id, clamp_beats_range. Qed.

(** A bang right after the active rows were reset sends [generate]'s output
    for the stored parameters. *)
Lemma bang_generate x :
  shape_ok x -> 1 <= s_beats x <= 64 -> 0 <= s_hits x <= 64 -> 0 <= s_thisOffset x <= 128 ->
  s_lastElement x = s_beats x - 1 ->
  exists y out, euclid_bang x = Ok (y, out) /\
    generate (s_hits x) (s_beats x) (s_thisOffset x) (s_pingPongFlag x =? 1) = Some out.
Proof.
  intros Hsh Hb Hh Ho HL.
  destruct (pattern_some (s_hits x) (s_beats x) Hh Hb) as [s Hp].
  destruct (bang_fresh x s) as [y Hy]; try (done || lia || fits_int_auto).
  exists y, (bang_output s (s_beats x) (s_thisOffset x) (s_pingPongFlag x)). split; [done|].
  unfold generate. rewrite clamp_beats_id, clamp_offset_id by done.
  rewrite <- pattern_clamp, Hp by done. simpl. unfold bang_output.
  by destruct (s_pingPongFlag x =? 1).
Qed.

(** C3: On an object of C shape with 1 to 64 beats and an offset in [0, 128],
    an int message of any value succeeds and sends exactly the list the
    contract generate computes from the hits clamped to [0, beats], the
    beats, the offset and the ping-pong flag. *)
Theorem int_sends_generate x h :
  shape_ok x -> 1 <= s_beats x <= 64 -> 0 <= s_thisOffset x <= 128 ->
  exists y out, euclid_int x h = Ok (y, out) /\
    generate h (s_beats x) (s_thisOffset x) (s_pingPongFlag x =? 1) = Some out.
Proof.
  intros Hsh Hb Ho. rewrite euclid_int_clamps, (to_int_id (s_beats x - 1)) by fits_int_auto.
  pose proof (clamp_hits_range h (s_beats x) ltac:(lia)).
  destruct (bang_generate (set_lastElement (set_hits x (clamp_hits h (s_beats x))) (s_beats x - 1)))
    as (y & out & Hy & Hg); simpl; try done || lia.
  exists y, out. split; [done|]. rewrite <- Hg. unfold generate.
  simpl_fields. rewrite !clamp_beats_id by done. by rewrite clamp_hits_idem by lia.
Qed.

Lemma int_sends_generate_witness :
  exists y out, euclid_int sample_state 5 = Ok (y, out) /\ generate 5 8 0 false = Some out.
Proof. apply (int_sends_generate sample_state 5); concrete. Defined.


(** C21: On an object of C shape with hits in [0, 64] and an offset in [0,
    128], an in1 message of any value succeeds and sends what generate
    computes from the stored hits and offset and the new beats, even when
    the stored hits now exceed the beats. *)
Theorem in1_sends_generate x b :
  shape_ok x -> 0 <= s_hits x <= 64 -> 0 <= s_thisOffset x <= 128 ->
  exists y out, euclid_in1 x b = Ok (y, out) /\
    generate (s_hits x) b (s_thisOffset x) (s_pingPongFlag x =? 1) = Some out.
Proof.
  intros Hsh Hh Ho. rewrite euclid_in1_clamps. pose proof (clamp_beats_range b).
  destruct (bang_generate (set_lastElement (set_beats x (clamp_beats b)) (clamp_beats b - 1)))
    as (y & out & Hy & Hg); simpl; try done || lia.
  exists y, out. split; [done|]. rewrite <- Hg. unfold generate. simpl_fields.
  by rewrite clamp_beats_idem.
Qed.

Lemma in1_sends_generate_witness :
  exists y out, euclid_in1 sample_state 100 = Ok (y, out) /\ generate 3 100 0 false = Some out.
Proof. apply (in1_sends_generate sample_state 100); concrete. Defined.


(** C22: On an object of C shape with 1 to 64 beats and hits in [0, 64], an
    in2 message of any value succeeds and sends what generate computes
    from the stored hits and beats and the new offset clamped to [0, 128]. *)
Theorem in2_sends_generate x o :
  shape_ok x -> 1 <= s_beats x <= 64 -> 0 <= s_hits x <= 64 ->
  exists y out, euclid_in2 x o = Ok (y, out) /\
    generate (s_hits x) (s_beats x) o (s_pingPongFlag x =? 1) = Some out.
Proof.
  intros Hsh Hb Hh. rewrite euclid_in2_clamps, (to_int_id (s_beats x - 1)) by fits_int_auto. pose proof (clamp_offset_range o).
  destruct (bang_generate (set_thisOffset (set_lastElement x (s_beats x - 1)) (clamp_offset o)))
    as (y & out & Hy & Hg); simpl; try done || lia.
  exists y, out. split; [done|]. rewrite <- Hg. unfold generate.
  simpl_fields. rewrite !clamp_beats_id by done.
  by rewrite (clamp_offset_id (clamp_offset o)) by done.
Qed.

Lemma in2_sends_generate_witness :
  exists y out, euclid_in2 sample_state 11 = Ok (y, out) /\ generate 3 8 11 false = Some out.
Proof. apply (in2_sends_generate sample_state 11); concrete. Defined.

(** ** The fixtures of the spec's section 8 *)

Example generate_empty_fixture : generate 0 8 0 false = Some (replicate 8 0).
Proof. vm_compute. reflexivity. Qed.

Example generate_full_fixture : generate 8 8 0 false = Some (replicate 8 1).
Proof. vm_compute. reflexivity. Qed.

(** For 3 hits in 8 beats without offset the code sends 1,0,0,1,0,1,0,0,
    not the spec's canonical fixture 1,0,0,1,0,0,1,0. *)
Example generate_tresillo_divergence :
  generate 3 8 0 false = Some [1; 0; 0; 1; 0; 1; 0; 0] /\
  generate 3 8 0 false <> Some [1; 0; 0; 1; 0; 0; 1; 0].
Proof. vm_compute. split; [reflexivity|discriminate]. Qed.

(** The offset fixture: the code rotates its own E(3,8) pattern right by
    3, which is not the rotation of the spec's pattern. *)
Example generate_offset_fixture :
  generate 3 8 3 false = Some (rotate_right 3 [1; 0; 0; 1; 0; 1; 0; 0]) /\
  generate 3 8 3 false <> Some (rotate_right 3 [1; 0; 0; 1; 0; 0; 1; 0]).
Proof. vm_compute. split; [reflexivity|discriminate]. Qed.

Example generate_clamp_fixture :
  generate (-5) 8 0 false = generate 0 8 0 false /\
  forall o pp, generate 100 8 o pp = generate 8 8 o pp.
Proof. split; [vm_compute; reflexivity|]. intros o pp. reflexivity. Qed.
