(* ===== verification/Machine.v ===== *)
(** * The object as a state machine

    [message] lists the messages [main] registers (lines 78-89) and
    [dispatch] runs the method each one selects; [reachable] holds of
    [euclid_new] and of every state a message leads to from a reachable
    one, and [run] plays a patch's messages in order.

    Every reachable state satisfies [inv]: the rows and the integers at
    their C lengths, the byte buffer at least its 64 bytes (it grows where
    the C code writes past it), the parameters in their clamped ranges,
    [s_lastElement] between -1 and the last beat, and only bits in
    [s_outputIntSequence].  From such a state a parameter message leaves
    exactly beats characters and the NUL at index beats, one past the
    buffer at 64 beats; with 1 to 63 beats and in1 arguments up to 63
    every write stays inside the declared arrays; and [in2] with a
    positive offset while the object has no beats yet divides by zero in
    [euclid_thisOffset] (line 327).

    The one fact about the distributor used here, that a bang from a stale
    [s_lastElement] still distributes and never increases it, is a test
    over the [64 * 65 * 65] possible triples, decided by the VM. *)
From Stdlib Require Import ZArith Lia Ascii String.
From stdpp Require Import base list strings decidable.
From S2P Require Import Prelude CRuntime EuclidState Buckets Distributor PostProcess Handlers.
Open Scope Z_scope.

(** ** Messages *)

Inductive message : Type :=
| MsgBang
| MsgInt (hits : Z)
| MsgIn1 (beats : Z)
| MsgIn2 (thisOffset : Z)
| MsgPingPong (v : Z).

(** The method table: each message and the atoms it sends, if any. *)
Definition dispatch (m : message) (x : t_euclid) : res (t_euclid * option (list Z)) :=
  let emit r := '(y, out) ← r; Ok (y, Some out) in
  match m with
  | MsgBang => emit (euclid_bang x)
  | MsgInt h => emit (euclid_int x h)
  | MsgIn1 b => emit (euclid_in1 x b)
  | MsgIn2 o => emit (euclid_in2 x o)
  | MsgPingPong v => Ok (euclid_set_pingpong x v, None)
  end.

Inductive reachable : t_euclid -> Prop :=
| reachable_new : reachable euclid_new
| reachable_step m x y out : reachable x -> dispatch m x = Ok (y, out) -> reachable y.

(** Run a patch's messages in order, collecting what the outlet sends. *)
Fixpoint run (ms : list message) (x : t_euclid) : res (t_euclid * list (list Z)) :=
  match ms with
  | [] => Ok (x, [])
  | m :: ms' =>
      '(y, out) ← dispatch m x;
      '(z, outs) ← run ms' y;
      Ok (z, match out with Some o => o :: outs | None => outs end)
  end.

(** The messages that set a parameter ([int], [in1], [in2]): each resets
    the active rows and bangs. *)
Definition param_msg (m : message) : Prop :=
  match m with MsgInt _ | MsgIn1 _ | MsgIn2 _ => True | _ => False end.

(** The object a parameter message bangs: the stored parameter clamped as
    in lines 171-214, [s_lastElement] at the last beat. *)
Definition pre_bang (m : message) (x : t_euclid) : t_euclid :=
  match m with
  | MsgInt h => set_lastElement (set_hits x (clamp_hits h (s_beats x))) (s_beats x - 1)
  | MsgIn1 b => set_lastElement (set_beats x (clamp_beats b)) (clamp_beats b - 1)
  | MsgIn2 o => set_thisOffset (set_lastElement x (s_beats x - 1)) (clamp_offset o)
  | _ => x
  end.

(** The messages that write the buffer and the rows: all but the
    attribute. *)
Definition writes (m : message) : Prop :=
  match m with MsgPingPong _ => False | _ => True end.

(** The messages that keep the beats at 63 or fewer: [in1] with an
    argument of at most 63, and every other message. *)
Definition in_envelope (m : message) : Prop :=
  match m with MsgIn1 b => b <= 63 | _ => True end.

(** ** Bangs from a stale [s_lastElement] *)

(** After a bang, [s_lastElement] is the index of the last bucket left, and
    the next bang distributes only that many rows of [initialize]. *)
Lemma stale_test :
  for_all_params (fun _ => 64)
    (fun h b => forall_range
       (fun L => match distribute (euclid_fuel h) h b (take (Z.to_nat (L + 1)) (initialize h b)) with
                 | Some bs => Z.of_nat (length bs) - 1 <=? L
                 | None => false
                 end) (-1) (b - 1)) = true.
Proof. vm_cast_no_check (eq_refl true). Qed.

Lemma stale_distribute h b L :
  0 <= h <= 64 -> 1 <= b <= 64 -> -1 <= L <= b - 1 ->
  exists bs, distribute (euclid_fuel h) h b (take (Z.to_nat (L + 1)) (initialize h b)) = Some bs /\
    Z.of_nat (length bs) - 1 <= L.
Proof.
  intros Hh Hb HL. pose proof (for_all_params_sound _ _ h b stale_test Hb Hh) as H.
  cbv beta in H. apply (forall_range_sound _ (-1) (b - 1) L H) in HL.
  destruct (distribute _ _ _ _) as [bs|]; [|discriminate].
  exists bs. split; [done|]. by apply Z.leb_le.
Qed.

(** ** The invariant *)

Definition inv (x : t_euclid) : Prop :=
  shape_ok x /\ 0 <= s_beats x <= 64 /\ 0 <= s_hits x <= 64 /\ 0 <= s_thisOffset x <= 128 /\
  -1 <= s_lastElement x <= Z.max 0 (s_beats x - 1) /\
  (s_beats x = 0 -> s_hits x = 0 /\ s_thisOffset x = 0) /\
  bits01 (s_outputIntSequence x).

Lemma inv_new : inv euclid_new.
Proof.
  unfold inv, shape_ok. cbn -[buf_strcpy replicate]. rewrite length_replicate.
  split_and!; try lia; try (vm_compute; lia). apply Forall_replicate. lia.
Qed.

(** A bang from any state of the invariant succeeds, keeps it, and sends
    bits. *)
Lemma bang_inv x :
  inv x -> exists y out, euclid_bang x = Ok (y, out) /\ inv y /\ bits01 out /\ length out = out_len y.
Proof.
  intros (Hsh & Hb & Hh & Ho & HL & H0 & Hbits).
  destruct (decide (s_beats x = 0)) as [Hb0|Hb0].
  - destruct (H0 Hb0) as [Hh0 Ho0].
    destruct (bang_zero_beats x Hsh Hb0 Hh0 Ho0 ltac:(lia))
      as (y & Hy & Hsh' & Hb' & Hh' & Ho' & _ & HL' & B').
    exists y, []. split; [done|]. split; [|split; [constructor|]].
    + split_and!; try done; try lia. by apply B'.
    + unfold out_len. rewrite Hb'. by destruct (_ =? 1).
  - destruct (stale_distribute (s_hits x) (s_beats x) (s_lastElement x)) as (bs & Hd & Hbs); try lia.
    destruct (bang_stale x bs Hsh ltac:(lia) ltac:(lia) ltac:(fits_int_auto) ltac:(fits_int_auto)
                ltac:(lia) Hd)
      as (y & out & Hy & Hsh' & Hb' & Hh' & Ho' & Hpp' & HL' & B' & Hlen & _ & _).
    destruct (B' Hbits) as [B1 B2].
    exists y, out. split; [done|]. split; [|split; [done|]].
    + split_and!; try done; lia.
    + rewrite Hlen. unfold out_len. by rewrite Hb', Hpp'.
Qed.

Lemma emit_bang_inv x r :
  r = euclid_bang x -> inv x ->
  exists y out, (r ≫= fun '(y, out) => Ok (y, Some out)) = Ok (y, Some out) /\ inv y /\
    bits01 out /\ length out = out_len y.
Proof.
  intros -> Hx. destruct (bang_inv x Hx) as (y & out & Hy & Hinv & B).
  exists y, out. by rewrite Hy.
Qed.

(** One message from a state of the invariant. *)
Lemma dispatch_inv x m :
  inv x ->
  (exists y out, dispatch m x = Ok (y, out) /\ inv y /\
     (forall o, out = Some o -> bits01 o /\ length o = out_len y)) \/
  (s_beats x = 0 /\ exists o, m = MsgIn2 o /\ 0 < o /\ dispatch m x = Err DivisionByZero).
Proof.
  intros Hx. pose proof Hx as (Hsh & Hb & Hh & Ho & HL & H0 & Hbits).
  assert (Hemit : forall x', euclid_bang x' = euclid_bang x' -> inv x' ->
    exists y out, (euclid_bang x' ≫= fun '(y, out) => Ok (y, Some out)) = Ok (y, Some out) /\
      inv y /\ (forall o, Some out = Some o -> bits01 o /\ length o = out_len y)).
  { intros x' _ Hx'. destruct (emit_bang_inv x' _ eq_refl Hx') as (y & out & E & Hy & B).
    exists y, out. split_and!; [done|done|]. by intros o [= <-]. }
  destruct m as [|h|b|o|v]; simpl.
  - left. destruct (Hemit x eq_refl Hx) as (y & out & ?). eauto.
  - left. rewrite euclid_int_clamps, (to_int_id (s_beats x - 1)) by fits_int_auto. pose proof (clamp_hits_range h (s_beats x) ltac:(lia)).
    edestruct Hemit as (y & out & ?); [reflexivity| |eauto].
    split_and!; simpl; try done; lia.
  - left. rewrite euclid_in1_clamps. pose proof (clamp_beats_range b).
    edestruct Hemit as (y & out & ?); [reflexivity| |eauto].
    split_and!; simpl; try done; lia.
  - rewrite euclid_in2_clamps, (to_int_id (s_beats x - 1)) by fits_int_auto. pose proof (clamp_offset_range o).
    destruct (decide (s_beats x = 0 /\ 0 < o)) as [[Hb0 Ho0]|Hno].
    + right. split; [done|]. exists o. split_and!; [done|done|].
      destruct (H0 Hb0) as [Hh0 _].
      rewrite bang_zero_beats_offset; simpl; try done; try lia; try fits_int_auto.
      unfold clamp_offset. destruct (Z.ltb_spec o 0), (Z.gtb_spec o 128); lia.
    + left. edestruct Hemit as (y & out & ?); [reflexivity| |eauto].
      split_and!; simpl; try done; try lia.
      intros Hb0. split; [by destruct (H0 Hb0)|].
      unfold clamp_offset. destruct (Z.ltb_spec o 0), (Z.gtb_spec o 128); lia.
  - left. exists (euclid_set_pingpong x v), None. split; [done|]. split; [|done].
    exact Hx.
Qed.

Lemma emit_Ok (r : res (t_euclid * list Z)) y out :
  ('(y, out) ← r; Ok (y, Some out)) = Ok (y, out) -> exists o, r = Ok (y, o) /\ out = Some o.
Proof. destruct r as [[y' o]|e]; simpl; [intros [= -> <-]; by exists o|discriminate]. Qed.

(** ** Every reachable state satisfies the invariant *)

Lemma inv_of_reachable x : reachable x -> inv x.
Proof.
  induction 1 as [|m x y out _ IH Hd]; [exact inv_new|].
  destruct (dispatch_inv x m IH) as [(y' & out' & Hd' & Hy & _)|(_ & o & _ & _ & He)];
    congruence.
Qed.

(** From a reachable state, a message either succeeds, into a reachable
    state, sending bits only, or is [in2] with a positive offset on an
    object without beats, and divides by zero. *)
Lemma reachable_dispatch x m :
  reachable x ->
  (exists y out, dispatch m x = Ok (y, out) /\ reachable y /\
     (forall o, out = Some o -> bits01 o /\ length o = out_len y)) \/
  (s_beats x = 0 /\ exists o, m = MsgIn2 o /\ 0 < o /\ dispatch m x = Err DivisionByZero).
Proof.
  intros Hr. destruct (dispatch_inv x m (inv_of_reachable x Hr))
    as [(y & out & Hd & _ & B)|He]; [|by right].
  left. exists y, out. split_and!; [done| |done]. exact (reachable_step m x y out Hr Hd).
Qed.

(** C5: Every state reachable from euclid_new through the method table keeps
    s_Sequence at exactly 64 rows and s_outputIntSequence at exactly 128
    integers, s_outputSequence at no fewer than its 64 declared bytes (the
    model's buffer grows past 64 exactly where the C code writes past the
    array, after in1 with 64 beats), beats in [0, 64], hits in [0, 64],
    offset in [0, 128], s_lastElement in [-1, max(0, beats - 1)], hits and
    offset at 0 while beats is 0, and only 0s and 1s in
    s_outputIntSequence. *)
Theorem reachable_inv x : reachable x -> inv x.
Proof. apply inv_of_reachable. Qed.

Lemma reachable_inv_witness :
  match dispatch (MsgIn1 8) euclid_new with Ok (y, _) => inv y | Err _ => False end.
Proof.
  destruct (dispatch (MsgIn1 8) euclid_new) as [[y o]|e] eqn:E; [|vm_compute in E; discriminate].
  apply (reachable_inv y). exact (reachable_step (MsgIn1 8) euclid_new y o reachable_new E).
Defined.


(** C23: Every list of atoms the outlet sends from a reachable state is made
    of 0s and 1s and has beats atoms, twice as many when the pingpong
    attribute is 1. *)
Theorem dispatch_sends_bits x m y out :
  reachable x -> dispatch m x = Ok (y, Some out) ->
  bits01 out /\ length out = out_len y.
Proof.
  intros Hr Hd. destruct (reachable_dispatch x m Hr)
    as [(y' & out' & Hd' & _ & B)|(_ & o & _ & _ & He)]; [|congruence].
  rewrite Hd in Hd'. injection Hd' as <- <-. by apply B.
Qed.

Lemma dispatch_sends_bits_witness :
  match dispatch (MsgIn1 8) euclid_new with
  | Ok (y, Some out) => bits01 out /\ length out = out_len y
  | _ => False
  end.
Proof.
  destruct (dispatch (MsgIn1 8) euclid_new) as [[y [out|]]|e] eqn:E; try (vm_compute in E; discriminate).
  exact (dispatch_sends_bits euclid_new (MsgIn1 8) y out reachable_new E).
Defined.


(** ** The [int] parameters of the calls *)

(** C30: In every reachable state hits, beats, offset and beats - 1 fit a
    32-bit int, so the narrowing at the calls euclid(x, x->s_hits,
    x->s_beats) and euclid_thisOffset(x, x->s_thisOffset) and at the
    assignments to the int s_lastElement never changes a value: a bang
    computes with the parameters the inlets stored. *)
Theorem reachable_int_args x :
  reachable x ->
  fits_int (s_hits x) /\ fits_int (s_beats x) /\ fits_int (s_thisOffset x) /\
  fits_int (s_beats x - 1) /\
  euclid_bang_sequence x =
    (x ← euclid_prepare_sequence x;
     x ← euclid (euclid_fuel (s_hits x)) (s_hits x) (s_beats x) x;
     x ← euclid_sequence_string_to_int x;
     euclid_thisOffset x (s_thisOffset x)).
Proof.
  intros Hr. destruct (inv_of_reachable x Hr) as (_ & Hb & Hh & Ho & _).
  split_and!; try fits_int_auto. apply bang_sequence_wide; fits_int_auto.
Qed.

Lemma reachable_int_args_witness :
  fits_int (s_hits euclid_new) /\ fits_int (s_beats euclid_new) /\
  fits_int (s_thisOffset euclid_new) /\ fits_int (s_beats euclid_new - 1) /\
  euclid_bang_sequence euclid_new =
    (x ← euclid_prepare_sequence euclid_new;
     x ← euclid (euclid_fuel (s_hits x)) (s_hits x) (s_beats x) x;
     x ← euclid_sequence_string_to_int x;
     euclid_thisOffset x (s_thisOffset x)).
Proof. exact (reachable_int_args euclid_new reachable_new). Defined.

(** ** Where the writes of a bang land *)

(** A bang from a state of the invariant with at least one beat leaves a C
    string of [s_lastElement + 1] characters in [s_outputSequence], its
    NUL at that index, and buckets of at most that many characters. *)
Lemma bang_writes x y out :
  inv x -> 1 <= s_beats x -> euclid_bang x = Ok (y, out) ->
  s_beats y = s_beats x /\
  c_strlen (s_outputSequence y) = Z.to_nat (s_lastElement x + 1) /\
  s_outputSequence y !! Z.to_nat (s_lastElement x + 1) = Some NUL /\
  Forall (fun s => (String.length s <= Z.to_nat (s_lastElement x + 1))%nat) (active y).
Proof.
  intros (Hsh & Hb & Hh & Ho & HL & _) Hb1 Hy. pose proof Hsh as (_ & _ & Hs).
  destruct (stale_distribute (s_hits x) (s_beats x) (s_lastElement x)) as (bs & Hd & _); try lia.
  destruct (bang_stale x bs Hsh ltac:(lia) ltac:(lia) ltac:(fits_int_auto) ltac:(fits_int_auto)
              ltac:(lia) Hd) as (y' & out' & Hy' & _ & Hb' & _ & _ & _ & _ & _ & _ & Hact & Hbuf).
  rewrite Hy in Hy'. injection Hy' as <- <-.
  destruct (distribute_chars _ _ _ _ _ Hd) as [Hbits Hlen].
  rewrite Nat.min_l in Hlen by lia.
  destruct (holds_strlen _ _ (holds_concat (s_outputSequence x) bs ltac:(lia) Hbits)) as [Hs' HN].
  rewrite Hlen in Hs', HN. rewrite Hbuf, Hact. split_and!; [done|done|done|].
  apply Forall_forall. intros s Hin. rewrite <- Hlen. by apply bucket_length_le.
Qed.

(** What a parameter message does, from a state of the invariant: it
    bangs [pre_bang m x], whose active rows are all its beats. *)
Lemma dispatch_pre_bang m x :
  inv x -> param_msg m ->
  dispatch m x = ('(y, out) ← euclid_bang (pre_bang m x); Ok (y, Some out)) /\
  s_lastElement (pre_bang m x) = s_beats (pre_bang m x) - 1 /\
  (1 <= s_beats (pre_bang m x) -> inv (pre_bang m x)).
Proof.
  intros Hx Hm. pose proof Hx as (Hsh & Hb & Hh & Ho & HL & H0 & Hbits).
  destruct m as [|h|b|o|v]; try contradiction; simpl.
  - rewrite euclid_int_clamps, (to_int_id (s_beats x - 1)) by fits_int_auto.
    pose proof (clamp_hits_range h (s_beats x) ltac:(lia)).
    split_and!; [done|done|]. intros Hb1. split_and!; simpl; try done; lia.
  - rewrite euclid_in1_clamps. pose proof (clamp_beats_range b).
    split_and!; [done|done|]. intros _. split_and!; simpl; try done; lia.
  - rewrite euclid_in2_clamps, (to_int_id (s_beats x - 1)) by fits_int_auto.
    pose proof (clamp_offset_range o).
    split_and!; [done|done|]. intros Hb1. split_and!; simpl; try done; lia.
Qed.

(** The beats after a message: [in1] stores its clamped argument, every
    other message keeps them. *)
Lemma dispatch_beats x m y out :
  dispatch m x = Ok (y, out) ->
  s_beats y = match m with MsgIn1 b => clamp_beats b | _ => s_beats x end.
Proof.
  destruct m as [|h|b|o|v]; simpl.
  - intros (ob & H%bang_params & _)%emit_Ok. by injection H.
  - rewrite euclid_int_clamps. intros (ob & H%bang_params & _)%emit_Ok. by injection H.
  - rewrite euclid_in1_clamps. intros (ob & H%bang_params & _)%emit_Ok. by injection H.
  - rewrite euclid_in2_clamps. intros (ob & H%bang_params & _)%emit_Ok. by injection H.
  - by intros [= <- _].
Qed.

(** Every message that writes, from a state of the invariant, leaves a C
    string of at most beats characters in the buffer and buckets no
    longer; after a parameter message the string has exactly beats
    characters, its NUL at index beats. *)
Lemma dispatch_writes x m y out :
  inv x -> writes m -> 1 <= s_beats y -> dispatch m x = Ok (y, out) ->
  (c_strlen (s_outputSequence y) <= Z.to_nat (s_beats y))%nat /\
  Forall (fun s => (String.length s <= Z.to_nat (s_beats y))%nat) (active y) /\
  (param_msg m -> c_strlen (s_outputSequence y) = Z.to_nat (s_beats y) /\
                  s_outputSequence y !! Z.to_nat (s_beats y) = Some NUL).
Proof.
  intros Hx Hw Hb1 Hd.
  assert (Hcase : param_msg m \/ m = MsgBang) by (destruct m; simpl in *; tauto).
  destruct Hcase as [Hm| ->].
  - destruct (dispatch_pre_bang m x Hx Hm) as (E & HL & Hinv). rewrite E in Hd.
    apply emit_Ok in Hd as (ob & Hbang & _).
    assert (Hbp : s_beats y = s_beats (pre_bang m x)).
    { apply bang_params in Hbang. by injection Hbang. }
    destruct (bang_writes _ y ob (Hinv ltac:(lia)) ltac:(lia) Hbang) as (_ & Hs & HN & Hact).
    rewrite HL, Z.sub_add, <- Hbp in Hs, HN, Hact. split_and!; [lia|done|done].
  - simpl in Hd. apply emit_Ok in Hd as (ob & Hbang & _).
    pose proof Hx as (_ & _ & _ & _ & HL & _).
    assert (Hby : s_beats y = s_beats x).
    { apply bang_params in Hbang. by injection Hbang. }
    destruct (bang_writes x y ob Hx ltac:(lia) Hbang) as (_ & Hs & _ & Hact).
    split_and!; [lia| |done].
    rewrite Forall_forall in Hact |- *. intros s' Hin. specialize (Hact s' Hin). lia.
Qed.

(** C10: From every reachable state, a message that sets a parameter (int,
    in1, in2) and leaves at least one beat writes into s_outputSequence a
    C string of exactly beats characters and its NUL terminator at index
    beats: with beats = 64 (in1 with an argument of 64 or more) the NUL
    lands in s_outputSequence[64], one past the 64 chars the struct
    declares. *)
Theorem param_msg_nul_at_beats x m y out :
  reachable x -> param_msg m -> dispatch m x = Ok (y, out) -> 1 <= s_beats y ->
  c_strlen (s_outputSequence y) = Z.to_nat (s_beats y) /\
  s_outputSequence y !! Z.to_nat (s_beats y) = Some NUL.
Proof.
  intros Hr Hm Hd Hb1.
  assert (Hw : writes m) by (destruct m; done).
  exact (proj2 (proj2 (dispatch_writes x m y out (inv_of_reachable x Hr) Hw Hb1 Hd)) Hm).
Qed.

Lemma param_msg_nul_at_beats_witness :
  match dispatch (MsgIn1 64) euclid_new with
  | Ok (y, _) => c_strlen (s_outputSequence y) = 64%nat /\ s_outputSequence y !! 64%nat = Some NUL
  | Err _ => False
  end.
Proof.
  destruct (dispatch (MsgIn1 64) euclid_new) as [[y o]|e] eqn:E; [|vm_compute in E; discriminate].
  pose proof (dispatch_beats _ _ _ _ E) as Hb. simpl in Hb. change (clamp_beats 64) with 64 in Hb.
  change 64%nat with (Z.to_nat 64). rewrite <- Hb.
  apply (param_msg_nul_at_beats euclid_new (MsgIn1 64) y o reachable_new I E). rewrite Hb. concrete.
Defined.

(** C4: Within the envelope of the declared arrays: from every reachable state
    with 1 to 63 beats, a message other than in1 with an argument above 63
    succeeds, keeps beats in [1, 63], leaves in s_outputSequence a string
    shorter than its 64 chars, every active bucket shorter than the 64
    chars of its s_Sequence row, and sends only 0s and 1s, out_len of them
    (at most 126, within the 128 longs of s_outputIntSequence). *)
Theorem dispatch_in_bounds x m :
  reachable x -> 1 <= s_beats x <= 63 -> in_envelope m ->
  exists y out, dispatch m x = Ok (y, out) /\ 1 <= s_beats y <= 63 /\
    (writes m -> (c_strlen (s_outputSequence y) < 64)%nat /\
                 Forall (fun s => (String.length s < 64)%nat) (active y)) /\
    (forall o, out = Some o -> bits01 o /\ length o = out_len y /\ (length o <= 126)%nat).
Proof.
  intros Hr Hb He.
  destruct (reachable_dispatch x m Hr) as [(y & out & Hd & Hry & B)|[Hb0 _]]; [|lia].
  pose proof (dispatch_beats x m y out Hd) as Hby.
  assert (Hby' : 1 <= s_beats y <= 63).
  { rewrite Hby. destruct m; simpl in He; try lia.
    pose proof (clamp_beats_range beats). unfold clamp_beats in *.
    destruct (Z.gtb_spec beats 64), (Z.gtb_spec beats 0); lia. }
  exists y, out. split_and!; [done|lia|lia| |].
  - intros Hw. destruct (dispatch_writes x m y out (inv_of_reachable x Hr) Hw ltac:(lia) Hd)
      as (Hs & Hact & _).
    split; [lia|]. rewrite Forall_forall in Hact |- *. intros s Hin. specialize (Hact s Hin). lia.
  - intros o Ho. destruct (B o Ho) as [B1 B2]. split_and!; [done|done|].
    rewrite B2. unfold out_len. destruct (_ =? 1); lia.
Qed.

Lemma dispatch_in_bounds_witness :
  match dispatch (MsgIn1 5) euclid_new with
  | Ok (x, _) =>
      exists y out, dispatch (MsgInt 3) x = Ok (y, out) /\ 1 <= s_beats y <= 63 /\
        (writes (MsgInt 3) -> (c_strlen (s_outputSequence y) < 64)%nat /\
                               Forall (fun s => (String.length s < 64)%nat) (active y)) /\
        (forall o, out = Some o -> bits01 o /\ length o = out_len y /\ (length o <= 126)%nat)
  | Err _ => False
  end.
Proof.
  destruct (dispatch (MsgIn1 5) euclid_new) as [[x o]|e] eqn:E; [|vm_compute in E; discriminate].
  pose proof (dispatch_beats _ _ _ _ E) as Hb. simpl in Hb. change (clamp_beats 5) with 5 in Hb.
  apply (dispatch_in_bounds x (MsgInt 3) (reachable_step _ _ _ _ reachable_new E));
    [rewrite Hb; concrete|exact I].
Defined.

(** C11: From every reachable state without beats (euclid_new, and every state
    before the first in1), an in2 message with a positive offset reaches
    thisOffset % beats with beats = 0 in euclid_thisOffset: a division by
    zero, undefined behaviour in C. *)
Theorem in2_divides_by_zero x o :
  reachable x -> s_beats x = 0 -> 0 < o -> dispatch (MsgIn2 o) x = Err DivisionByZero.
Proof.
  intros Hr Hb0 Ho0. pose proof (inv_of_reachable x Hr) as (Hsh & Hb & Hh & Ho & HL & H0 & _).
  destruct (H0 Hb0) as [Hh0 _]. simpl.
  rewrite euclid_in2_clamps, (to_int_id (s_beats x - 1)) by fits_int_auto.
  pose proof (clamp_offset_range o).
  rewrite bang_zero_beats_offset; simpl; try done; try lia; try fits_int_auto.
  unfold clamp_offset. destruct (Z.ltb_spec o 0), (Z.gtb_spec o 128); lia.
Qed.

Lemma in2_divides_by_zero_witness : dispatch (MsgIn2 5) euclid_new = Err DivisionByZero.
Proof. apply (in2_divides_by_zero euclid_new 5 reachable_new); concrete. Defined.
