(* ===== verification/MethodTable.v ===== *)
(** * The class of [main] and the inlets of [euclid_new]

    [main] (lines 74-95) builds the class: [class_new], one
    [class_addmethod] per selector with its argument types, and the
    [pingpong] attribute of [CLASS_ATTR_LONG].  [euclid_new] adds the
    proxy inlets 2 and 1 with [intin] (lines 104-105).  Max delivers a
    message by looking its selector up in the class's table and checking
    its atoms against the registered types ([typedmess]); an int arriving
    at inlet [n > 0] is the message [in<n>], at the left inlet [int].

    The host's side (the lookup, the type check, the inlet selectors) is
    modelled as the Max documentation describes it.  The theorems show
    that the message type of Machine.v is exactly what the table accepts:
    every message reaches [dispatch] through its selector, each inlet
    reaches the handler of its parameter, and nothing else is accepted. *)
From Stdlib Require Import ZArith Lia Ascii String.
From stdpp Require Import base list strings decidable pretty.
From S2P Require Import Prelude CRuntime EuclidState Handlers Machine.
Open Scope Z_scope.

(** ** The class *)

(** The argument type codes [main] passes to [class_new] and
    [class_addmethod] ([e_max_atomtypes] of the Max SDK). *)
Inductive e_max_atomtypes := A_LONG | A_DEFLONG | A_CANT.

(** The functions [main] registers, by their C names. *)
Inductive method := M_euclid_new | M_euclid_bang | M_euclid_int | M_euclid_in1 | M_euclid_in2
  | M_euclid_assist.

(** A [t_class]: the methods by selector in the order they were added,
    and the long attributes with the setter of their struct field. *)
Record t_class := mk_class {
  c_name : string;
  c_new : method * list e_max_atomtypes;
  c_methods : list (string * (method * list e_max_atomtypes));
  c_attrs : list (string * (t_euclid -> Z -> t_euclid))
}.

Definition class_new (name : string) (m : method) (tys : list e_max_atomtypes) : t_class :=
  mk_class name (m, tys) [] [].

Definition class_addmethod (c : t_class) (m : method) (sel : string) (tys : list e_max_atomtypes)
  : t_class :=
  mk_class (c_name c) (c_new c) (c_methods c ++ [(sel, (m, tys))]) (c_attrs c).

(** [CLASS_ATTR_LONG(c, name, 0, t_euclid, field)]: a [long] attribute
    whose setter stores into [field]. *)
Definition CLASS_ATTR_LONG (c : t_class) (name : string) (setter : t_euclid -> Z -> t_euclid)
  : t_class :=
  mk_class (c_name c) (c_new c) (c_methods c) (c_attrs c ++ [(name, setter)]).

(** Lines 78-89 of [main]. *)
Definition euclid_class : t_class :=
  let c := class_new "mattbot.euclid" M_euclid_new [A_DEFLONG] in
  let c := class_addmethod c M_euclid_bang "bang" [] in
  let c := class_addmethod c M_euclid_int "int" [A_LONG] in
  let c := class_addmethod c M_euclid_in1 "in1" [A_LONG] in
  let c := class_addmethod c M_euclid_in2 "in2" [A_LONG] in
  let c := class_addmethod c M_euclid_assist "assist" [A_CANT] in
  CLASS_ATTR_LONG c "pingpong" set_pingPongFlag.

(** ** Delivering a message *)

Inductive t_atom := LongAtom (v : Z) | SymAtom (s : string).

(** The first entry of an association list with key [k]. *)
Fixpoint assoc {V} (l : list (string * V)) (k : string) : option V :=
  match l with
  | [] => None
  | (k', v) :: l' => if String.eqb k k' then Some v else assoc l' k
  end.

(** The atoms of a message checked against the registered types: a
    [long] for each [A_LONG]; [A_CANT] methods cannot be called by a
    message.  Atoms beyond the typed ones are ignored. *)
Fixpoint typed_args (tys : list e_max_atomtypes) (av : list t_atom) : option (list Z) :=
  match tys, av with
  | [], _ => Some []
  | A_LONG :: tys', LongAtom v :: av' => vs ← typed_args tys' av'; Some (v :: vs)
  | A_DEFLONG :: tys', LongAtom v :: av' => vs ← typed_args tys' av'; Some (v :: vs)
  | A_DEFLONG :: tys', [] => vs ← typed_args tys' []; Some (0 :: vs)
  | _, _ => None
  end.

(** The C function a registered method names, called with its arguments;
    what it sends through [outlet_anything] is the second component. *)
Definition call (m : method) (args : list Z) (x : t_euclid)
  : option (res (t_euclid * option (list Z))) :=
  let emit (r : res (t_euclid * list Z)) := Some ('(y, out) ← r; Ok (y, Some out)) in
  match m, args with
  | M_euclid_bang, [] => emit (euclid_bang x)
  | M_euclid_int, [h] => emit (euclid_int x h)
  | M_euclid_in1, [b] => emit (euclid_in1 x b)
  | M_euclid_in2, [o] => emit (euclid_in2 x o)
  | _, _ => None
  end.

(** Max's [typedmess]: the method by selector, else the attribute setter
    on its first [long]; [None] where the object does not understand the
    message. *)
Definition typedmess (c : t_class) (x : t_euclid) (sel : string) (av : list t_atom)
  : option (res (t_euclid * option (list Z))) :=
  match assoc (c_methods c) sel with
  | Some (m, tys) => args ← typed_args tys av; call m args x
  | None =>
      match assoc (c_attrs c) sel, av with
      | Some setter, LongAtom v :: _ => Some (Ok (setter x v, None))
      | _, _ => None
      end
  end.

(** ** Inlets *)

(** The proxy inlets [euclid_new] creates, in the order of the [intin]
    calls (lines 104-105). *)
Definition euclid_intins : list nat := [2%nat; 1%nat].

(** The message an int [v] at inlet [n] becomes: [int] at the left
    inlet, [in<n>] at an [intin] proxy, none at an inlet that does not
    exist. *)
Definition inlet_message (n : nat) (v : Z) : option (string * list t_atom) :=
  if decide (n = 0%nat) then Some ("int"%string, [LongAtom v])
  else if decide (n ∈ euclid_intins) then Some (("in" +:+ pretty n)%string, [LongAtom v])
  else None.

(** The selector and atoms of each message of Machine.v. *)
Definition wire (m : message) : string * list t_atom :=
  match m with
  | MsgBang => ("bang"%string, [])
  | MsgInt h => ("int"%string, [LongAtom h])
  | MsgIn1 b => ("in1"%string, [LongAtom b])
  | MsgIn2 o => ("in2"%string, [LongAtom o])
  | MsgPingPong v => ("pingpong"%string, [LongAtom v])
  end.

(** [object_new]: the constructor [class_new] registered, called with
    its [A_DEFLONG] argument, which [euclid_new] ignores. *)
Definition object_new (c : t_class) (av : list t_atom) : option t_euclid :=
  match c_new c with
  | (M_euclid_new, tys) => _ ← typed_args tys av; Some euclid_new
  | _ => None
  end.

(** ** The table implements the message type *)

(** Each selector is registered once, so the lookup never depends on the
    order of registration. *)
Lemma euclid_class_selectors :
  map fst (c_methods euclid_class) = ["bang"; "int"; "in1"; "in2"; "assist"]%string /\
  map fst (c_attrs euclid_class) = ["pingpong"%string] /\
  NoDup (map fst (c_methods euclid_class) ++ map fst (c_attrs euclid_class)).
Proof. split_and!; [reflexivity|reflexivity|]. apply (bool_decide_unpack _). vm_compute. exact I. Qed.

Lemma typedmess_dispatch m x :
  typedmess euclid_class x (wire m).1 (wire m).2 = Some (dispatch m x).
Proof. destruct m; reflexivity. Qed.

(** C26: Every message of the model, sent by its selector with its atoms, is
    delivered by Max's lookup in the class main builds to the handler that
    dispatch runs. *)
Theorem typedmess_wire m x :
  typedmess euclid_class x (wire m).1 (wire m).2 = Some (dispatch m x).
Proof. apply typedmess_dispatch. Qed.

Lemma typed_long_one av args :
  typed_args [A_LONG] av = Some args -> exists v av', av = LongAtom v :: av' /\ args = [v].
Proof.
  destruct av as [|[v|s] av']; simpl; try discriminate. intros [= <-]. by exists v, av'.
Qed.

(** C27: The object understands only the messages of the model: whatever the
    selector and atoms, a message the class accepts is one of them, with
    the selector of wire, and does what dispatch does; in particular
    assist, registered A_CANT, is never called by a message. *)
Theorem typedmess_complete x sel av r :
  typedmess euclid_class x sel av = Some r ->
  exists m, (wire m).1 = sel /\ r = dispatch m x.
Proof.
  unfold typedmess. simpl.
  destruct (String.eqb_spec sel "bang"); [subst; intros [= <-]; by exists MsgBang|].
  destruct (String.eqb_spec sel "int");
    [subst; intros (args & (v & ? & -> & ->)%typed_long_one & [= <-])%bind_Some;
     by exists (MsgInt v)|].
  destruct (String.eqb_spec sel "in1");
    [subst; intros (args & (v & ? & -> & ->)%typed_long_one & [= <-])%bind_Some;
     by exists (MsgIn1 v)|].
  destruct (String.eqb_spec sel "in2");
    [subst; intros (args & (v & ? & -> & ->)%typed_long_one & [= <-])%bind_Some;
     by exists (MsgIn2 v)|].
  destruct (String.eqb_spec sel "assist"); [subst; by destruct av|].
  destruct (String.eqb_spec sel "pingpong"); [|done].
  subst. destruct av as [|[v|] ?]; try discriminate. intros [= <-]. by exists (MsgPingPong v).
Qed.

Lemma typedmess_complete_witness :
  exists m, (wire m).1 = "in1"%string /\ dispatch (MsgIn1 8) sample_state = dispatch m sample_state.
Proof.
  apply (typedmess_complete sample_state "in1" [LongAtom 8] (dispatch (MsgIn1 8) sample_state)).
  vm_compute. reflexivity.
Defined.

(** The inlets that exist, and the message each one sends. *)
Lemma inlet_message_cases n v sel av :
  inlet_message n v = Some (sel, av) ->
  (n = 0%nat /\ (sel, av) = wire (MsgInt v)) \/ (n = 1%nat /\ (sel, av) = wire (MsgIn1 v)) \/
  (n = 2%nat /\ (sel, av) = wire (MsgIn2 v)).
Proof.
  unfold inlet_message. case_decide as H0; [intros [= <- <-]; by left|].
  case_decide as Hi; [|discriminate]. unfold euclid_intins in Hi.
  rewrite !elem_of_cons, elem_of_nil in Hi.
  destruct Hi as [->|[->|[]]]; intros [= <- <-]; right; [right|left]; done.
Qed.

(** C28: An int v at the left inlet becomes the int message, at the proxy
    inlets 1 and 2 that euclid_new creates the in1 and in2 messages, so
    through the table it reaches euclid_int, euclid_in1 and euclid_in2
    (the hits, the beats and the offset); there is no inlet 3 or beyond. *)
Theorem inlet_messages v :
  inlet_message 0 v = Some (wire (MsgInt v)) /\
  inlet_message 1 v = Some (wire (MsgIn1 v)) /\
  inlet_message 2 v = Some (wire (MsgIn2 v)) /\
  forall n, (3 <= n)%nat -> inlet_message n v = None.
Proof.
  split_and!; [reflexivity|reflexivity|reflexivity|].
  intros n Hn. destruct (inlet_message n v) as [[sel av]|] eqn:E; [|done].
  apply inlet_message_cases in E. lia.
Qed.

Lemma inlet_messages_witness : inlet_message 3 5 = None.
Proof. apply (proj2 (proj2 (proj2 (inlet_messages 5))) 3%nat). lia. Defined.
