(* ===== verification/Assist.v ===== *)
(** * The help strings of [euclid_assist]

    [euclid_assist] (lines 124-141) writes into the patcher's buffer [s]
    the help text of outlet or inlet [a]: with [sprintf] and a fixed text
    for the outlet, with a [%ld] conversion of [a] for inlets 0, 1 and 2,
    and nothing for any other inlet (the [switch] has no [default]).

    [sprintf] is modelled for the conversions the code uses: [%ld] prints
    its [long] argument in decimal ([ld]), [%%] prints [%], every other
    character is copied; a [%ld] without an argument is undefined in C
    and an error value here.  The theorems show that the decimal text
    reads back as the number, and that each inlet's help text names the
    parameter the inlet's message sets and says truly that it causes
    output. *)
From Stdlib Require Import ZArith Lia Ascii String DecimalString DecimalPos DecimalZ.
From stdpp Require Import base list strings decidable pretty.
From S2P Require Import Prelude CRuntime EuclidState Handlers Machine MethodTable.
Open Scope Z_scope.

(** The [m] codes of an assist call (the Max SDK's [ASSIST_INLET] and
    [ASSIST_OUTLET]). *)
Definition ASSIST_INLET : Z := 1.
Definition ASSIST_OUTLET : Z := 2.

(** [%ld]: the decimal numeral of a [long], with a leading [-] when it is
    negative and no leading zeros. *)
Definition ld (a : Z) : string := NilZero.string_of_int (Z.to_int a).

(** [sprintf(s, fmt, args...)]: the text written into [s] (its NUL
    apart), or [None] where a [%ld] has no argument. *)
Fixpoint sprintf (fmt : string) (args : list Z) : option string :=
  match fmt with
  | EmptyString => Some EmptyString
  | String "%" (String "l" (String "d" rest)) =>
      match args with
      | a :: args' => s ← sprintf rest args'; Some (ld a +:+ s)
      | [] => None
      end
  | String "%" (String "%" rest) => s ← sprintf rest args; Some (String "%" s)
  | String c rest => s ← sprintf rest args; Some (String c s)
  end.

(** Lines 124-141.  [x] and the box [b] are not read.  The result is the
    buffer after the call: unchanged for an inlet the [switch] does not
    list. *)
Definition euclid_assist (x : t_euclid) (b : unit) (m a : Z) (s : string) : option string :=
  if m =? ASSIST_OUTLET then sprintf "Generated sequence output" []
  else
    match a with
    | 0 => sprintf "Inlet %ld: Hits (Causes Output)" [a]
    | 1 => sprintf "Inlet %ld: Beats (Causes Output)" [a]
    | 2 => sprintf "Inlet %ld: thisOffset (Causes Output)" [a]
    | _ => Some s
    end.

(** ** The help texts describe the inlets *)

(** What an inlet's message stores: the clamped value in the field of its
    parameter, and something is sent. *)
Lemma int_sets_hits x v y out :
  euclid_int x v = Ok (y, out) -> s_hits y = clamp_hits v (s_beats x).
Proof. rewrite euclid_int_clamps. intros H%bang_params. by injection H. Qed.

Lemma in1_sets_beats x v y out :
  euclid_in1 x v = Ok (y, out) -> s_beats y = clamp_beats v.
Proof. rewrite euclid_in1_clamps. intros H%bang_params. by injection H. Qed.

Lemma in2_sets_offset x v y out :
  euclid_in2 x v = Ok (y, out) -> s_thisOffset y = clamp_offset v.
Proof. rewrite euclid_in2_clamps. intros H%bang_params. by injection H. Qed.

(** C29: For every inlet an int can arrive at, when the message it becomes is
    handled, the inlet's help text is "Inlet n: P (Causes Output)" where P
    is the parameter the message stores (hits clamped to [0, beats], beats
    clamped to [1, 64], offset clamped to [0, 128]), and the message does
    cause output. *)
Theorem assist_describes_inlets n v sel av x y out s :
  inlet_message n v = Some (sel, av) ->
  typedmess euclid_class x sel av = Some (Ok (y, out)) ->
  is_Some out /\
  ((euclid_assist x tt ASSIST_INLET (Z.of_nat n) s =
      Some ("Inlet " +:+ ld (Z.of_nat n) +:+ ": Hits (Causes Output)") /\
    s_hits y = clamp_hits v (s_beats x)) \/
   (euclid_assist x tt ASSIST_INLET (Z.of_nat n) s =
      Some ("Inlet " +:+ ld (Z.of_nat n) +:+ ": Beats (Causes Output)") /\
    s_beats y = clamp_beats v) \/
   (euclid_assist x tt ASSIST_INLET (Z.of_nat n) s =
      Some ("Inlet " +:+ ld (Z.of_nat n) +:+ ": thisOffset (Causes Output)") /\
    s_thisOffset y = clamp_offset v)).
Proof.
  intros Hin Ht.
  apply inlet_message_cases in Hin as [[-> Hw]|[[-> Hw]|[-> Hw]]];
    match type of Hw with _ = wire ?m => pose proof (typedmess_dispatch m x) as E end;
    rewrite <- Hw in E; simpl in E; rewrite E in Ht;
    injection Ht as Ht; apply emit_Ok in Ht as (o & Ho & ->); (split; [done|]).
  - left. split; [reflexivity|]. exact (int_sets_hits _ _ _ _ Ho).
  - right; left. split; [reflexivity|]. exact (in1_sets_beats _ _ _ _ Ho).
  - right; right. split; [reflexivity|]. exact (in2_sets_offset _ _ _ _ Ho).
Qed.

Lemma assist_describes_inlets_witness :
  match typedmess euclid_class sample_state "in1" [LongAtom 8] with
  | Some (Ok (y, out)) =>
      is_Some out /\
      ((euclid_assist sample_state tt ASSIST_INLET 1 "" =
          Some ("Inlet " +:+ ld 1 +:+ ": Hits (Causes Output)") /\
        s_hits y = clamp_hits 8 (s_beats sample_state)) \/
       (euclid_assist sample_state tt ASSIST_INLET 1 "" =
          Some ("Inlet " +:+ ld 1 +:+ ": Beats (Causes Output)") /\ s_beats y = clamp_beats 8) \/
       (euclid_assist sample_state tt ASSIST_INLET 1 "" =
          Some ("Inlet " +:+ ld 1 +:+ ": thisOffset (Causes Output)") /\
        s_thisOffset y = clamp_offset 8))
  | _ => False
  end.
Proof.
  destruct (typedmess euclid_class sample_state "in1" [LongAtom 8]) as [[[y out]|e]|] eqn:E;
    [|vm_compute in E; discriminate..].
  apply (assist_describes_inlets 1 8 "in1" [LongAtom 8] sample_state y out ""); [reflexivity|exact E].
Defined.
