(* ===== verification/Scenarios.v ===== *)
(** * Concrete patches

    Runs of the method table ([Machine.run]) from [euclid_new] that show
    what the C code does where it departs from the spec: a second bang,
    an offset before any beats, hits above the beats, and the 64-beat
    buffer. *)
From Stdlib Require Import ZArith Lia Ascii String.
From stdpp Require Import base list strings decidable.
From S2P Require Import Prelude CRuntime EuclidState Buckets Distributor PostProcess Handlers Machine.
Open Scope Z_scope.

(** The lists of atoms a patch makes the object send, from a fresh object. *)
Definition sent (ms : list message) : res (list (list Z)) :=
  '(_, outs) ← run ms euclid_new; Ok outs.

(** The object after a patch. *)
Definition state_after (ms : list message) : res t_euclid :=
  '(x, _) ← run ms euclid_new; Ok x.

(** ** Patches *)

(** After in1 8 and int 3, which send the pattern 1,0,0,1,0,1,0,0, a bang
    sends 1,1,0,1,0,1,0,0: a bang does not regenerate the pattern but
    distributes the buckets the last run left and reads stale bytes past
    the NUL. *)
Example repeated_bang_changes_pattern :
  sent [MsgIn1 8; MsgInt 3; MsgBang] =
    Ok [replicate 8 0; [1; 0; 0; 1; 0; 1; 0; 0]; [1; 1; 0; 1; 0; 1; 0; 0]].
Proof. vm_compute. reflexivity. Qed.

(** An in2 message with offset 5 on a fresh object divides by zero in
    euclid_thisOffset. *)
Example offset_before_beats_divides_by_zero : sent [MsgIn2 5] = Err DivisionByZero.
Proof. vm_compute. reflexivity. Qed.

(** After in1 8, int 8 and in1 4 the object stores 8 hits for 4 beats,
    outside the spec's invariant hits <= beats, and the last message sends
    four 1s. *)
Example hits_above_beats :
  (state_after [MsgIn1 8; MsgInt 8; MsgIn1 4] ≫= fun x => Ok (s_hits x, s_beats x)) = Ok (8, 4) /\
  sent [MsgIn1 8; MsgInt 8; MsgIn1 4] = Ok [replicate 8 0; replicate 8 1; replicate 4 1].
Proof. vm_compute. split; reflexivity. Qed.

(** After in1 64 the string in s_outputSequence has 64 characters, so
    strcat writes its NUL at index 64, one byte past the 64-byte array. *)
Example full_buffer_overflows :
  (state_after [MsgIn1 64] ≫= fun x => Ok (c_strlen (s_outputSequence x))) = Ok 64%nat.
Proof. vm_compute. reflexivity. Qed.
